(** * Price comparator extension: caches, comparison, reconciliation, search

    A shallow embedding of the parts of the browser extension that its
    specification talks about:

    - the content-script [PerformanceCache] (an LRU store without expiry),
    - the background [PerformanceCache] (LRU store with a time to live),
    - [processAndCompare] (price comparison over IEEE doubles),
    - the [fetchPrices] message handler,
    - vendor reconciliation ([processVendorElements], [highlightVendor]),
    - the search pipeline ([performAdvancedSearch], [performSmartSearch],
      [calculateSimpleSimilarity], [applyCategoryFilters], [applySorting]),
    - the rate limiters [debounce] and [throttle], and [DOMCache],
    - the history, the favorites and the virtual scrolling of
      [SearchManager],
    - [persianToWestern], [extractVendorCodeFromUrl] and
      [extractRatingFromElement],
    - [getVendorData] with its retries, and the product payloads read by
      [fetchSnappfoodData] and [fetchTapsifoodData].

    JavaScript values are modelled as follows.  A [Map] is an association
    list in insertion order with unique keys.  A plain object used as a
    dictionary keyed by integer ids is a [gmap Z]; the objects that
    [processAndCompare] reads and writes are keyed by strings, since the
    code reads the mapping under [parseInt] of a product key and so reaches
    one mapping entry from different keys.  A number that is a price or an
    id of the mapping is a binary64 [float]; [Date.now()] and counters are
    integers.  A string is the list of its UTF-16 code units.  An array that
    is shared between several owners lives in a heap of arrays and is passed
    by reference. *)

From Stdlib Require Import ZArith List Lia Bool Ascii String Floats Uint63 Sorted.
From stdpp Require Import base decidable option list sorting gmap strings.

Set Default Proof Using "Type".
Local Open Scope Z_scope.

(** ** JavaScript [Map]: insertion-ordered, unique keys *)

Module JsMap.
Section JsMap.
Context {K V : Type} `{EqDecision K}.

Definition t : Type := list (K * V).

Definition keys (m : t) : list K := m.*1.

Definition size (m : t) : Z := Z.of_nat (length m).

Fixpoint get (k : K) (m : t) : option V :=
  match m with
  | [] => None
  | (k', v) :: m' => if decide (k = k') then Some v else get k m'
  end.

Definition has (k : K) (m : t) : bool :=
  match get k m with Some _ => true | None => false end.

(** [Map.prototype.delete]: removes the entry, keeps the order of the rest. *)
Fixpoint delete (k : K) (m : t) : t :=
  match m with
  | [] => []
  | (k', v) :: m' =>
      if decide (k = k') then delete k m' else (k', v) :: delete k m'
  end.

(** [Map.prototype.set]: an existing key keeps its position and only has
    its value replaced; a new key is appended. *)
Fixpoint set (k : K) (v : V) (m : t) : t :=
  match m with
  | [] => [(k, v)]
  | (k', v') :: m' =>
      if decide (k = k') then (k, v) :: m' else (k', v') :: set k v m'
  end.

(** [m.keys().next().value]: the first key in insertion order, if any. *)
Definition firstKey (m : t) : option K := head (keys m).

(** [m.delete(m.keys().next().value)]; deleting [undefined] from an empty
    map does nothing. *)
Definition deleteFirst (m : t) : t :=
  match firstKey m with
  | Some k => delete k m
  | None => m
  end.

End JsMap.
Global Arguments t : clear implicits.
End JsMap.

(** ** Content script: [PerformanceCache] (part_000, lines 17-65)

    The cache of the content script, used for [state.ratingCache] and
    [state.searchCache].  It has no notion of time. *)

Module Content.
Section PerformanceCache.
Context {K V : Type} `{EqDecision K}.

Record PerformanceCache : Type := mkCache {
  cache : JsMap.t K V;
  maxSize : Z;
  hitCount : Z;
  missCount : Z
}.

(** [new PerformanceCache(maxSize)] *)
Definition new (maxSize : Z) : PerformanceCache := mkCache [] maxSize 0 0.

(** [get(key)]: the result is [Some item] when the method returns the
    stored item and [None] when it returns [null] after a miss. *)
Definition get (key : K) (c : PerformanceCache) : option V * PerformanceCache :=
  match JsMap.get key (cache c) with
  | Some item =>
      (Some item,
       mkCache (JsMap.set key item (JsMap.delete key (cache c)))
               (maxSize c) (hitCount c + 1) (missCount c))
  | None =>
      (None, mkCache (cache c) (maxSize c) (hitCount c) (missCount c + 1))
  end.

(** [set(key, value)] *)
Definition set (key : K) (value : V) (c : PerformanceCache) : PerformanceCache :=
  let m :=
    if JsMap.has key (cache c) then JsMap.delete key (cache c)
    else if JsMap.size (cache c) >=? maxSize c then JsMap.deleteFirst (cache c)
    else cache c in
  mkCache (JsMap.set key value m) (maxSize c) (hitCount c) (missCount c).

(** [clear()] *)
Definition clear (c : PerformanceCache) : PerformanceCache :=
  mkCache [] (maxSize c) 0 0.

(** The calls a client can make that change the cache. *)
Inductive op : Type :=
| OpGet (key : K)
| OpSet (key : K) (value : V)
| OpClear.

Definition step (o : op) (c : PerformanceCache) : PerformanceCache :=
  match o with
  | OpGet key => snd (get key c)
  | OpSet key value => set key value c
  | OpClear => clear c
  end.

Definition run (ops : list op) (c : PerformanceCache) : PerformanceCache :=
  foldl (λ c o, step o c) c ops.

(** The one situation in which [set] evicts: the key is new and the store
    already holds [maxSize] entries or more. *)
Definition evicts (key : K) (c : PerformanceCache) : bool :=
  negb (JsMap.has key (cache c)) && (JsMap.size (cache c) >=? maxSize c).

(** [removes key o c]: the call [o], made in state [c], is a [clear()] or a
    [set] that evicts [key] because [key] is the first key of the store. *)
Definition removes (key : K) (o : op) (c : PerformanceCache) : bool :=
  match o with
  | OpGet _ => false
  | OpSet k _ => evicts k c && bool_decide (JsMap.firstKey (cache c) = Some key)
  | OpClear => true
  end.

(** No call of the trace, started in [c], removes [key]. *)
Fixpoint keptThrough (key : K) (ops : list op) (c : PerformanceCache) : bool :=
  match ops with
  | [] => true
  | o :: ops' => negb (removes key o c) && keptThrough key ops' (step o c)
  end.

(** The value under [key] after the trace when it started as [value]. *)
Fixpoint lastValue (key : K) (ops : list op) (value : V) : V :=
  match ops with
  | [] => value
  | OpSet k v :: ops' =>
      lastValue key ops' (if decide (k = key) then v else value)
  | _ :: ops' => lastValue key ops' value
  end.

(** [set] called for each pair of the list, in order. *)
Definition setAll (entries : list (K * V)) (c : PerformanceCache) : PerformanceCache :=
  foldl (λ c e, set e.1 e.2 c) c entries.
End PerformanceCache.
Global Arguments PerformanceCache : clear implicits.
Global Arguments op : clear implicits.
End Content.

(** ** Background page: [PerformanceCache] with a time to live
    (part_001, lines 350-437) *)

Module Background.
Section PerformanceCache.
Context {K V : Type} `{EqDecision K}.

(** [{ data, expiry, created }] *)
Record CacheItem : Type := mkItem {
  data : V;
  expiry : Z;
  created : Z
}.

Record PerformanceCache : Type := mkCache {
  cache : JsMap.t K CacheItem;
  maxSize : Z;
  ttl : Z;
  hitCount : Z;
  missCount : Z;
  requestCount : Z
}.

(** [new PerformanceCache(maxSize, ttlMs)] *)
Definition new (maxSize ttlMs : Z) : PerformanceCache :=
  mkCache [] maxSize ttlMs 0 0 0.

(** [get(key)], where [now] is the value of [Date.now()] during the call. *)
Definition get (key : K) (now : Z) (c : PerformanceCache)
  : option V * PerformanceCache :=
  match JsMap.get key (cache c) with
  | Some item =>
      if now <? expiry item then
        (Some (data item),
         mkCache (JsMap.set key item (JsMap.delete key (cache c)))
                 (maxSize c) (ttl c) (hitCount c + 1) (missCount c)
                 (requestCount c))
      else
        (None,
         mkCache (JsMap.delete key (cache c))
                 (maxSize c) (ttl c) (hitCount c) (missCount c + 1)
                 (requestCount c))
  | None =>
      (None,
       mkCache (cache c) (maxSize c) (ttl c) (hitCount c) (missCount c + 1)
               (requestCount c))
  end.

(** [set(key, data)]; both readings of [Date.now()] in the body are [now]. *)
Definition set (key : K) (d : V) (now : Z) (c : PerformanceCache)
  : PerformanceCache :=
  let m :=
    if (JsMap.size (cache c) >=? maxSize c) && negb (JsMap.has key (cache c))
    then JsMap.deleteFirst (cache c)
    else cache c in
  let item := mkItem d (now + ttl c) now in
  mkCache (JsMap.set key item m) (maxSize c) (ttl c) (hitCount c)
          (missCount c) (requestCount c).

(** [clear()] *)
Definition clear (c : PerformanceCache) : PerformanceCache :=
  mkCache [] (maxSize c) (ttl c) 0 0 (requestCount c).

(** [cleanup()]: the sweep visits every entry and deletes the expired ones;
    it returns the number of deleted entries. *)
Definition cleanup (now : Z) (c : PerformanceCache) : Z * PerformanceCache :=
  let expired := filter (λ e : K * CacheItem, now >= expiry e.2) (cache c) in
  (Z.of_nat (length expired),
   mkCache (foldl (λ m e, JsMap.delete e.1 m) (cache c) expired)
           (maxSize c) (ttl c) (hitCount c) (missCount c) (requestCount c)).

Inductive op : Type :=
| OpGet (key : K) (now : Z)
| OpSet (key : K) (d : V) (now : Z)
| OpClear
| OpCleanup (now : Z).

Definition step (o : op) (c : PerformanceCache) : PerformanceCache :=
  match o with
  | OpGet key now => snd (get key now c)
  | OpSet key d now => set key d now c
  | OpClear => clear c
  | OpCleanup now => snd (cleanup now c)
  end.

Definition run (ops : list op) (c : PerformanceCache) : PerformanceCache :=
  foldl (λ c o, step o c) c ops.

(** The value and the time of the last [set] of [key] in a trace. *)
Fixpoint lastSet (key : K) (ops : list op) : option (V * Z) :=
  match ops with
  | [] => None
  | o :: ops' =>
      match lastSet key ops' with
      | Some r => Some r
      | None =>
          match o with
          | OpSet k d now => if decide (k = key) then Some (d, now) else None
          | _ => None
          end
      end
  end.

(** The calls of a trace that come after its last [set] of [key]. *)
Fixpoint afterLastSet (key : K) (ops : list op) : list op :=
  match ops with
  | [] => []
  | o :: ops' =>
      match lastSet key ops' with
      | Some _ => afterLastSet key ops'
      | None =>
          match o with
          | OpSet k _ _ => if decide (k = key) then ops' else o :: ops'
          | _ => o :: ops'
          end
      end
  end.

Definition setKey (o : op) : option K :=
  match o with
  | OpSet k _ _ => Some k
  | _ => None
  end.

(** The number of distinct keys that a trace inserts stays within [N]. *)
Definition withinCapacity (N : Z) (ops : list op) : Prop :=
  Z.of_nat (length (remove_dups (omap setKey ops))) <= N.

(** A call that reads the clock for expiry does so before [deadline]. *)
Definition readsBefore (deadline : Z) (o : op) : Prop :=
  match o with
  | OpGet _ now | OpCleanup now => now < deadline
  | _ => True
  end.

(** The distinct keys other than [key] that a trace inserts after its
    last [set] of [key]. *)
Definition othersInsertedAfter (key : K) (ops : list op) : list K :=
  remove_dups (filter (λ k, k ≠ key) (omap setKey (afterLastSet key ops))).

(** [set] called for each key and value of the list, in order, at the given
    times. *)
Definition setAll (entries : list (K * V * Z)) (c : PerformanceCache)
  : PerformanceCache :=
  foldl (λ c e, set e.1.1 e.1.2 e.2 c) c entries.

(** The entry that a [set] at time [now] stores when the time to live is
    [ttlMs]. *)
Definition stored (ttlMs : Z) (e : K * V * Z) : K * CacheItem :=
  (e.1.1, mkItem e.1.2 (e.2 + ttlMs) e.2).
End PerformanceCache.
Global Arguments CacheItem : clear implicits.
Global Arguments PerformanceCache : clear implicits.
Global Arguments op : clear implicits.
End Background.

(** ** JavaScript strings and numbers *)

(** A string is the sequence of its UTF-16 code units. *)
Definition jsstring : Type := list N.

(** An ASCII literal as a JavaScript string. *)
Definition js (s : string) : jsstring :=
  N_of_ascii <$> list_ascii_of_string s.

(** The methods of [Math] that the extension calls, on binary64 numbers. *)
Module Math.

(** A natural number below 2^53 as a double (exact). *)
Definition ofZ (n : Z) : float := PrimFloat.of_uint63 (Uint63.of_Z n).

Definition abs (x : float) : float := PrimFloat.abs x.

(** The integer closest to [m / den], a tie going up ([roundUp]) or down
    ([roundDown]); [0 < den] and [0 <= m]. *)
Definition roundUp (m den : Z) : Z :=
  if den <=? 2 * (m mod den) then m / den + 1 else m / den.

Definition roundDown (m den : Z) : Z :=
  if den <? 2 * (m mod den) then m / den + 1 else m / den.

(** [Math.round]: the closest integer, ties toward positive infinity.  A
    finite double is [m * 2^e] up to its sign; with a non-negative exponent
    it is an integer already.  A negative double rounds to minus the
    integer closest to its magnitude, a tie going down in magnitude.  NaN,
    the zeros and the infinities are returned unchanged. *)
Definition round (x : float) : float :=
  match Prim2SF x with
  | S754_finite s m e =>
      if 0 <=? e then x
      else if s then PrimFloat.opp (ofZ (roundDown (Z.pos m) (2 ^ (- e))))
      else ofZ (roundUp (Z.pos m) (2 ^ (- e)))
  | _ => x
  end.
End Math.

(** A number in a condition: [0] is falsy, every other integer is truthy. *)
Definition truthyZ (n : Z) : bool := negb (n =? 0).

(** ** Products and comparisons (part_001, lines 614-669) *)

(** A product as [fetchSnappfoodData] and [fetchTapsifoodData] build it.
    The field [discount] exists on SnappFood products only. *)
Record Product : Type := mkProduct {
  id : Z;
  name : jsstring;
  price : float;
  originalPrice : float;
  discount : option float;
  discountRatio : float
}.

Record ComparisonRecord : Type := mkComparison {
  baseProduct : Product;
  counterpartProduct : Product;
  priceDiff : float;
  percentDiff : float;
  isCheaper : bool;
  isMoreExpensive : bool;
  isSamePrice : bool
}.

(** A number in a condition: [0], [-0] and NaN are falsy. *)
Definition truthyNumber (x : float) : bool :=
  negb (x =? 0)%float && negb (PrimFloat.is_nan x).

Module Compare.

(** [productIds.slice(i, i + chunkSize)] for [i = 0, chunkSize, ...]: the
    consecutive slices of the key list.  [fuel] bounds the number of slices. *)
Fixpoint slices {A} (fuel chunkSize : nat) (l : list A) : list (list A) :=
  match fuel, l with
  | S fuel', _ :: _ => take chunkSize l :: slices fuel' chunkSize (drop chunkSize l)
  | _, _ => []
  end.

Section processAndCompare.
(** [parseInt(string)] with no radix, and the string that a number becomes
    when it is used as a property key ([Number::toString]). *)
Context (parseInt : jsstring -> float).
Context (toPropertyKey : float -> jsstring).
(** The objects are keyed by property keys, which are strings.  The mapping
    is from ids to ids: its values are numbers. *)
Context (sfProducts tfProducts : gmap jsstring Product).
Context (sourcePlatform : string).
Context (itemMappings : gmap jsstring float).

Definition baseProducts : gmap jsstring Product :=
  if String.eqb sourcePlatform "snappfood" then sfProducts else tfProducts.

Definition counterpartProducts : gmap jsstring Product :=
  if String.eqb sourcePlatform "snappfood" then tfProducts else sfProducts.

(** The record built in the innermost block of the loop. *)
Definition compareProducts (baseProduct counterpartProduct : Product)
  : ComparisonRecord :=
  let priceDiff := (price baseProduct - price counterpartProduct)%float in
  let percentDiff :=
    Math.round (Math.abs priceDiff / price baseProduct * 100)%float in
  mkComparison baseProduct counterpartProduct priceDiff percentDiff
               (0 <? priceDiff)%float (priceDiff <? 0)%float
               (priceDiff =? 0)%float.

(** The body of the loop for one key.  The mapping is read under the key
    that the number [parseInt(baseId)] converts to, the counterpart under
    the key that the mapped id converts to, the base product and the result
    under [baseId] itself.  A mapping entry that is missing reads as
    [undefined], which is falsy.  [baseProducts[baseId]] is defined for every
    key of the loop. *)
Definition compareOne (baseId : jsstring) : option ComparisonRecord :=
  let baseIdInt := parseInt baseId in
  match itemMappings !! toPropertyKey baseIdInt with
  | Some counterpartId =>
      if truthyNumber counterpartId then
        match counterpartProducts !! toPropertyKey counterpartId with
        | Some counterpartProduct =>
            match baseProducts !! baseId with
            | Some baseProduct =>
                if (0 <? price baseProduct)%float
                then Some (compareProducts baseProduct counterpartProduct)
                else None
            | None => None
            end
        | None => None
        end
      else None
  | None => None
  end.

Definition processId (comparisonResults : gmap jsstring ComparisonRecord)
    (baseId : jsstring) : gmap jsstring ComparisonRecord :=
  match compareOne baseId with
  | Some r => <[baseId := r]> comparisonResults
  | None => comparisonResults
  end.

(** [Object.keys(baseProducts)] *)
Definition productIds : list jsstring := (map_to_list baseProducts).*1.

Definition processAndCompare : gmap jsstring ComparisonRecord :=
  foldl (λ comparisonResults chunk, foldl processId comparisonResults chunk)
        ∅ (slices (length productIds) 50 productIds).
End processAndCompare.
End Compare.

(** A product with the given id and price and nothing else of interest. *)
Definition plainProduct (i : Z) (p : float) : Product :=
  mkProduct i [] p p None 0%float.

(** A string in a condition: [undefined], [null] and [''] are falsy. *)
Definition truthyStr (s : option jsstring) : bool :=
  match s with
  | Some (_ :: _) => true
  | _ => false
  end.

(** ** The [fetchPrices] message handler (part_001, lines 796-863)

    The handler awaits three lookups over the network.  Their outcomes for
    the request at hand are given as functions: [getVendorData] returns the
    result object of the mapping service, and each product fetch returns the
    product object of its platform or [None] for the [null] it returns after
    any failure (HTTP error, malformed payload, timeout). *)

Module FetchPrices.

Record Request : Type := mkRequest {
  sfVendorCode : option jsstring;
  tfVendorCode : option jsstring;
  sourcePlatform : option string
}.

Record VendorInfo : Type := mkVendorInfo {
  sf_code : jsstring;
  tf_code : jsstring
}.

(** [apiResult.data]: either field may be missing from the payload. *)
Record ApiData : Type := mkApiData {
  vendor_info : option VendorInfo;
  item_mappings : option (gmap jsstring float)
}.

Record ApiResult : Type := mkApiResult {
  success : bool;
  data : option ApiData;
  error : option jsstring;
  isConnectionError : option bool
}.

Record Metrics : Type := mkMetrics {
  sfProductCount : Z;
  tfProductCount : Z;
  comparisonCount : Z
}.

(** The object passed to [sendResponse]. *)
Record Response : Type := mkResponse {
  rSuccess : bool;
  rData : option (gmap jsstring ComparisonRecord);
  rVendorInfo : option VendorInfo;
  rPerformanceMetrics : option Metrics;
  rError : option jsstring;
  rIsConnectionError : option bool
}.

Definition failure (msg : jsstring) : Response :=
  mkResponse false None None None (Some msg) None.

Section handler.
Context (getVendorData : string -> jsstring -> ApiResult).
Context (fetchSnappfoodData fetchTapsifoodData
         : jsstring -> option (gmap jsstring Product)).
(** [parseInt] and the conversion of a number to a property key, which
    [processAndCompare] uses. *)
Context (parseInt : jsstring -> float).
Context (toPropertyKey : float -> jsstring).
(** The text of the [TypeError] that reading a field of [undefined] raises. *)
Context (typeErrorMessage : jsstring).

Definition unexpected : Response :=
  failure (js "Unexpected error: " ++ typeErrorMessage).

(** The mapping lookup the handler chooses, if the request names one. *)
Definition apiResultOf (request : Request) : option ApiResult :=
  match sourcePlatform request with
  | Some platform =>
      if String.eqb platform "snappfood" && truthyStr (sfVendorCode request)
      then Some (getVendorData "snappfood" (default [] (sfVendorCode request)))
      else if String.eqb platform "tapsifood" && truthyStr (tfVendorCode request)
      then Some (getVendorData "tapsifood" (default [] (tfVendorCode request)))
      else None
  | None => None
  end.

Definition truthyPlatform (p : option string) : bool :=
  match p with
  | Some (String _ _) => true
  | _ => false
  end.

(** The error text of the last branch. *)
Definition productError (sfFailed tfFailed : bool) : jsstring :=
  js "Failed to fetch product data from one or both platforms."
  ++ (if sfFailed then js " (SnappFood failed)" else [])
  ++ (if tfFailed then js " (TapsiFood failed)" else []).

(** The response to a [fetchPrices] request. *)
Definition fetchPrices (request : Request) : Response :=
  if negb (truthyPlatform (sourcePlatform request))
     || (negb (truthyStr (sfVendorCode request))
         && negb (truthyStr (tfVendorCode request)))
  then failure (js "Invalid request format.")
  else
    match apiResultOf request with
    | None => failure (js "Invalid platform or vendor code.")
    | Some apiResult =>
        if negb (success apiResult) then
          mkResponse false None None None (error apiResult)
                     (isConnectionError apiResult)
        else
          match data apiResult with
          | None => unexpected
          | Some d =>
              match vendor_info d with
              | None => unexpected
              | Some vi =>
                  match fetchSnappfoodData (sf_code vi),
                        fetchTapsifoodData (tf_code vi) with
                  | Some sfProducts, Some tfProducts =>
                      match item_mappings d with
                      | None => unexpected
                      | Some mappings =>
                          let comparisonData :=
                            Compare.processAndCompare
                              parseInt toPropertyKey sfProducts tfProducts
                              (default EmptyString (sourcePlatform request))
                              mappings in
                          mkResponse true (Some comparisonData) (Some vi)
                            (Some (mkMetrics (Z.of_nat (size sfProducts))
                                             (Z.of_nat (size tfProducts))
                                             (Z.of_nat (size comparisonData))))
                            None None
                      end
                  | sf, tf =>
                      failure (productError (bool_decide (sf = None))
                                            (bool_decide (tf = None)))
                  end
              end
          end
    end.

(** The vendor pair whose products the handler fetches, when it gets that
    far. *)
Definition fetchedVendor (request : Request) : option VendorInfo :=
  if negb (truthyPlatform (sourcePlatform request))
     || (negb (truthyStr (sfVendorCode request))
         && negb (truthyStr (tfVendorCode request)))
  then None
  else
    match apiResultOf request with
    | Some apiResult =>
        if success apiResult then d ← data apiResult; vendor_info d else None
    | None => None
    end.
End handler.
End FetchPrices.

(** ** Vendor reconciliation (part_000, lines 1718-1906) *)

Module Reconcile.

(** The values [rating && rating >= RATING_THRESHOLD] can take. *)
Inductive jsval : Type :=
| VNull
| VNum (x : float)
| VBool (b : bool).

Definition truthyNum (x : float) : bool :=
  negb (x =? 0)%float && negb (PrimFloat.is_nan x).

Definition truthy (v : jsval) : bool :=
  match v with
  | VNull => false
  | VNum x => truthyNum x
  | VBool b => b
  end.

(** [RATING_THRESHOLD: 4.2], the double closest to 4.2. *)
Definition RATING_THRESHOLD : float := 0x1.0cccccccccccdp+2%float.
Definition VENDOR_CHUNK_SIZE : nat := 25.

(** [rating && rating >= PERF_CONFIG.RATING_THRESHOLD] *)
Definition highRated (rating : option float) : jsval :=
  match rating with
  | None => VNull
  | Some r => if truthyNum r then VBool (RATING_THRESHOLD <=? r)%float else VNum r
  end.

(** A candidate link as one pass sees it: the vendor code that
    [extractVendorCodeFromUrl] reads off its address, the container that
    [findBestContainer] resolves (an element identity), and the rating that
    [extractRatingFromElement] would return for that container. *)
Record Link : Type := mkLink {
  vendorCode : option jsstring;
  container : option N;
  extractedRating : option float
}.

Inductive Style : Type := Premium | HighRating | Paired.

(** One visual decoration applied to an element. *)
Record Decoration : Type := mkDecoration {
  target : N;
  dVendorCode : jsstring;
  dKey : jsstring;
  dStyle : Style
}.

(** The part of [ExtensionState] that reconciliation reads and writes,
    together with the decorations applied to the page so far. *)
Record State : Type := mkState {
  pairedVendors : gset jsstring;
  processedVendors : gset jsstring;
  processedElements : gset N;
  vendorsProcessed : Z;
  decorations : list Decoration
}.

Section reconcile.
(** [String(x)] for a number [x]. *)
Context (numberToString : float -> jsstring).

Definition boolToString (b : bool) : jsstring :=
  if b then js "true" else js "false".

Definition valToString (v : jsval) : jsstring :=
  match v with
  | VNull => js "null"
  | VNum x => numberToString x
  | VBool b => boolToString b
  end.

(** [`${vendorCode}-${rating || 'no-rating'}-${isPaired}-${isHighRated}`] *)
Definition uniqueId (vendorCode : jsstring) (rating : option float)
    (isPaired : bool) (isHighRated : jsval) : jsstring :=
  vendorCode ++ js "-"
  ++ match rating with
     | Some r => if truthyNum r then numberToString r else js "no-rating"
     | None => js "no-rating"
     end
  ++ js "-" ++ boolToString isPaired ++ js "-" ++ valToString isHighRated.

(** The styling branch [highlightVendor] takes, if any. *)
Definition styleOf (isPaired : bool) (isHighRated : jsval) : option Style :=
  if isPaired && truthy isHighRated then Some Premium
  else if truthy isHighRated && negb isPaired then Some HighRating
  else if isPaired && negb (truthy isHighRated) then Some Paired
  else None.

Definition highlightVendor (st : State) (vendorElement : option N)
    (vendorCode : jsstring) (rating : option float) (isPaired : bool)
    (isHighRated : jsval) : State :=
  let uid := uniqueId vendorCode rating isPaired isHighRated in
  match vendorElement with
  | None => st
  | Some el =>
      if bool_decide (uid ∈ processedVendors st) then st
      else
        let applied :=
          match styleOf isPaired isHighRated with
          | Some s => [mkDecoration el vendorCode uid s]
          | None => []
          end in
        mkState (pairedVendors st) ({[uid]} ∪ processedVendors st)
                (processedElements st) (vendorsProcessed st)
                (decorations st ++ applied)
  end.

(** The body of the loop of [processChunk] for one link; [processedCodes]
    is the set local to the pass. *)
Definition processLink (acc : gset jsstring * State) (link : Link)
  : gset jsstring * State :=
  let '(processedCodes, st) := acc in
  match vendorCode link with
  | Some code =>
      if truthyStr (Some code) && negb (bool_decide (code ∈ processedCodes)) then
        let processedCodes := {[code]} ∪ processedCodes in
        match container link with
        | Some el =>
            if bool_decide (el ∈ processedElements st) then (processedCodes, st)
            else
              let st :=
                mkState (pairedVendors st) (processedVendors st)
                        ({[el]} ∪ processedElements st) (vendorsProcessed st)
                        (decorations st) in
              let rating :=
                if (size processedCodes <=? 100)%nat
                then extractedRating link else None in
              let isPaired := bool_decide (code ∈ pairedVendors st) in
              let isHighRated := highRated rating in
              let st :=
                if isPaired || truthy isHighRated
                then highlightVendor st (Some el) code rating isPaired isHighRated
                else st in
              (processedCodes,
               mkState (pairedVendors st) (processedVendors st)
                       (processedElements st) (vendorsProcessed st + 1)
                       (decorations st))
        | None => (processedCodes, st)
        end
      else acc
  | None => acc
  end.

(** [processChunk(links, startIndex, chunkSize)] followed by the chunks it
    schedules; [fuel] bounds their number. *)
Fixpoint processChunk (fuel : nat) (links : list Link) (startIndex chunkSize : nat)
    (acc : gset jsstring * State) : gset jsstring * State :=
  match fuel with
  | O => acc
  | S fuel' =>
      let endIndex := ((startIndex + chunkSize) `min` length links)%nat in
      let acc :=
        foldl processLink acc
              (take (endIndex - startIndex)%nat (drop startIndex links)) in
      if (endIndex <? length links)%nat
      then processChunk fuel' links endIndex chunkSize acc
      else acc
  end.

(** [processVendorElements()], where [links] is the result of the query for
    restaurant links at the start of the pass. *)
Definition processVendorElements (st : State) (links : list Link) : State :=
  match links with
  | [] => st
  | _ => (processChunk (length links) links 0 VENDOR_CHUNK_SIZE (∅, st)).2
  end.

(** What happens during an epoch: passes over the page, and updates of the
    set of paired vendors when the vendor list arrives. *)
Inductive event : Type :=
| Pass (links : list Link)
| PairedUpdate (paired : gset jsstring).

Definition handle (st : State) (e : event) : State :=
  match e with
  | Pass links => processVendorElements st links
  | PairedUpdate paired =>
      mkState paired (processedVendors st) (processedElements st)
              (vendorsProcessed st) (decorations st)
  end.


(** The state at the start of an epoch: [ExtensionState.reset()]. *)
Definition reset (st : State) : State :=
  mkState ∅ ∅ ∅ (vendorsProcessed st) [].

Definition runEpoch (st : State) (events : list event) : State :=
  foldl handle st events.



End reconcile.
End Reconcile.

(** ** String methods used by the search *)

Module Str.
Local Open Scope N_scope.

(** The characters that [\s] matches and that [trim] removes. *)
Definition isWhiteSpace (c : N) : bool :=
  (c =? 9) || (c =? 10) || (c =? 11) || (c =? 12) || (c =? 13) || (c =? 32)
  || (c =? 160) || (c =? 0x1680) || ((0x2000 <=? c) && (c <=? 0x200a))
  || (c =? 0x2028) || (c =? 0x2029) || (c =? 0x202f) || (c =? 0x205f)
  || (c =? 0x3000) || (c =? 0xfeff).

Fixpoint trimStart (s : jsstring) : jsstring :=
  match s with
  | c :: s' => if isWhiteSpace c then trimStart s' else s
  | [] => []
  end.

(** [s.trim()] *)
Definition trim (s : jsstring) : jsstring :=
  rev (trimStart (rev (trimStart s))).

(** [text.startsWith(word)] *)
Fixpoint startsWith (text word : jsstring) {struct word} : bool :=
  match word with
  | [] => true
  | w :: word' =>
      match text with
      | c :: text' => (c =? w) && startsWith text' word'
      | [] => false
      end
  end.

(** [text.includes(word)] *)
Fixpoint includes (text word : jsstring) : bool :=
  startsWith text word
  || match text with
     | [] => false
     | _ :: text' => includes text' word
     end.

(** [s.split(/\s+/)]: the fields between maximal runs of white space, the
    empty fields before a leading run and after a trailing run included.
    [cur] is the current field, reversed. *)
Fixpoint splitFrom (cur : jsstring) (inSpace : bool) (s : jsstring) : list jsstring :=
  match s with
  | [] => [rev cur]
  | c :: s' =>
      if isWhiteSpace c then
        if inSpace then splitFrom cur true s'
        else rev cur :: splitFrom [] true s'
      else splitFrom (c :: cur) false s'
  end.

Definition splitSpaces (s : jsstring) : list jsstring := splitFrom [] false s.

(** [toLowerCase] on strings whose cased letters are all ASCII, such as
    strings of Latin digits and letters and Arabic-script letters. *)
Definition lowerAscii (s : jsstring) : jsstring :=
  (λ c, if (65 <=? c) && (c <=? 90) then c + 32 else c) <$> s.

(** The three replacements of [normalizeText]: Arabic yeh, kaf and teh
    marbuta become Persian yeh, keheh and heh. *)
Definition canonicalLetter (c : N) : N :=
  if c =? 0x064A then 0x06CC
  else if c =? 0x0643 then 0x06A9
  else if c =? 0x0629 then 0x0647
  else c.
End Str.

(** ** [parseInt] and integer property keys

    The two conversions that [processAndCompare] applies to a product key,
    for the examples.  [parseInt] follows the language definition for a call
    without radix, with the value of the digits rounded to the nearest
    double, ties to even.  [integerKey] is the string of a number that is
    NaN, infinite or an integer of magnitude at most 2^53, which are the
    numbers whose shortest decimal rendering is the integer written out; it
    is not used on other numbers. *)

Module Num.

(** The value of a code unit as a digit below the radix. *)
Definition digitOf (radix c : N) : option N :=
  let value :=
    if (48 <=? c)%N && (c <=? 57)%N then Some (c - 48)%N
    else if (97 <=? c)%N && (c <=? 122)%N then Some (c - 87)%N
    else if (65 <=? c)%N && (c <=? 90)%N then Some (c - 55)%N
    else None in
  match value with
  | Some d => if (d <? radix)%N then Some d else None
  | None => None
  end.

(** The digits at the start of a string: how many there are, and the integer
    they denote. *)
Fixpoint digitsPrefix (radix : N) (count : nat) (value : N) (s : jsstring)
  : nat * N :=
  match s with
  | c :: s' =>
      match digitOf radix c with
      | Some d => digitsPrefix radix (S count) (value * radix + d)%N s'
      | None => (count, value)
      end
  | [] => (count, value)
  end.

(** The double nearest to an integer, with the given sign. *)
Definition ofInteger (negative : bool) (n : N) : float :=
  let magnitude := SF2Prim (binary_normalize prec emax (Z.of_N n) 0 false) in
  if negative then PrimFloat.opp magnitude else magnitude.

Definition parseInt (string : jsstring) : float :=
  let s := Str.trimStart string in
  let '(negative, s) :=
    match s with
    | 45%N :: s' => (true, s')
    | 43%N :: s' => (false, s')
    | _ => (false, s)
    end in
  let '(radix, s) :=
    match s with
    | 48%N :: 120%N :: s' => (16%N, s')
    | 48%N :: 88%N :: s' => (16%N, s')
    | _ => (10%N, s)
    end in
  let '(count, value) := digitsPrefix radix 0 0%N s in
  if (count =? 0)%nat then nan else ofInteger negative value.

(** The decimal digits of a positive integer, most significant first. *)
Fixpoint decimalOf (fuel : nat) (n : N) (acc : jsstring) : jsstring :=
  match fuel with
  | O => acc
  | S fuel' =>
      let acc' := (48 + n mod 10)%N :: acc in
      if (n <? 10)%N then acc' else decimalOf fuel' (n / 10)%N acc'
  end.

Definition integerKey (x : float) : jsstring :=
  match Prim2SF x with
  | S754_nan => js "NaN"
  | S754_infinity s => (if s then js "-" else []) ++ js "Infinity"
  | S754_zero _ => js "0"
  | S754_finite s m e =>
      let n := Z.to_N (if 0 <=? e then Z.pos m * 2 ^ e else Z.pos m / 2 ^ (- e)) in
      (if s then js "-" else []) ++ decimalOf 400 n []
  end.
End Num.

(** A collation for examples: the order of the code units.  On lower-case
    ASCII letters it agrees with [localeCompare]. *)
Fixpoint compareCodeUnits (a b : jsstring) : Z :=
  match a, b with
  | [], [] => 0
  | [], _ :: _ => -1
  | _ :: _, [] => 1
  | x :: a', y :: b' =>
      if (x <? y)%N then -1 else if (y <? x)%N then 1 else compareCodeUnits a' b'
  end.

(** ** The search pipeline (part_000, lines 743-977) *)

(** A vendor of the vendor list, flat or with a nested [vendor_mapping]. *)
Record VendorMapping : Type := mkVendorMapping {
  sf_code : option jsstring;
  sf_name : option jsstring;
  tf_code : option jsstring;
  tf_name : option jsstring
}.

Record Vendor : Type := mkVendor {
  ownFields : VendorMapping;
  vendor_mapping : option VendorMapping
}.

(** [getVendorMapping(vendor)], through [normalizeVendorData]. *)
Definition getVendorMapping (vendor : Vendor) : VendorMapping :=
  if truthyStr (sf_code (ownFields vendor)) && truthyStr (tf_code (ownFields vendor))
  then ownFields vendor
  else match vendor_mapping vendor with
       | Some m => m
       | None => ownFields vendor
       end.

(** [s || ''] *)
Definition orEmpty (s : option jsstring) : jsstring :=
  if truthyStr s then default [] s else [].

(** An array element of the pipeline: the item, and the two fields that
    [performSmartSearch] adds to its copy of the item. *)
Record Scored (A : Type) : Type := mkScored {
  item : A;
  searchScore : option Z;
  searchableText : option jsstring
}.
Arguments mkScored {A} _ _ _.
Arguments item {A} _.
Arguments searchScore {A} _.
Arguments searchableText {A} _.

Definition unscored {A} (x : A) : Scored A := mkScored x None None.

(** [Array.prototype.sort(compare)] for a consistent comparator: the stable
    sort.  [after a b] says that [compare(a, b) > 0].  For a comparator that
    is not consistent, as the comparators of [applySorting] are when a key
    is NaN, the language leaves the order to the engine; this definition then
    fixes one permutation, which need not be the engine's. *)
Fixpoint sortInsert {A} (after : A -> A -> bool) (x : A) (l : list A) : list A :=
  match l with
  | [] => [x]
  | y :: l' => if after x y then y :: sortInsert after x l' else x :: l
  end.

Definition jsSort {A} (after : A -> A -> bool) (l : list A) : list A :=
  foldr (sortInsert after) [] l.

Module Search.

Definition MAX_SEARCH_RESULTS : nat := 200.

(** What the arrays hold: comparison records when there is product data,
    vendors otherwise. *)
Definition ItemOf (hasProductData : bool) : Type :=
  if hasProductData then ComparisonRecord else Vendor.

Definition Array (hasProductData : bool) : Type :=
  list (Scored (ItemOf hasProductData)).

Section ranking.
(** [String.prototype.toLowerCase] *)
Context (toLowerCase : jsstring -> jsstring).

Definition normalizeText (str : jsstring) : jsstring :=
  Str.trim (toLowerCase (Str.canonicalLetter <$> str)).

(** The loop of [calculateSimpleSimilarity]: how many characters of the
    query are found in order in the text. *)
Fixpoint matchInOrder (text query : jsstring) : nat :=
  match text, query with
  | c :: text', q :: query' =>
      if (c =? q)%N then S (matchInOrder text' query')
      else matchInOrder text' query
  | _, _ => O
  end.

Definition calculateSimpleSimilarity (query text : jsstring) : Z :=
  let normalizedQuery := normalizeText query in
  let normalizedText := normalizeText text in
  let queryIndex := matchInOrder normalizedText normalizedQuery in
  let score := 10 * Z.of_nat queryIndex in
  let score :=
    if (queryIndex =? length normalizedQuery)%nat then score + 30 else score in
  foldl (λ score word,
           if (1 <? length word)%nat && Str.includes normalizedText word
           then score + 20 else score)
        score (Str.splitSpaces normalizedQuery).

(** The text a record is searched by. *)
Definition searchableTextOf (hasProductData : bool)
  : ItemOf hasProductData -> jsstring :=
  match hasProductData with
  | true => λ record,
      toLowerCase (name (baseProduct record) ++ js " "
                   ++ name (counterpartProduct record))
  | false => λ vendor,
      let vendorMapping := getVendorMapping vendor in
      toLowerCase (orEmpty (sf_name vendorMapping) ++ js " "
                   ++ orEmpty (tf_name vendorMapping))
      ++ toLowerCase (js " " ++ orEmpty (sf_code vendorMapping) ++ js " "
                      ++ orEmpty (tf_code vendorMapping))
  end.

(** The contribution of one query word. *)
Definition wordScore (searchableText word : jsstring) : Z :=
  if Str.includes searchableText word then
    100 + (if Str.includes searchableText (js " " ++ word)
              || Str.startsWith searchableText word
           then 50 else 0)
  else calculateSimpleSimilarity word searchableText.

(** The score that the callback of [data.map] computes. *)
Definition scoreText (lowerQuery : jsstring) (queryWords : list jsstring)
    (searchableText : jsstring) : Z :=
  let score := if Str.includes searchableText lowerQuery then 1000 else 0 in
  let score := foldl (λ score word, score + wordScore searchableText word)
                     score queryWords in
  if (length searchableText <? 50)%nat then score + 10 else score.

Definition lowerQueryOf (query : jsstring) : jsstring :=
  Str.trim (toLowerCase query).

Definition queryWordsOf (query : jsstring) : list jsstring :=
  filter (λ word, (0 < length word)%nat) (Str.splitSpaces (lowerQueryOf query)).

Definition scoreItem (hasProductData : bool) (query : jsstring)
    (entry : Scored (ItemOf hasProductData)) : Scored (ItemOf hasProductData) :=
  let text := searchableTextOf hasProductData (item entry) in
  mkScored (item entry)
           (Some (scoreText (lowerQueryOf query) (queryWordsOf query) text))
           (Some text).

Definition scoreOf {A} (x : Scored A) : Z := default 0 (searchScore x).

(** [results.filter(item => item.searchScore > 5).sort((a, b) =>
    b.searchScore - a.searchScore)] *)
Definition rank (hasProductData : bool) (query : jsstring)
    (data : Array hasProductData) : Array hasProductData :=
  jsSort (λ a b, 0 <? scoreOf b - scoreOf a)
         (filter (λ entry, 5 < scoreOf entry)
                 (scoreItem hasProductData query <$> data)).
End ranking.

(** *** Arrays by reference

    The arrays of the pipeline live in a heap, one store per kind of item,
    and are named by their index.  Reading an index that was never allocated
    gives the empty array; the pipeline only uses indices it was given or
    has allocated. *)

Record Heap : Type := mkHeap {
  vendorArrays : list (Array false);
  productArrays : list (Array true)
}.

Record ArrayRef : Type := mkRef {
  refHasProductData : bool;
  refIndex : nat
}.

Definition arrays (b : bool) (h : Heap) : list (Array b) :=
  match b with
  | true => productArrays h
  | false => vendorArrays h
  end.

Definition withArrays (b : bool) (h : Heap) : list (Array b) -> Heap :=
  match b with
  | true => λ l, mkHeap (vendorArrays h) l
  | false => λ l, mkHeap l (productArrays h)
  end.

Definition read (b : bool) (h : Heap) (r : nat) : Array b :=
  default [] (arrays b h !! r).

(** Overwrite the array in place: every holder of [r] sees the new content. *)
Definition write (b : bool) (h : Heap) (r : nat) (a : Array b) : Heap :=
  withArrays b h (<[r := a]> (arrays b h)).

(** A new array, referenced by nobody else. *)
Definition alloc (b : bool) (h : Heap) (a : Array b) : Heap * nat :=
  (withArrays b h (arrays b h ++ [a]), length (arrays b h)).

(** The fields of [searchManager] that the pipeline reads and writes. *)
Record SearchManager : Type := mkSearchManager {
  currentCategory : string;
  maxPrice : option float;
  currentSort : string;
  favorites : list jsstring;
  searchResults : ArrayRef;
  filteredResults : ArrayRef
}.

(** The fields of [state] that the pipeline reads and writes.  The search
    uses the keys of [comparisonData] only for their number and for the
    order of the values; they are the product ids as integers. *)
Record PageState : Type := mkPageState {
  vendorList : nat;
  comparisonData : gmap Z ComparisonRecord;
  searchCache : Content.PerformanceCache jsstring ArrayRef;
  heap : Heap;
  searchManager : SearchManager
}.

Section pipeline.
Context (toLowerCase : jsstring -> jsstring).
(** [a.localeCompare(b, 'fa')] *)
Context (localeCompare : jsstring -> jsstring -> Z).

(** [performSmartSearch(query, data, hasProductData)]: the input array
    itself when the query has no words, a new ranked array otherwise. *)
Definition performSmartSearch (query : jsstring) (h : Heap) (data : nat)
    (hasProductData : bool) : Heap * nat :=
  match queryWordsOf toLowerCase query with
  | [] => (h, data)
  | _ :: _ =>
      alloc hasProductData h
            (rank toLowerCase hasProductData query (read hasProductData h data))
  end.

(** [searchManager.isFavorite(name)] *)
Definition isFavorite (sm : SearchManager) (name : jsstring) : bool :=
  existsb (λ fav, bool_decide (fav = name)) (favorites sm).

(** [if (searchManager.maxPrice)] *)
Definition maxPriceSet (sm : SearchManager) : option float :=
  match maxPrice sm with
  | Some m => if Reconcile.truthyNum m then Some m else None
  | None => None
  end.

(** The [filter] calls that a category selects, if any. *)
Definition categoryFilter (sm : SearchManager) (category : string)
  : option (Array true -> Array true) :=
  if String.eqb category "tf-cheaper" then
    Some (filter (λ r, (0 <? priceDiff (item r))%float = true))
  else if String.eqb category "sf-cheaper" then
    Some (filter (λ r, (priceDiff (item r) <? 0)%float = true))
  else if String.eqb category "same-price" then
    Some (filter (λ r, (priceDiff (item r) =? 0)%float = true))
  else if String.eqb category "high-savings" then
    Some (λ results,
            let filtered :=
              filter (λ r, (5000 <? Math.abs (priceDiff (item r)))%float = true)
                     results in
            match maxPriceSet sm with
            | Some m =>
                filter (λ r, (price (baseProduct (item r)) <=? m)%float = true)
                       filtered
            | None => filtered
            end)
  else if String.eqb category "favorites" then
    Some (filter (λ r, isFavorite sm (name (baseProduct (item r))) = true))
  else None.

(** [applyCategoryFilters(results, category, hasProductData)] *)
Definition applyCategoryFilters (sm : SearchManager) (h : Heap) (results : nat)
    (category : string) (hasProductData : bool) : Heap * nat :=
  match hasProductData with
  | false => (h, results)
  | true =>
      match categoryFilter sm category with
      | Some select => alloc true h (select (read true h results))
      | None => (h, results)
      end
  end.

Definition sfNameOf (a : Scored Vendor) : jsstring :=
  orEmpty (sf_name (getVendorMapping (item a))).

(** The comparator that a sort type selects, as the test [compare(a, b) > 0];
    [None] when the array is returned as it is. *)
Definition sortOrder (sortType : string) (hasProductData : bool)
  : option (Scored (ItemOf hasProductData) -> Scored (ItemOf hasProductData) -> bool) :=
  match hasProductData with
  | false =>
      if String.eqb sortType "name-asc" then
        Some (λ a b, 0 <? localeCompare (sfNameOf a) (sfNameOf b))
      else if String.eqb sortType "name-desc" then
        Some (λ a b, 0 <? localeCompare (sfNameOf b) (sfNameOf a))
      else None
  | true =>
      if String.eqb sortType "price-asc" then
        Some (λ a b, 0 <? price (baseProduct (item a))
                          - price (baseProduct (item b)))%float
      else if String.eqb sortType "price-desc" then
        Some (λ a b, 0 <? price (baseProduct (item b))
                          - price (baseProduct (item a)))%float
      else if String.eqb sortType "savings-desc" then
        Some (λ a b, 0 <? Math.abs (priceDiff (item b))
                          - Math.abs (priceDiff (item a)))%float
      else if String.eqb sortType "percent-desc" then
        Some (λ a b, 0 <? percentDiff (item b) - percentDiff (item a))%float
      else if String.eqb sortType "name-asc" then
        Some (λ a b, 0 <? localeCompare (name (baseProduct (item a)))
                                        (name (baseProduct (item b))))
      else if String.eqb sortType "name-desc" then
        Some (λ a b, 0 <? localeCompare (name (baseProduct (item b)))
                                        (name (baseProduct (item a))))
      else None
  end.

(** [applySorting(results, sortType, hasProductData)]: [results.sort(...)]
    sorts the array in place and returns it. *)
Definition applySorting (h : Heap) (results : nat) (sortType : string)
    (hasProductData : bool) : Heap * nat :=
  match sortOrder sortType hasProductData with
  | Some after =>
      (write hasProductData h results
             (jsSort after (read hasProductData h results)),
       results)
  | None => (h, results)
  end.

(** [`${query}-${category}-${hasProductData}`] *)
Definition cacheKeyOf (query : jsstring) (category : string)
    (hasProductData : bool) : jsstring :=
  query ++ js "-" ++ js category ++ js "-"
  ++ (if hasProductData then js "true" else js "false").

(** [Object.keys(state.comparisonData).length > 0] *)
Definition hasProductDataOf (st : PageState) : bool :=
  (0 <? size (comparisonData st))%nat.

(** [Object.values(o)] for an object whose keys are product ids, which are
    array indices: the values in ascending order of the keys. *)
Definition objectValues {A} (o : gmap Z A) : list A :=
  (@merge_sort (Z * A) (λ a b, a.1 <= b.1) (λ a b, decide (a.1 <= b.1))
               (map_to_list o)).*2.

(** The branch of [performAdvancedSearch] taken on a cache miss: the result
    array and the heap after computing it. *)
Definition computeResults (query : jsstring) (st : PageState) : Heap * nat :=
  let sm := searchManager st in
  let hasProductData := hasProductDataOf st in
  let '(h, results) :=
    if hasProductData
    then alloc true (heap st) (unscored <$> objectValues (comparisonData st))
    else (heap st, vendorList st) in
  let '(h, results) :=
    match query with
    | _ :: _ => performSmartSearch query h results hasProductData
    | [] => (h, results)
    end in
  let '(h, results) :=
    applyCategoryFilters sm h results (currentCategory sm) hasProductData in
  let '(h, results) := applySorting h results (currentSort sm) hasProductData in
  if (MAX_SEARCH_RESULTS <? length (read hasProductData h results))%nat
  then alloc hasProductData h
             (take MAX_SEARCH_RESULTS (read hasProductData h results))
  else (h, results).

(** The body of the timer callback of [performAdvancedSearch(query, ...)],
    without the rendering and the bookkeeping of the search history. *)
Definition performAdvancedSearch (query : jsstring) (st : PageState) : PageState :=
  let sm := searchManager st in
  let hasProductData := hasProductDataOf st in
  let cacheKey := cacheKeyOf query (currentCategory sm) hasProductData in
  let '(cached, cache) := Content.get cacheKey (searchCache st) in
  let '(h, results, cache) :=
    match cached with
    | Some results => (heap st, results, cache)
    | None =>
        let '(h, r) := computeResults query st in
        let results := mkRef hasProductData r in
        (h, results, Content.set cacheKey results cache)
    end in
  mkPageState (vendorList st) (comparisonData st) cache h
    (mkSearchManager (currentCategory sm) (maxPrice sm) (currentSort sm)
                     (favorites sm) results results).

(** The user picks another sort order or another maximum price. *)
Definition withSort (sortType : string) (st : PageState) : PageState :=
  let sm := searchManager st in
  mkPageState (vendorList st) (comparisonData st) (searchCache st) (heap st)
    (mkSearchManager (currentCategory sm) (maxPrice sm) sortType
                     (favorites sm) (searchResults sm) (filteredResults sm)).

Definition withCategory (category : string) (st : PageState) : PageState :=
  let sm := searchManager st in
  mkPageState (vendorList st) (comparisonData st) (searchCache st) (heap st)
    (mkSearchManager category (maxPrice sm) (currentSort sm)
                     (favorites sm) (searchResults sm) (filteredResults sm)).

Definition withMaxPrice (m : option float) (st : PageState) : PageState :=
  let sm := searchManager st in
  mkPageState (vendorList st) (comparisonData st) (searchCache st) (heap st)
    (mkSearchManager (currentCategory sm) m (currentSort sm)
                     (favorites sm) (searchResults sm) (filteredResults sm)).

(** The key of a search: it names the query, the category and the kind of
    data, and nothing else. *)
Definition keyOf (query : jsstring) (st : PageState) : jsstring :=
  cacheKeyOf query (currentCategory (searchManager st)) (hasProductDataOf st).


(** The array a reference names. *)
Definition contents (h : Heap) (r : ArrayRef)
  : Array (refHasProductData r) :=
  read (refHasProductData r) h (refIndex r).
End pipeline.

(** A flat vendor record with the given names and codes. *)
Definition flatVendor (sfName tfName sfCode tfCode : string) : Vendor :=
  mkVendor (mkVendorMapping (Some (js sfCode)) (Some (js sfName))
                            (Some (js tfCode)) (Some (js tfName))) None.

(** A page with the given vendor list, no product data and an empty search
    cache, as after [loadVendorList]. *)
Definition vendorPage (vendors : list Vendor) (category sortType : string)
  : PageState :=
  mkPageState 0 ∅ (Content.new 200)
    (mkHeap [unscored <$> vendors; []] [])
    (mkSearchManager category None sortType [] (mkRef false 1) (mkRef false 1)).
End Search.

(** No character of the query occurs in the text. *)
Definition sharesNoCharacter (query text : jsstring) : Prop :=
  forall c, c ∈ query -> c ∉ text.

(** The Persian word for kebab, spelled with the Persian keheh (U+06A9) and
    with the Arabic kaf (U+0643). *)
Definition kababPersian : jsstring := [0x06A9; 0x0628; 0x0627; 0x0628]%N.
Definition kababArabic : jsstring := [0x0643; 0x0628; 0x0627; 0x0628]%N.

(** ** Reconciliation: what a decoration says about its vendor *)

(** The rating found for the link reaches the threshold. *)
Definition ratedHigh (link : Reconcile.Link) : Prop :=
  exists r, Reconcile.extractedRating link = Some r
    /\ (Reconcile.RATING_THRESHOLD <=? r)%float = true.

(** The style of a decoration is backed by the set of paired vendors and by
    the rating of the link it was made for. *)
Definition styleJustified (paired : gset jsstring) (link : Reconcile.Link)
    (d : Reconcile.Decoration) : Prop :=
  match Reconcile.dStyle d with
  | Reconcile.Premium => Reconcile.dVendorCode d ∈ paired /\ ratedHigh link
  | Reconcile.HighRating => (Reconcile.dVendorCode d ∉ paired) /\ ratedHigh link
  | Reconcile.Paired => Reconcile.dVendorCode d ∈ paired
  end.


(** ** Rate limiters: [debounce] and [throttle] (part_000, lines 76-105)

    Each wrapper owns one timer at a time.  A trace lists what happens to
    the wrapper, in order: it is called with some arguments, or the
    callback of its pending timer runs.  A timer never runs before the
    delay it was set with has passed, and a timer that was cleared or has
    run never runs again; [step] returns [None] for an event that cannot
    happen.  The wrapped function takes no time to run. *)

Module RateLimit.
Section RateLimit.
Context {A : Type}.

(** A pending timer: the time from which its callback may run, and the
    arguments that its closure holds. *)
Record Timer : Type := mkTimer {
  due : Z;
  args : A
}.

(** [setTimeout(callback, delay)] at time [now]; a negative delay counts
    as 0. *)
Definition setTimeout (now delay : Z) (a : A) : Timer :=
  mkTimer (now + Z.max 0 delay) a.

Inductive event : Type :=
| Call (now : Z) (a : A)
| Fire (now : Z).

Definition time (e : event) : Z :=
  match e with
  | Call now _ => now
  | Fire now => now
  end.

Definition isFire (e : event) : bool :=
  match e with
  | Fire _ => true
  | Call _ _ => false
  end.

(** *** [debounce(func, wait)] *)

(** The variable [timeout] of the closure, and the calls of [func] made so
    far, each with its time and its arguments. *)
Record Debounced : Type := mkDebounced {
  timeout : option Timer;
  invoked : list (Z * A)
}.

Definition debounced : Debounced := mkDebounced None [].

(** [executedFunction(...args)] clears the pending timer and sets a new one;
    [later] calls [func] with the arguments of the call that set it. *)
Definition debounceStep (wait : Z) (s : Debounced) (e : event)
  : option Debounced :=
  match e with
  | Call now a => Some (mkDebounced (Some (setTimeout now wait a)) (invoked s))
  | Fire now =>
      match timeout s with
      | Some t =>
          if due t <=? now
          then Some (mkDebounced None (invoked s ++ [(now, args t)]))
          else None
      | None => None
      end
  end.

(** *** [throttle(func, limit)] *)

(** The variables [lastFunc] and [lastRan] of the closure, and the calls of
    [func] made so far. *)
Record Throttled : Type := mkThrottled {
  lastFunc : option Timer;
  lastRan : option Z;
  ranAt : list (Z * A)
}.

Definition throttled : Throttled := mkThrottled None None [].

(** [!lastRan]: [undefined] and [0] are falsy. *)
Definition neverRan (lastRan : option Z) : bool :=
  match lastRan with
  | Some t => t =? 0
  | None => true
  end.

Definition throttleStep (limit : Z) (s : Throttled) (e : event)
  : option Throttled :=
  match e with
  | Call now a =>
      if neverRan (lastRan s) then
        Some (mkThrottled (lastFunc s) (Some now) (ranAt s ++ [(now, a)]))
      else
        Some (mkThrottled
                (Some (setTimeout now (limit - (now - default 0 (lastRan s))) a))
                (lastRan s) (ranAt s))
  | Fire now =>
      match lastFunc s with
      | Some t =>
          if due t <=? now then
            match lastRan s with
            | Some ran =>
                if now - ran >=? limit
                then Some (mkThrottled None (Some now)
                                       (ranAt s ++ [(now, args t)]))
                else Some (mkThrottled None (lastRan s) (ranAt s))
            | None => Some (mkThrottled None (lastRan s) (ranAt s))
            end
          else None
      | None => None
      end
  end.

(** A trace from a state; [None] when one of its events cannot happen. *)
Fixpoint run {S} (step : S -> event -> option S) (s : S) (events : list event)
  : option S :=
  match events with
  | [] => Some s
  | e :: events' =>
      match step s e with
      | Some s' => run step s' events'
      | None => None
      end
  end.

(** The number of timer callbacks that run in a trace. *)
Definition fires (events : list event) : nat :=
  length (filter (λ e, isFire e = true) events).

(** Consecutive calls of the function are at least [limit] apart. *)
Fixpoint spaced (limit : Z) (calls : list (Z * A)) : Prop :=
  match calls with
  | c1 :: ((c2 :: _) as rest) => c1.1 + limit <= c2.1 /\ spaced limit rest
  | _ => True
  end.
End RateLimit.
Global Arguments Timer : clear implicits.
Global Arguments event : clear implicits.
Global Arguments Debounced : clear implicits.
Global Arguments Throttled : clear implicits.
End RateLimit.

(** ** [DOMCache] (part_000, lines 107-126)

    The result of a selector query is a static list of nodes.  The document
    is an argument of [get]: it stands for the page at the time of the
    call. *)

Module DOMCache.
Section DOMCache.
Context {Selector NodeList Document : Type} `{EqDecision Selector}.
(** [document.querySelectorAll(selector)] *)
Context (querySelectorAll : Document -> Selector -> NodeList).

(** [get(selector)]: the list stored under the selector; the page is
    queried, and the result stored, only when there is none. *)
Definition get (selector : Selector) (document : Document)
    (cache : JsMap.t Selector NodeList) : NodeList * JsMap.t Selector NodeList :=
  match JsMap.get selector cache with
  | Some nodes => (nodes, cache)
  | None =>
      let nodes := querySelectorAll document selector in
      (nodes, JsMap.set selector nodes cache)
  end.

(** [clear()] *)
Definition clear (cache : JsMap.t Selector NodeList) : JsMap.t Selector NodeList :=
  [].

(** [invalidate(selector)] *)
Definition invalidate (selector : Selector) (cache : JsMap.t Selector NodeList)
  : JsMap.t Selector NodeList :=
  JsMap.delete selector cache.

Inductive op : Type :=
| OpGet (selector : Selector) (document : Document)
| OpClear
| OpInvalidate (selector : Selector).

Definition step (cache : JsMap.t Selector NodeList) (o : op)
  : JsMap.t Selector NodeList :=
  match o with
  | OpGet selector document => (get selector document cache).2
  | OpClear => clear cache
  | OpInvalidate selector => invalidate selector cache
  end.

Definition run (cache : JsMap.t Selector NodeList) (ops : list op)
  : JsMap.t Selector NodeList :=
  foldl step cache ops.

(** The call drops the list stored under [selector]. *)
Definition drops (selector : Selector) (o : op) : bool :=
  match o with
  | OpGet _ _ => false
  | OpClear => true
  | OpInvalidate s => bool_decide (s = selector)
  end.
End DOMCache.
Global Arguments op : clear implicits.
End DOMCache.

(** ** [SearchManager]: history, favorites, virtual scrolling
    (part_000, lines 247-357) *)

(** [l.findIndex(p)], with [None] for -1. *)
Fixpoint findIndex {A} (p : A -> bool) (l : list A) : option nat :=
  match l with
  | [] => None
  | x :: l' => if p x then Some O else S <$> findIndex p l'
  end.

(** [l.pop()]: the array without its last element. *)
Definition pop {A} (l : list A) : list A := take (length l - 1) l.

Module Manager.

(** An entry of the history: a plain string (as older versions stored it) or
    the object that [addToHistory] builds. *)
Inductive HistoryItem : Type :=
| HString (query : jsstring)
| HObject (query : jsstring) (timestamp : Z) (resultCount : Z).

(** [typeof item === 'string' ? item : item.query] *)
Definition queryOf (item : HistoryItem) : jsstring :=
  match item with
  | HString query => query
  | HObject query _ _ => query
  end.

(** An entry of the favorites: a plain string or the object that
    [toggleFavorite] builds. *)
Inductive Favorite : Type :=
| FString (name : jsstring)
| FObject (name : jsstring) (timestamp : Z) (source : option string).

(** [typeof fav === 'string' ? fav : fav.name] *)
Definition nameOf (fav : Favorite) : jsstring :=
  match fav with
  | FString name => name
  | FObject name _ _ => name
  end.

Definition MAX_VISIBLE_RESULTS : nat := 50.

Section history.
Context (toLowerCase : jsstring -> jsstring).

(** What two entries must differ in to be different searches. *)
Definition historyKey (item : HistoryItem) : jsstring :=
  toLowerCase (queryOf item).

(** [addToHistory(query)] on [this.history], where [now] is [Date.now()]
    and [resultCount] is [this.searchResults.length]. *)
Definition addToHistory (query : jsstring) (now resultCount : Z)
    (history : list HistoryItem) : list HistoryItem :=
  if (length query <? 2)%nat then history
  else
    let normalizedQuery := toLowerCase (Str.trim query) in
    let idx :=
      findIndex (λ item, bool_decide (historyKey item = normalizedQuery))
                history in
    let searchItem := HObject (Str.trim query) now resultCount in
    let history :=
      match idx with
      | Some i => delete i history
      | None => history
      end in
    let history := searchItem :: history in
    if (20 <? length history)%nat then pop history else history.
End history.

(** [toggleFavorite(name)] on [this.favorites], where [now] is [Date.now()]
    and [source] is [state.currentPageType]. *)
Definition toggleFavorite (name : jsstring) (now : Z) (source : option string)
    (favorites : list Favorite) : list Favorite :=
  let idx := findIndex (λ fav, bool_decide (nameOf fav = name)) favorites in
  let favorites :=
    match idx with
    | Some i => delete i favorites
    | None => favorites ++ [FObject name now source]
    end in
  if (50 <? length favorites)%nat then pop favorites else favorites.

(** [isFavorite(name)] *)
Definition isFavorite (name : jsstring) (favorites : list Favorite) : bool :=
  existsb (λ fav, bool_decide (nameOf fav = name)) favorites.

(** The state of the virtual scrolling. *)
Record Scroll : Type := mkScroll {
  visibleResults : nat;
  isVirtualScrollEnabled : bool
}.

(** [loadMoreResults()], where [totalResults] is
    [this.filteredResults.length]. *)
Definition loadMoreResults (totalResults : nat) (s : Scroll) : bool * Scroll :=
  if negb (isVirtualScrollEnabled s) then (false, s)
  else if (totalResults <=? visibleResults s)%nat then (false, s)
  else (true, mkScroll ((visibleResults s + 25) `min` totalResults)
                       (isVirtualScrollEnabled s)).

(** [resetVirtualScroll()] *)
Definition resetVirtualScroll (s : Scroll) : Scroll :=
  mkScroll MAX_VISIBLE_RESULTS (isVirtualScrollEnabled s).

(** The items that [renderEnhancedResults(results, list)] puts on the page. *)
Definition rendered {A} (results : list A) (s : Scroll) : list A :=
  if isVirtualScrollEnabled s then take (visibleResults s) results else results.

(** The button for more results is on the page. *)
Definition hasLoadMore {A} (results : list A) (s : Scroll) : bool :=
  isVirtualScrollEnabled s && (length (rendered results s) <? length results)%nat.

(** A click on the button, when it is on the page: more results are loaded
    and, if that succeeds, the list is rendered again.  The list on the page
    is [searchManager.filteredResults], which is what [performAdvancedSearch]
    renders. *)
Definition clickLoadMore {A} (results : list A) (s : Scroll) : Scroll :=
  if hasLoadMore results s then (loadMoreResults (length results) s).2 else s.
End Manager.

(** ** Persian digits (part_000, lines 448-469) *)

Module Digits.
Local Open Scope N_scope.

(** The entries of [PERSIAN_TO_WESTERN_MAP], in the order of
    [Object.entries]: the digits U+06F0 to U+06F9 and the ASCII digits. *)
Definition PERSIAN_TO_WESTERN_MAP : list (N * N) :=
  [(0x06F0, 48); (0x06F1, 49); (0x06F2, 50); (0x06F3, 51); (0x06F4, 52);
   (0x06F5, 53); (0x06F6, 54); (0x06F7, 55); (0x06F8, 56); (0x06F9, 57)].

(** [result.replace(new RegExp(persian, 'g'), western)] for a pattern and a
    replacement of one code unit each. *)
Definition replaceAll (persian western : N) (result : jsstring) : jsstring :=
  (λ c, if c =? persian then western else c) <$> result.

(** The loop over the entries of the map. *)
Definition replaceDigits (str : jsstring) : jsstring :=
  foldl (λ result entry, replaceAll entry.1 entry.2 result)
        str PERSIAN_TO_WESTERN_MAP.

(** [persianToWestern(str)] with the memo table [persianToWesternCache]. *)
Definition persianToWestern (str : jsstring) (cache : JsMap.t jsstring jsstring)
  : jsstring * JsMap.t jsstring jsstring :=
  match str with
  | [] => (str, cache)
  | _ :: _ =>
      match JsMap.get str cache with
      | Some result => (result, cache)
      | None =>
          let result := replaceDigits str in
          (result, JsMap.set str result cache)
      end
  end.

(** The memo table after calls for the given strings. *)
Definition afterCalls (strs : list jsstring) : JsMap.t jsstring jsstring :=
  foldl (λ cache str, (persianToWestern str cache).2) [] strs.

(** A Persian digit as the ASCII digit of the same value; any other code
    unit as it is. *)
Definition westernDigit (c : N) : N :=
  if (0x06F0 <=? c) && (c <=? 0x06F9) then c - 0x06F0 + 48 else c.
End Digits.

(** ** Vendor codes in addresses (part_000, lines 425-445 and 709-715) *)

Module Url.
Local Open Scope N_scope.

Inductive Platform : Type := Snappfood | Tapsifood.

(** [[a-zA-Z0-9]] *)
Definition isAlnum (c : N) : bool :=
  ((48 <=? c) && (c <=? 57)) || ((65 <=? c) && (c <=? 90))
  || ((97 <=? c) && (c <=? 122)).

(** The longest prefix that [[a-zA-Z0-9]*] matches. *)
Fixpoint takeAlnum (s : jsstring) : jsstring :=
  match s with
  | c :: s' => if isAlnum c then c :: takeAlnum s' else []
  | [] => []
  end.

(** The group of a match of [lit([a-zA-Z0-9]+)] at the start of [s], or of
    [lit([a-zA-Z0-9]+)\/?$] when [atEnd] is set: the literal, then the
    longest run of letters and digits, which must not be empty; with
    [atEnd], nothing but an optional slash may follow. *)
Definition matchHere (lit : jsstring) (atEnd : bool) (s : jsstring)
  : option jsstring :=
  if Str.startsWith s lit then
    let code := takeAlnum (drop (length lit) s) in
    let rest := drop (length lit + length code) s in
    if bool_decide (code = []) then None
    else if atEnd && negb (bool_decide (rest = [] \/ rest = js "/")) then None
    else Some code
  else None.

(** [url.match(pattern)[1]] or [None] without a match: the leftmost match. *)
Fixpoint matchGroup (lit : jsstring) (atEnd : bool) (url : jsstring)
  : option jsstring :=
  match matchHere lit atEnd url with
  | Some code => Some code
  | None =>
      match url with
      | [] => None
      | _ :: url' => matchGroup lit atEnd url'
      end
  end.

(** [extractVendorCodeFromUrl(url, platform)] for the two platforms that the
    callers pass. *)
Definition extractVendorCodeFromUrl (url : jsstring) (platform : Platform)
  : option jsstring :=
  match platform with
  | Snappfood =>
      match matchGroup (js "-r-") false url with
      | Some code => Some code
      | None => matchGroup (js "/restaurant/menu/") true url
      end
  | Tapsifood => matchGroup (js "tapsi.food/vendor/") false url
  end.

(** The address that [openCounterpartVendor] opens for a vendor code of the
    given platform. *)
Definition vendorUrl (platform : Platform) (code : jsstring) : jsstring :=
  match platform with
  | Snappfood => js "https://snappfood.ir/restaurant/menu/" ++ code
  | Tapsifood => js "https://tapsi.food/vendor/" ++ code
  end.

(** The text that comes before the code in an address of the platform. *)
Definition markers (platform : Platform) : list jsstring :=
  match platform with
  | Snappfood => [js "-r-"; js "/restaurant/menu/"]
  | Tapsifood => [js "tapsi.food/vendor/"]
  end.
End Url.

(** ** Rating extraction and its cache (part_000, lines 471-575) *)

Module Rating.

(** What [extractRatingFromElement] reads of an element: the two texts that
    give the cache key, whether it carries the class [result-item], and the
    rating that the four strategies find in it ([None] when they find
    none). *)
Record Element : Type := mkElement {
  outerHTML : option jsstring;
  textContent : option jsstring;
  isResultItem : bool;
  foundRating : option float
}.

(** [state.ratingCache] and [state.performanceMetrics.ratingsExtracted]; a
    cached value is a number or [null]. *)
Record State : Type := mkState {
  ratingCache : Content.PerformanceCache jsstring (option float);
  ratingsExtracted : Z
}.

(** [element.outerHTML?.substring(0, 100) ||
    element.textContent?.substring(0, 50)], when it is truthy. *)
Definition cacheKeyOf (element : Element) : option jsstring :=
  if truthyStr (take 100 <$> outerHTML element)
  then take 100 <$> outerHTML element
  else if truthyStr (take 50 <$> textContent element)
  then take 50 <$> textContent element
  else None.

(** [if (cacheKey) state.ratingCache.set(cacheKey, value)] *)
Definition store (cacheKey : option jsstring) (value : option float)
    (cache : Content.PerformanceCache jsstring (option float))
  : Content.PerformanceCache jsstring (option float) :=
  match cacheKey with
  | Some key => Content.set key value cache
  | None => cache
  end.

(** [extractRatingFromElement(element, context)]; [searchContext] says that
    the context is ['search']. *)
Definition extractRatingFromElement (element : option Element)
    (searchContext : bool) (st : State) : option float * State :=
  match element with
  | None => (None, st)
  | Some element =>
      if searchContext || isResultItem element then (None, st)
      else
        let cacheKey := cacheKeyOf element in
        let '(cached, cache) :=
          match cacheKey with
          | Some key => Content.get key (ratingCache st)
          | None => (None, ratingCache st)
          end in
        match cached with
        | Some (Some rating) => (Some rating, mkState cache (ratingsExtracted st))
        | _ =>
            match foundRating element with
            | Some rating =>
                (Some rating,
                 mkState (store cacheKey (Some rating) cache)
                         (ratingsExtracted st + 1))
            | None =>
                (None, mkState (store cacheKey None cache) (ratingsExtracted st))
            end
        end
  end.
End Rating.

(** ** Vendor data with cache and retries (part_001, lines 530-569)

    The answers of the mapping service to the calls of one [getVendorData]
    are given by attempt number, and so are the times at which they
    arrive. *)

Module VendorData.
Section VendorData.
Context {D : Type}.
(** [if (cached)]: whether a payload is truthy. *)
Context (truthyData : D -> bool).

(** The result object of [fetchFromAPI], which is also what
    [getVendorData] returns. *)
Inductive ApiResult : Type :=
| Success (data : D)
| Failure (error : jsstring) (isTimeout isConnectionError : bool).

Record Metrics : Type := mkMetrics {
  apiCalls : Z;
  cacheHits : Z;
  cacheMisses : Z
}.

Record State : Type := mkState {
  vendorDataCache : Background.PerformanceCache jsstring D;
  performanceMetrics : Metrics
}.

Definition RETRY_ATTEMPTS : nat := 2.

(** [`${platform}-${vendorCode}`] *)
Definition cacheKeyOf (platform vendorCode : jsstring) : jsstring :=
  platform ++ js "-" ++ vendorCode.

(** The loop [for (attempt; attempt <= RETRY_ATTEMPTS; attempt++)] with
    [fuel] attempts left. *)
Fixpoint attempts (answers : nat -> ApiResult) (clock : nat -> Z)
    (cacheKey : jsstring) (fuel attempt : nat) (lastError : option ApiResult)
    (st : State) : option ApiResult * State :=
  match fuel with
  | O => (lastError, st)
  | S fuel' =>
      let result := answers attempt in
      let metrics := performanceMetrics st in
      let st :=
        mkState (vendorDataCache st)
                (mkMetrics (apiCalls metrics + 1) (cacheHits metrics)
                           (cacheMisses metrics)) in
      match result with
      | Success data =>
          (Some result,
           mkState (Background.set cacheKey data (clock attempt)
                                   (vendorDataCache st))
                   (performanceMetrics st))
      | Failure _ isTimeout isConnectionError =>
          if negb isTimeout && negb isConnectionError then (Some result, st)
          else attempts answers clock cacheKey fuel' (S attempt) (Some result) st
      end
  end.

(** [getVendorData(platform, vendorCode)] called at time [now]. *)
Definition getVendorData (platform vendorCode : jsstring) (now : Z)
    (answers : nat -> ApiResult) (clock : nat -> Z) (st : State)
  : option ApiResult * State :=
  let cacheKey := cacheKeyOf platform vendorCode in
  let '(cached, cache) := Background.get cacheKey now (vendorDataCache st) in
  let metrics := performanceMetrics st in
  let fetch :=
    attempts answers clock cacheKey RETRY_ATTEMPTS 1 None
             (mkState cache
                      (mkMetrics (apiCalls metrics) (cacheHits metrics)
                                 (cacheMisses metrics + 1))) in
  match cached with
  | Some data =>
      if truthyData data then
        (Some (Success data),
         mkState cache
                 (mkMetrics (apiCalls metrics) (cacheHits metrics + 1)
                            (cacheMisses metrics)))
      else fetch
  | None => fetch
  end.

(** The result is a failure. *)
Definition failed (result : option ApiResult) : bool :=
  match result with
  | Some (Failure _ _ _) => true
  | _ => false
  end.

(** The failure is one that the loop tries again after. *)
Definition retried (result : ApiResult) : bool :=
  match result with
  | Failure _ isTimeout isConnectionError => isTimeout || isConnectionError
  | Success _ => false
  end.

(** The time at which the answer that a call returns arrived: the clock of
    the first attempt when that attempt succeeded, of the second attempt
    otherwise. *)
Definition answeredAt (answers : nat -> ApiResult) (clock : nat -> Z) : Z :=
  match answers 1%nat with
  | Success _ => clock 1%nat
  | Failure _ _ _ => clock 2%nat
  end.

(** [removesEntry key o c]: the call [o], made on the cache in state [c],
    takes the entry under [key] out of the store or replaces it.  That is a
    [clear()]; a [set] of [key]; a [set] of a new key on a full store whose
    first key is [key]; and, once the entry has expired, a [get] of [key] or
    a sweep. *)
Definition removesEntry (key : jsstring) (o : Background.op jsstring D)
    (c : Background.PerformanceCache jsstring D) : bool :=
  let expiredAt (now : Z) :=
    match JsMap.get key (Background.cache c) with
    | Some item => Background.expiry item <=? now
    | None => false
    end in
  match o with
  | Background.OpGet k now => bool_decide (k = key) && expiredAt now
  | Background.OpSet k _ _ =>
      bool_decide (k = key)
      || ((JsMap.size (Background.cache c) >=? Background.maxSize c)
          && negb (JsMap.has k (Background.cache c))
          && bool_decide (JsMap.firstKey (Background.cache c) = Some key))
  | Background.OpClear => true
  | Background.OpCleanup now => expiredAt now
  end.

(** No call of the trace, started in [c], removes or replaces the entry
    under [key]. *)
Fixpoint entryKept (key : jsstring) (ops : list (Background.op jsstring D))
    (c : Background.PerformanceCache jsstring D) : bool :=
  match ops with
  | [] => true
  | o :: ops' =>
      negb (removesEntry key o c) && entryKept key ops' (Background.step o c)
  end.

(** A [get] or a [set] of the given key. *)
Definition touches (key : jsstring) (o : Background.op jsstring D) : Prop :=
  match o with
  | Background.OpGet k _ | Background.OpSet k _ _ => k = key
  | _ => False
  end.
End VendorData.
Global Arguments ApiResult : clear implicits.
Global Arguments State : clear implicits.
End VendorData.

(** ** Product payloads (part_001, lines 671-787) *)

Module Fetch.

(** A field of a payload that holds a number: missing, [null], or the
    number. *)
Inductive jsnumber : Type :=
| NoNumber
| NullNumber
| Number (x : float).

(** A field of a payload that should hold a string: missing, [null], the
    string, or a value of another type (a number, a boolean, an array or an
    object), which has no method [trim]. *)
Inductive jstext : Type :=
| NoText
| NullText
| Text (s : jsstring)
| OtherText.

(** [v || 0] *)
Definition orZero (v : jsnumber) : float :=
  match v with
  | Number x => if Reconcile.truthyNum x then x else 0%float
  | _ => 0%float
  end.

(** [typeof v !== 'undefined'] *)
Definition definedNumber (v : jsnumber) : bool :=
  match v with NoNumber => false | _ => true end.

Definition definedText (v : jstext) : bool :=
  match v with NoText => false | _ => true end.

(** A product of a SnappFood menu section.  The id is an integer when it is
    there, and the price and the discounts are numbers or [null] when they
    are there; the title is any value. *)
Record SfProduct : Type := mkSfProduct {
  sfId : option Z;
  sfTitle : jstext;
  sfPrice : jsnumber;
  sfDiscount : jsnumber;
  sfDiscountRatio : jsnumber
}.

(** A menu section; [None] when [products] is not an array. *)
Record SfMenu : Type := mkSfMenu {
  sfProducts : option (list (option SfProduct))
}.

(** The object stored under [p.id]; [None] when [p.title.trim()] throws,
    which it does for every title that is not a string. *)
Definition sfProductOf (i : Z) (p : SfProduct) : option Product :=
  match sfTitle p with
  | Text title =>
      let originalPrice := orZero (sfPrice p) in
      let discount := orZero (sfDiscount p) in
      Some (mkProduct i (Str.trim title) (originalPrice - discount)%float
                      originalPrice (Some discount) (orZero (sfDiscountRatio p)))
  | _ => None
  end.

(** The test [p && p.id && typeof p.title !== 'undefined' &&
    typeof p.price !== 'undefined']: the id of a product that passes. *)
Definition sfAccepted (p : option SfProduct) : option (Z * SfProduct) :=
  match p with
  | Some p =>
      match sfId p with
      | Some i =>
          if truthyZ i && definedText (sfTitle p) && definedNumber (sfPrice p)
          then Some (i, p) else None
      | None => None
      end
  | None => None
  end.

(** The body of the inner loop; [None] when it throws. *)
Definition addSfProduct (products : option (gmap Z Product))
    (p : option SfProduct) : option (gmap Z Product) :=
  match products with
  | Some products =>
      match sfAccepted p with
      | Some (i, p) =>
          match sfProductOf i p with
          | Some product => Some (<[i := product]> products)
          | None => None
          end
      | None => Some products
      end
  | None => None
  end.

(** The products that the loops visit, in order. *)
Definition sfVisited (menus : list (option SfMenu)) : list (option SfProduct) :=
  concat (omap (λ menuSection, menuSection ≫= sfProducts) menus).

(** [fetchSnappfoodData(vendorCode)], given what the request returned:
    [None] for a failed request or a payload without the array
    [data.menus], the menu sections otherwise.  The result is [None] for
    the [null] that the function returns after any error. *)
Definition fetchSnappfoodData (response : option (list (option SfMenu)))
  : option (gmap Z Product) :=
  match response with
  | Some menus => foldl addSfProduct (Some ∅) (sfVisited menus)
  | None => None
  end.

(** A variation of a TapsiFood product. *)
Record TfVariation : Type := mkTfVariation {
  tfPrice : jsnumber;
  tfPriceAfterDiscount : jsnumber;
  tfDiscountRatio : jsnumber
}.

(** A product of a TapsiFood category.  A product with variations is taken
    to carry a numeric [productId]. *)
Record TfProduct : Type := mkTfProduct {
  tfProductId : Z;
  tfProductName : jstext;
  tfProductVariations : option (list (option TfVariation))
}.

(** A category; [None] when [products] is missing or not an array. *)
Record TfCategory : Type := mkTfCategory {
  tfProducts : option (list (option TfProduct))
}.

(** [v || other] *)
Definition orElse (v : jsnumber) (other : float) : float :=
  match v with
  | Number x => if Reconcile.truthyNum x then x else other
  | _ => other
  end.

(** The object stored under [p.productId]; [None] when reading
    [variation.price] or calling [p.productName.trim()] throws. *)
Definition tfProductOf (p : TfProduct) (variation : option TfVariation)
  : option Product :=
  match variation, tfProductName p with
  | Some variation, Text productName =>
      let originalPrice := orZero (tfPrice variation) in
      let finalPrice := orElse (tfPriceAfterDiscount variation) originalPrice in
      Some (mkProduct (tfProductId p) (Str.trim productName) finalPrice
                      originalPrice None (orZero (tfDiscountRatio variation)))
  | _, _ => None
  end.

(** The body of the inner loop; [None] when it throws. *)
Definition addTfProduct (products : option (gmap Z Product))
    (p : option TfProduct) : option (gmap Z Product) :=
  match products with
  | Some products =>
      match p with
      | Some p =>
          match tfProductVariations p with
          | Some (variation :: _) =>
              match tfProductOf p variation with
              | Some product => Some (<[tfProductId p := product]> products)
              | None => None
              end
          | _ => Some products
          end
      | None => Some products
      end
  | None => None
  end.

(** The body of the outer loop: reading [category.products] of a category
    that is [null] throws. *)
Definition addTfCategory (products : option (gmap Z Product))
    (category : option TfCategory) : option (gmap Z Product) :=
  match category with
  | Some category =>
      match tfProducts category with
      | Some ps => foldl addTfProduct products ps
      | None => products
      end
  | None => None
  end.

(** [fetchTapsifoodData(vendorCode)], given what the request returned. *)
Definition fetchTapsifoodData (response : option (list (option TfCategory)))
  : option (gmap Z Product) :=
  match response with
  | Some categories => foldl addTfCategory (Some ∅) categories
  | None => None
  end.

(** The products that the loops of [fetchTapsifoodData] visit, in order. *)
Definition tfVisited (categories : list (option TfCategory))
  : list (option TfProduct) :=
  concat (omap (λ category, category ≫= tfProducts) categories).

(** What the object stored for a TapsiFood product says about the payload. *)
Definition tfBuiltFrom (q : TfProduct) (product : Product) : Prop :=
  exists variation rest productName,
    tfProductVariations q = Some (Some variation :: rest)
    /\ tfProductName q = Text productName
    /\ id product = tfProductId q
    /\ name product = Str.trim productName
    /\ originalPrice product = orZero (tfPrice variation)
    /\ price product
       = orElse (tfPriceAfterDiscount variation) (originalPrice product)
    /\ discount product = None.

(** A product that makes [fetchSnappfoodData] fail: it passes the test of
    the loop and its title is not a string, that is [null] or a value of
    another type. *)
Definition sfTitleNotString (p : option SfProduct) : Prop :=
  exists i q,
    sfAccepted p = Some (i, q)
    /\ (sfTitle q = NullText \/ sfTitle q = OtherText).
End Fetch.

(** ** The search widget over time *)

(** What happens to the widget: a search runs, or the user picks a sort
    order, a category or a maximum price. *)
Inductive SearchEvent : Type :=
| RunSearch (query : jsstring)
| ChooseSort (sortType : string)
| ChooseCategory (category : string)
| ChooseMaxPrice (m : option float).

Definition searchStep (toLowerCase : jsstring -> jsstring)
    (localeCompare : jsstring -> jsstring -> Z) (st : Search.PageState)
    (e : SearchEvent) : Search.PageState :=
  match e with
  | RunSearch query => Search.performAdvancedSearch toLowerCase localeCompare query st
  | ChooseSort sortType => Search.withSort sortType st
  | ChooseCategory category => Search.withCategory category st
  | ChooseMaxPrice m => Search.withMaxPrice m st
  end.

(** [h'] has every array of [h], with as many elements. *)
Definition sameLengths (h h' : Search.Heap) : Prop :=
  forall b r, (r < length (Search.arrays b h))%nat ->
    (r < length (Search.arrays b h'))%nat
    /\ length (Search.read b h' r) = length (Search.read b h r).

(** A step of the pipeline: the arrays that exist keep their length, and
    the result is an array of the heap. *)
Definition stepOk (b : bool) (h : Search.Heap) (r : Search.Heap * nat) : Prop :=
  sameLengths h r.1 /\ (r.2 < length (Search.arrays b r.1))%nat.

(** The reference names an array of the heap, of at most
    [MAX_SEARCH_RESULTS] elements. *)
Definition withinLimit (h : Search.Heap) (ref : Search.ArrayRef) : Prop :=
  (Search.refIndex ref
   < length (Search.arrays (Search.refHasProductData ref) h))%nat
  /\ (length (Search.contents h ref) <= Search.MAX_SEARCH_RESULTS)%nat.

(** The vendor list is an array of the heap, and so is every cached result,
    which has at most [MAX_SEARCH_RESULTS] elements. *)
Definition cacheWithinLimit (st : Search.PageState) : Prop :=
  (Search.vendorList st < length (Search.vendorArrays (Search.heap st)))%nat
  /\ forall key ref,
       JsMap.get key (Content.cache (Search.searchCache st)) = Some ref ->
       withinLimit (Search.heap st) ref.

(** * Properties *)

(** Closes a decidable closed goal by evaluating its decision procedure. *)
Ltac by_evaluation :=
  match goal with
  | |- ?P => apply (@bool_decide_unpack P _); vm_compute; exact I
  end.

(** ** The JavaScript [Map] model *)

Section JsMapFacts.
Context {K V : Type} `{EqDecision K}.
Implicit Types (k : K) (v : V) (m : JsMap.t K V).
Import JsMap.

(** *** Lookup after each operation *)

Lemma get_None_not_in k m : get k m = None <-> k ∉ keys m.
Proof.
  induction m as [|[k' v] m IH]; simpl.
  - split; [intros _ | done]. apply not_elem_of_nil.
  - destruct (decide (k = k')) as [->|Hne].
    + split; [done | intros H; exfalso; apply H; left].
    + rewrite IH. rewrite not_elem_of_cons. tauto.
Qed.

Lemma get_Some_in k v m : get k m = Some v -> k ∈ keys m.
Proof.
  intros H. destruct (decide (k ∈ keys m)) as [|Hn]; [done|].
  apply get_None_not_in in Hn. congruence.
Qed.

Lemma has_true k m : has k m = true <-> k ∈ keys m.
Proof.
  unfold has. destruct (get k m) eqn:E.
  - split; [intros _; eapply get_Some_in, E | done].
  - apply get_None_not_in in E. split; [done | tauto].
Qed.

Lemma has_false k m : has k m = false <-> k ∉ keys m.
Proof.
  rewrite <- has_true. destruct (has k m); split; done.
Qed.

Lemma get_delete_eq k m : get k (delete k m) = None.
Proof.
  induction m as [|[k' v] m IH]; simpl; [done|].
  destruct (decide (k = k')) as [->|Hne]; [done|].
  simpl. by rewrite decide_False.
Qed.

Lemma get_delete_ne k k' m : k ≠ k' -> get k (delete k' m) = get k m.
Proof.
  intros Hne. induction m as [|[k2 v] m IH]; simpl; [done|].
  destruct (decide (k' = k2)) as [->|Hne2].
  - by rewrite decide_False.
  - simpl. by rewrite IH.
Qed.

Lemma get_set_eq k v m : get k (set k v m) = Some v.
Proof.
  induction m as [|[k' v'] m IH]; simpl.
  - by rewrite decide_True.
  - destruct (decide (k = k')) as [->|Hne]; simpl.
    + by rewrite decide_True.
    + by rewrite decide_False.
Qed.

Lemma get_set_ne k k' v m : k ≠ k' -> get k (set k' v m) = get k m.
Proof.
  intros Hne. induction m as [|[k2 v2] m IH]; simpl.
  - by rewrite decide_False.
  - destruct (decide (k' = k2)) as [->|Hne2]; simpl.
    + by rewrite !decide_False.
    + by rewrite IH.
Qed.

(** *** Order after each operation *)

Lemma delete_not_in k m : k ∉ keys m -> delete k m = m.
Proof.
  induction m as [|[k' v] m IH]; simpl; [done|].
  rewrite not_elem_of_cons. intros [Hne Hn].
  rewrite decide_False by done. by rewrite IH.
Qed.

Lemma set_not_in k v m : k ∉ keys m -> set k v m = m ++ [(k, v)].
Proof.
  induction m as [|[k' v'] m IH]; simpl; [done|].
  rewrite not_elem_of_cons. intros [Hne Hn].
  rewrite decide_False by done. by rewrite IH.
Qed.

Lemma keys_set_in k v m : k ∈ keys m -> keys (set k v m) = keys m.
Proof.
  induction m as [|[k' v'] m IH]; simpl.
  - intros H. by apply elem_of_nil in H.
  - destruct (decide (k = k')) as [->|Hne]; [done|].
    intros H. apply elem_of_cons in H as [?|H]; [done|].
    unfold keys in *. simpl. f_equal. by apply IH.
Qed.

Lemma keys_delete k m : keys (delete k m) = filter (λ k', k' ≠ k) (keys m).
Proof.
  induction m as [|[k' v] m IH]; simpl; [done|].
  destruct (decide (k = k')) as [->|Hne].
  - rewrite filter_cons_False by (intros H; by apply H). apply IH.
  - rewrite filter_cons_True by done. simpl. f_equal. apply IH.
Qed.

Lemma NoDup_delete k m : NoDup (keys m) -> NoDup (keys (delete k m)).
Proof. rewrite keys_delete. apply NoDup_filter. Qed.

Lemma NoDup_set k v m : NoDup (keys m) -> NoDup (keys (set k v m)).
Proof.
  intros Hnd. destruct (decide (k ∈ keys m)) as [Hin|Hn].
  - by rewrite keys_set_in.
  - rewrite set_not_in by done. unfold keys. rewrite fmap_app. simpl.
    apply NoDup_app. split_and!; [done | | apply NoDup_singleton].
    intros x Hx Hx'. apply list_elem_of_singleton in Hx'. by subst.
Qed.
End JsMapFacts.

Section JsMapMoreFacts.
Context {K V : Type} `{EqDecision K}.
Implicit Types (k : K) (v : V) (m : JsMap.t K V).
Import JsMap.

Lemma get_delete_Some k k' v m : get k (delete k' m) = Some v -> get k m = Some v.
Proof.
  destruct (decide (k = k')) as [->|Hne].
  - by rewrite get_delete_eq.
  - by rewrite get_delete_ne.
Qed.

Lemma get_deleteFirst_Some k v m :
  get k (deleteFirst m) = Some v -> get k m = Some v.
Proof.
  unfold deleteFirst. destruct (firstKey m); [apply get_delete_Some | done].
Qed.

Lemma get_deleteFirst_ne k m :
  firstKey m ≠ Some k -> get k (deleteFirst m) = get k m.
Proof.
  unfold deleteFirst. destruct (firstKey m) as [fk|]; [|done].
  intros Hne. apply get_delete_ne. congruence.
Qed.

Lemma get_foldl_delete_Some k v (es : list (K * V)) m :
  get k (foldl (λ m e, delete e.1 m) m es) = Some v -> get k m = Some v.
Proof.
  revert m. induction es as [|e es IH]; simpl; [done|].
  intros m Hm. apply IH in Hm. by apply get_delete_Some in Hm.
Qed.

Lemma get_move_to_end_ne k k' v m :
  k ≠ k' -> get k (set k' v (delete k' m)) = get k m.
Proof. intros Hne. rewrite get_set_ne by done. by apply get_delete_ne. Qed.

Lemma move_to_end_keys k v m :
  keys (set k v (delete k m)) = filter (λ k', k' ≠ k) (keys m) ++ [k].
Proof.
  rewrite set_not_in.
  - unfold keys. rewrite fmap_app. simpl. f_equal. apply keys_delete.
  - apply get_None_not_in, get_delete_eq.
Qed.
End JsMapMoreFacts.

Section JsMapEvictionFacts.
Context {K V : Type} `{EqDecision K}.
Implicit Types (k : K) (v : V) (m : JsMap.t K V).
Import JsMap.

(** With unique keys, deleting the first key drops the head entry only. *)
Lemma deleteFirst_tail m : NoDup (keys m) -> deleteFirst m = tail m.
Proof.
  destruct m as [|[k v] m]; [done|]. unfold deleteFirst. simpl.
  intros Hnd. apply NoDup_cons in Hnd as [Hnin _].
  rewrite decide_True by done. by apply delete_not_in.
Qed.
End JsMapEvictionFacts.

Section JsMapKeyFacts.
Context {K V : Type} `{EqDecision K}.
Implicit Types (k : K) (v : V) (m : JsMap.t K V).
Import JsMap.

Lemma elem_of_keys k m : k ∈ keys m <-> is_Some (get k m).
Proof.
  destruct (get k m) as [v|] eqn:E.
  - split; [by eexists | intros _; by eapply get_Some_in].
  - apply get_None_not_in in E. split; [done | by intros [? ?]].
Qed.

Lemma elem_of_keys_set k k' v m : k ∈ keys (set k' v m) <-> k = k' \/ k ∈ keys m.
Proof.
  rewrite !elem_of_keys. destruct (decide (k = k')) as [->|Hne].
  - rewrite get_set_eq. split; [by left | by eexists].
  - rewrite get_set_ne by done. split; [by right | by intros [?|?]].
Qed.

Lemma elem_of_keys_delete k k' m : k ∈ keys (delete k' m) -> k ∈ keys m.
Proof. rewrite !elem_of_keys. intros [v Hv]. apply get_delete_Some in Hv. by eexists. Qed.

Lemma elem_of_keys_deleteFirst k m : k ∈ keys (deleteFirst m) -> k ∈ keys m.
Proof.
  unfold deleteFirst. destruct (firstKey m); [apply elem_of_keys_delete | done].
Qed.

Lemma elem_of_keys_foldl_delete k (es : list (K * V)) : forall m,
  k ∈ keys (foldl (λ m e, delete e.1 m) m es) -> k ∈ keys m.
Proof.
  induction es as [|e es IH]; intros m; simpl; [done|].
  intros Hin. apply IH in Hin. by apply elem_of_keys_delete in Hin.
Qed.

Lemma NoDup_deleteFirst m : NoDup (keys m) -> NoDup (keys (deleteFirst m)).
Proof. unfold deleteFirst. destruct (firstKey m); [apply NoDup_delete | done]. Qed.

Lemma NoDup_foldl_delete (es : list (K * V)) : forall m,
  NoDup (keys m) -> NoDup (keys (foldl (λ m e, delete e.1 m) m es)).
Proof.
  induction es as [|e es IH]; intros m Hnd; simpl; [done|].
  by apply IH, NoDup_delete.
Qed.

Lemma get_foldl_delete_other k (es : list (K * V)) : forall m,
  k ∉ es.*1 -> get k (foldl (λ m e, delete e.1 m) m es) = get k m.
Proof.
  induction es as [|e es IH]; intros m Hk; simpl; [done|].
  rewrite fmap_cons, not_elem_of_cons in Hk. destruct Hk as [Hne Hk].
  rewrite IH by done. by apply get_delete_ne.
Qed.

(** With unique keys every entry is the one that [get] finds. *)
Lemma get_of_entry k v m : NoDup (keys m) -> (k, v) ∈ m -> get k m = Some v.
Proof.
  induction m as [|[k' v'] m IH]; intros Hnd Hin; [by apply elem_of_nil in Hin|].
  apply NoDup_cons in Hnd as [Hnin Hnd]. simpl.
  apply elem_of_cons in Hin as [[= -> ->]|Hin].
  - by rewrite decide_True.
  - rewrite decide_False; [by apply IH|]. intros ->. apply Hnin.
    apply list_elem_of_fmap. by exists (k', v).
Qed.
End JsMapKeyFacts.

(** ** The content-script cache *)

Section ContentCacheFacts.
Context {K V : Type} `{EqDecision K}.
Implicit Types (c : Content.PerformanceCache K V) (key k : K) (value v : V).
Import Content.

Lemma content_get_hit c key value :
  JsMap.get key (cache c) = Some value ->
  get key c =
    (Some value,
     mkCache (JsMap.set key value (JsMap.delete key (cache c)))
             (maxSize c) (hitCount c + 1) (missCount c)).
Proof. intros Hs. unfold get. by rewrite Hs. Qed.

Lemma content_get_miss c key :
  JsMap.get key (cache c) = None ->
  get key c = (None, mkCache (cache c) (maxSize c) (hitCount c) (missCount c + 1)).
Proof. intros Hs. unfold get. by rewrite Hs. Qed.

Lemma content_get_keeps c key k value :
  JsMap.get key (cache c) = Some value ->
  JsMap.get key (cache (get k c).2) = Some value.
Proof.
  intros Hs. unfold get. destruct (JsMap.get k (cache c)) as [item|] eqn:E; simpl; [|done].
  destruct (decide (key = k)) as [->|Hne].
  - rewrite get_set_eq. congruence.
  - by rewrite get_move_to_end_ne.
Qed.

Lemma content_set_same c key value : JsMap.get key (cache (set key value c)) = Some value.
Proof. unfold set. simpl. apply get_set_eq. Qed.

Lemma content_set_other c key k v value :
  key ≠ k ->
  JsMap.get key (cache c) = Some value ->
  evicts k c && bool_decide (JsMap.firstKey (cache c) = Some key) = false ->
  JsMap.get key (cache (set k v c)) = Some value.
Proof.
  intros Hne Hs Hev. unfold set, evicts in *. simpl.
  rewrite get_set_ne by done.
  destruct (JsMap.has k (cache c)); simpl in *.
  - by rewrite get_delete_ne.
  - destruct (JsMap.size (cache c) >=? maxSize c); simpl in *; [|done].
    apply bool_decide_eq_false in Hev. by rewrite get_deleteFirst_ne.
Qed.

Lemma content_step_keeps c key value o :
  JsMap.get key (cache c) = Some value ->
  removes key o c = false ->
  JsMap.get key (cache (step o c)) =
    Some (match o with
          | OpSet k v => if decide (k = key) then v else value
          | _ => value
          end).
Proof.
  intros Hs Hrm. destruct o as [k|k v|]; simpl in *.
  - by apply content_get_keeps.
  - destruct (decide (k = key)) as [->|Hne].
    + apply content_set_same.
    + by apply content_set_other.
  - done.
Qed.

Lemma content_run_keeps ops : forall c key value,
  JsMap.get key (cache c) = Some value ->
  keptThrough key ops c = true ->
  JsMap.get key (cache (run ops c)) = Some (lastValue key ops value).
Proof.
  induction ops as [|o ops IH]; intros c key value Hs Hk; simpl in *; [done|].
  apply andb_true_iff in Hk as [Hrm Hk]. apply negb_true_iff in Hrm.
  pose proof (content_step_keeps c key value o Hs Hrm) as Hstep.
  destruct o as [k|k v|]; simpl in *; by apply IH.
Qed.

(** C10. The content-script cache has no expiry.  Its [get] reads no clock:
    whenever [key] is stored, [get key] returns the stored value, counts a
    hit and no miss, and keeps the entry.  A stored entry disappears only by
    [clear()] or by a [set] of a new key at capacity while [key] is the first
    key; after any trace without such a call, [get key] still hits and
    returns the value last written under [key]. *)
Theorem content_cache_no_expiry c key value :
  JsMap.get key (cache c) = Some value ->
  ((get key c).1 = Some value
   /\ hitCount (get key c).2 = hitCount c + 1
   /\ missCount (get key c).2 = missCount c
   /\ JsMap.get key (cache (get key c).2) = Some value)
  /\ (forall o,
        JsMap.get key (cache (step o c)) = None ->
        o = OpClear
        \/ exists k v, o = OpSet k v
             /\ JsMap.has k (cache c) = false
             /\ JsMap.size (cache c) >= maxSize c
             /\ JsMap.firstKey (cache c) = Some key)
  /\ (forall ops,
        keptThrough key ops c = true ->
        let c' := run ops c in
        (get key c').1 = Some (lastValue key ops value)
        /\ hitCount (get key c').2 = hitCount c' + 1
        /\ missCount (get key c').2 = missCount c').
Proof.
  intros Hs. split_and!.
  - by rewrite (content_get_hit _ _ _ Hs).
  - by rewrite (content_get_hit _ _ _ Hs).
  - by rewrite (content_get_hit _ _ _ Hs).
  - by apply content_get_keeps.
  - intros o Hnone. destruct (removes key o c) eqn:Hrm.
    + destruct o as [k|k v|]; simpl in Hrm; [done| |by left].
      right. exists k, v. unfold evicts in Hrm.
      apply andb_true_iff in Hrm as [Hev Hfst].
      apply andb_true_iff in Hev as [Hnew Hfull].
      apply negb_true_iff in Hnew. apply bool_decide_eq_true in Hfst.
      split_and!; try done. apply Z.geb_le in Hfull. lia.
    + rewrite (content_step_keeps c key value o Hs Hrm) in Hnone. done.
  - intros ops Hk c'.
    pose proof (content_run_keeps ops c key value Hs Hk) as Hrun.
    fold c' in Hrun. by rewrite (content_get_hit _ _ _ Hrun).
Qed.
End ContentCacheFacts.

(** C10, at an instance: a cache of capacity 2 that stores 7 under "a". *)
Lemma content_cache_no_expiry_witness :
  (Content.get "a"%string (Content.set "a"%string 7 (Content.new 2))).1 = Some 7.
Proof.
  pose proof (content_cache_no_expiry
                (Content.set "a"%string 7 (Content.new 2)) "a"%string 7 eq_refl)
    as [[Hget _] _].
  exact Hget.
Defined.

Section ContentOrderFacts.
Context {K V : Type} `{EqDecision K}.
Implicit Types (c : Content.PerformanceCache K V) (key k : K) (value : V).
Import Content.

(** X3. The content-script [set] of a stored key moves it to the tail. *)
Lemma content_set_existing_moves_to_tail c key value :
  JsMap.has key (cache c) = true ->
  JsMap.keys (cache (set key value c))
    = filter (λ k', k' ≠ key) (JsMap.keys (cache c)) ++ [key].
Proof.
  intros Hhas. unfold set. simpl. rewrite Hhas. apply move_to_end_keys.
Qed.

(** X4. A hit of the content-script [get] moves the key to the tail. *)
Lemma content_get_moves_to_tail c key :
  JsMap.has key (cache c) = true ->
  JsMap.keys (cache (get key c).2)
    = filter (λ k', k' ≠ key) (JsMap.keys (cache c)) ++ [key].
Proof.
  unfold JsMap.has, get. destruct (JsMap.get key (cache c)); [|done].
  intros _. apply move_to_end_keys.
Qed.
End ContentOrderFacts.

Lemma content_set_existing_moves_to_tail_witness :
  JsMap.keys (Content.cache
    (Content.set "a"%string 3
       (Content.setAll [("a"%string, 1); ("b"%string, 2)] (Content.new 2))))
  = ["b"%string; "a"%string].
Proof.
  etrans.
  - apply (content_set_existing_moves_to_tail
             (Content.setAll [("a"%string, 1); ("b"%string, 2)] (Content.new 2))
             "a"%string 3).
    reflexivity.
  - reflexivity.
Defined.

Lemma content_get_moves_to_tail_witness :
  JsMap.keys (Content.cache
    (Content.get "a"%string
       (Content.setAll [("a"%string, 1); ("b"%string, 2)] (Content.new 2))).2)
  = ["b"%string; "a"%string].
Proof.
  etrans.
  - apply (content_get_moves_to_tail
             (Content.setAll [("a"%string, 1); ("b"%string, 2)] (Content.new 2))
             "a"%string).
    reflexivity.
  - reflexivity.
Defined.

Section ContentEvictionFacts.
Context {K V : Type} `{EqDecision K}.
Implicit Types (c : Content.PerformanceCache K V) (k : K) (v : V).
Import Content.

Lemma content_set_new_below c k v :
  k ∉ JsMap.keys (cache c) ->
  JsMap.size (cache c) < maxSize c ->
  set k v c = mkCache (cache c ++ [(k, v)]) (maxSize c) (hitCount c) (missCount c).
Proof.
  intros Hnew Hroom. unfold set.
  apply has_false in Hnew as Hhas. rewrite Hhas.
  destruct (Z.geb_spec (JsMap.size (cache c)) (maxSize c)); [lia|].
  by rewrite set_not_in.
Qed.

(** A [set] of a new key at capacity drops the first key and appends. *)
Lemma content_set_new_full c k v :
  k ∉ JsMap.keys (cache c) ->
  NoDup (JsMap.keys (cache c)) ->
  maxSize c <= JsMap.size (cache c) ->
  set k v c = mkCache (tail (cache c) ++ [(k, v)]) (maxSize c) (hitCount c) (missCount c).
Proof.
  intros Hnew Hnd Hfull. unfold set.
  apply has_false in Hnew as Hhas. rewrite Hhas.
  destruct (Z.geb_spec (JsMap.size (cache c)) (maxSize c)); [|lia].
  rewrite deleteFirst_tail by done. rewrite set_not_in; [done|].
  intros Hin. apply Hnew. destruct (cache c) as [|e m]; [done|].
  by right.
Qed.

Lemma content_setAll_below entries : forall c,
  NoDup (JsMap.keys (cache c) ++ entries.*1) ->
  JsMap.size (cache c) + Z.of_nat (length entries) <= maxSize c ->
  setAll entries c
  = mkCache (cache c ++ entries) (maxSize c) (hitCount c) (missCount c).
Proof.
  induction entries as [|[k v] entries IH]; intros c Hnd Hroom.
  - unfold setAll. simpl. rewrite app_nil_r. by destruct c.
  - assert (k ∉ JsMap.keys (cache c)) as Hnew.
    { apply NoDup_app in Hnd as (_ & Hdis & _). intros Hin.
      apply (Hdis k Hin). by left. }
    change (setAll ((k, v) :: entries) c) with (setAll entries (set k v c)).
    cbn [length] in Hroom.
    rewrite content_set_new_below; [|done|unfold JsMap.size in *; lia].
    rewrite IH; cbn [cache maxSize hitCount missCount].
    + by rewrite <- app_assoc.
    + unfold JsMap.keys in *. rewrite fmap_app. simpl.
      rewrite <- app_assoc. done.
    + unfold JsMap.size in *. rewrite length_app. simpl. lia.
Qed.

(** X1. Inserting [N + 1] distinct keys into an empty cache of capacity
    [N >= 1], with no [get] in between, leaves exactly the last [N] entries:
    the first-inserted key is evicted and no other. *)
Lemma content_one_too_many_evicts_first (N : Z) (entries : list (K * V)) k v :
  1 <= N ->
  Z.of_nat (length entries) = N ->
  NoDup ((entries ++ [(k, v)]).*1) ->
  cache (setAll (entries ++ [(k, v)]) (new N)) = tail entries ++ [(k, v)].
Proof.
  intros Hpos Hlen Hnd. unfold setAll. rewrite foldl_app. cbn [foldl fst snd].
  rewrite fmap_app in Hnd. simpl in Hnd.
  apply NoDup_app in Hnd as (Hnd & Hdis & _).
  pose proof (content_setAll_below entries (new N)) as Hfill.
  unfold setAll in Hfill. rewrite Hfill; [|done|unfold JsMap.size; simpl; lia].
  rewrite content_set_new_full; simpl; [done| | done | unfold JsMap.size; lia].
  intros Hin. apply (Hdis k Hin). by left.
Qed.
End ContentEvictionFacts.

(** Capacity 2 and the keys "a", "b", "c": "a" is evicted, "b" and "c"
    stay, in this order. *)
Lemma content_one_too_many_evicts_first_witness :
  Content.cache
    (Content.setAll ([("a"%string, 1); ("b"%string, 2)] ++ [("c"%string, 3)])
                    (Content.new 2))
  = [("b"%string, 2); ("c"%string, 3)].
Proof.
  apply (content_one_too_many_evicts_first 2
           [("a"%string, 1); ("b"%string, 2)] "c"%string 3).
  - lia.
  - reflexivity.
  - by_evaluation.
Defined.

(** ** The background cache *)

Section BackgroundCacheFacts.
Context {K V : Type} `{EqDecision K}.
Implicit Types (c : Background.PerformanceCache K V) (key k : K) (d : V).
Implicit Types (item : Background.CacheItem V) (now : Z).
Implicit Types (o : Background.op K V) (ops : list (Background.op K V)).
Import Background.

Lemma background_step_ttl o c : ttl (step o c) = ttl c.
Proof.
  destruct o as [k now|k d now| |now]; simpl; try done.
  unfold get. destruct (JsMap.get k (cache c)) as [item|]; [|done].
  by destruct (now <? expiry item).
Qed.

Lemma background_run_ttl ops : forall c, ttl (run ops c) = ttl c.
Proof.
  induction ops as [|o ops IH]; intros c; [done|].
  change (run (o :: ops) c) with (run ops (step o c)).
  by rewrite IH, background_step_ttl.
Qed.

Lemma background_run_snoc ops o c : run (ops ++ [o]) c = step o (run ops c).
Proof. unfold run. by rewrite foldl_app. Qed.

Lemma lastSet_snoc key ops o :
  lastSet key (ops ++ [o]) =
    match o with
    | OpSet k d now => if decide (k = key) then Some (d, now) else lastSet key ops
    | _ => lastSet key ops
    end.
Proof.
  induction ops as [|o' ops IH]; simpl.
  - by destruct o.
  - rewrite IH. destruct o as [?|k d now| |]; try done.
    destruct (decide (k = key)); [done|].
    by destruct (lastSet key ops).
Qed.

(** What one call can do to the entry found under [key] afterwards: either the
    call was a [set] of [key] and the entry is the fresh one, or the entry
    was already there. *)
Lemma background_step_lookup o c key item :
  JsMap.get key (cache (step o c)) = Some item ->
  match o with
  | OpSet k d now =>
      if decide (k = key) then item = mkItem d (now + ttl c) now
      else JsMap.get key (cache c) = Some item
  | _ => JsMap.get key (cache c) = Some item
  end.
Proof.
  destruct o as [k now|k d now| |now]; simpl.
  - unfold get. destruct (JsMap.get k (cache c)) as [it|] eqn:E; [|done].
    destruct (now <? expiry it); simpl.
    + destruct (decide (key = k)) as [->|Hne].
      * rewrite get_set_eq. congruence.
      * by rewrite get_move_to_end_ne.
    + apply get_delete_Some.
  - destruct (decide (k = key)) as [->|Hne].
    + rewrite get_set_eq. congruence.
    + rewrite get_set_ne by done.
      destruct (_ && _); [apply get_deleteFirst_Some | done].
  - done.
  - apply get_foldl_delete_Some.
Qed.

(** A stored entry is the one written by the last [set] of its key. *)
Lemma background_run_lookup ops : forall c key item,
  JsMap.get key (cache (run ops c)) = Some item ->
  match lastSet key ops with
  | Some (d, t0) => item = mkItem d (t0 + ttl c) t0
  | None => JsMap.get key (cache c) = Some item
  end.
Proof.
  induction ops as [|o ops IH] using rev_ind; intros c key item Hs; [done|].
  rewrite background_run_snoc in Hs. apply background_step_lookup in Hs.
  rewrite lastSet_snoc. rewrite background_run_ttl in Hs.
  destruct o as [k now|k d now| |now]; try by apply IH.
  destruct (decide (k = key)); [done | by apply IH].
Qed.

Lemma background_get_fresh c key now item :
  JsMap.get key (cache c) = Some item ->
  now < expiry item ->
  get key now c =
    (Some (data item),
     mkCache (JsMap.set key item (JsMap.delete key (cache c)))
             (maxSize c) (ttl c) (hitCount c + 1) (missCount c) (requestCount c)).
Proof.
  intros Hs Hlt. unfold get. rewrite Hs.
  destruct (now <? expiry item) eqn:E; [done|]. apply Z.ltb_ge in E. lia.
Qed.

Lemma background_get_expired c key now item :
  JsMap.get key (cache c) = Some item ->
  expiry item <= now ->
  get key now c =
    (None,
     mkCache (JsMap.delete key (cache c))
             (maxSize c) (ttl c) (hitCount c) (missCount c + 1) (requestCount c)).
Proof.
  intros Hs Hge. unfold get. rewrite Hs.
  destruct (now <? expiry item) eqn:E; [|done]. apply Z.ltb_lt in E. lia.
Qed.

End BackgroundCacheFacts.

Section BackgroundOrderFacts.
Context {K V : Type} `{EqDecision K}.
Implicit Types (c : Background.PerformanceCache K V) (key k : K) (d : V).
Import Background.

(** X5. The background [set] of a key that is already stored leaves the order of
    the keys as it was: the entry is not moved to the tail. *)
Lemma background_set_existing_keeps_order c key d now :
  JsMap.has key (cache c) = true ->
  JsMap.keys (cache (set key d now c)) = JsMap.keys (cache c).
Proof.
  intros Hhas. unfold set. simpl. rewrite Hhas, andb_false_r.
  apply keys_set_in. by apply has_true.
Qed.
End BackgroundOrderFacts.

Lemma background_set_existing_keeps_order_witness :
  JsMap.keys (Background.cache
    (Background.set "a"%string 3 30
       (Background.setAll [("a"%string, 1, 10); ("b"%string, 2, 20)]
                          (Background.new 2 1000))))
  = ["a"%string; "b"%string].
Proof.
  etrans.
  - apply (background_set_existing_keeps_order
             (Background.setAll [("a"%string, 1, 10); ("b"%string, 2, 20)]
                                (Background.new 2 1000))
             "a"%string 3 30).
    reflexivity.
  - reflexivity.
Defined.

(** C2, the failing trace.  Capacity 2: [set A; set B; set A; set C].  In
    the background cache the second [set A] leaves "A" at the head, so
    [set C] evicts "A", the entry touched most recently, and keeps "B".  The
    content-script cache evicts "B" on the same calls. *)
Theorem background_set_evicts_recently_set_key :
  JsMap.keys (Background.cache
    (Background.run
       [Background.OpSet "A"%string 1 0; Background.OpSet "B"%string 2 1;
        Background.OpSet "A"%string 3 2; Background.OpSet "C"%string 4 3]
       (Background.new 2 1000))) = ["B"%string; "C"%string]
  /\ JsMap.keys (Content.cache
    (Content.run
       [Content.OpSet "A"%string 1; Content.OpSet "B"%string 2;
        Content.OpSet "A"%string 3; Content.OpSet "C"%string 4]
       (Content.new 2))) = ["A"%string; "C"%string].
Proof. split; reflexivity. Qed.

Section BackgroundEvictionFacts.
Context {K V : Type} `{EqDecision K}.
Implicit Types (c : Background.PerformanceCache K V) (k : K) (d : V) (now : Z).
Import Background.

Lemma background_set_new_below c k d now :
  k ∉ JsMap.keys (cache c) ->
  JsMap.size (cache c) < maxSize c ->
  set k d now c
  = mkCache (cache c ++ [stored (ttl c) (k, d, now)]) (maxSize c) (ttl c)
            (hitCount c) (missCount c) (requestCount c).
Proof.
  intros Hnew Hroom. unfold set.
  destruct (Z.geb_spec (JsMap.size (cache c)) (maxSize c)); [lia|].
  simpl. by rewrite set_not_in.
Qed.

Lemma background_set_new_full c k d now :
  k ∉ JsMap.keys (cache c) ->
  NoDup (JsMap.keys (cache c)) ->
  maxSize c <= JsMap.size (cache c) ->
  set k d now c
  = mkCache (tail (cache c) ++ [stored (ttl c) (k, d, now)]) (maxSize c) (ttl c)
            (hitCount c) (missCount c) (requestCount c).
Proof.
  intros Hnew Hnd Hfull. unfold set.
  apply has_false in Hnew as Hhas. rewrite Hhas.
  destruct (Z.geb_spec (JsMap.size (cache c)) (maxSize c)); [|lia].
  simpl. rewrite deleteFirst_tail by done. rewrite set_not_in; [done|].
  intros Hin. apply Hnew. destruct (cache c) as [|e m]; [done|].
  by right.
Qed.

Lemma background_setAll_below entries : forall c,
  NoDup (JsMap.keys (cache c) ++ entries.*1.*1) ->
  JsMap.size (cache c) + Z.of_nat (length entries) <= maxSize c ->
  setAll entries c
  = mkCache (cache c ++ (stored (ttl c) <$> entries)) (maxSize c) (ttl c)
            (hitCount c) (missCount c) (requestCount c).
Proof.
  induction entries as [|[[k d] now] entries IH]; intros c Hnd Hroom.
  - unfold setAll. simpl. rewrite app_nil_r. by destruct c.
  - assert (k ∉ JsMap.keys (cache c)) as Hnew.
    { apply NoDup_app in Hnd as (_ & Hdis & _). intros Hin.
      apply (Hdis k Hin). by left. }
    change (setAll ((k, d, now) :: entries) c)
      with (setAll entries (set k d now c)).
    cbn [length] in Hroom.
    rewrite background_set_new_below; [|done|unfold JsMap.size in *; lia].
    rewrite IH; cbn [cache maxSize ttl hitCount missCount requestCount].
    + by rewrite <- app_assoc.
    + unfold JsMap.keys in *. rewrite fmap_app. simpl.
      rewrite <- app_assoc. done.
    + unfold JsMap.size in *. rewrite length_app. simpl. lia.
Qed.

(** X2. The same for the background cache: [N + 1] distinct keys, capacity
    [N >= 1], no [get] in between; the first-inserted key is evicted and no
    other, whatever the times of the calls. *)
Lemma background_one_too_many_evicts_first (N ttlMs : Z)
    (entries : list (K * V * Z)) k d now :
  1 <= N ->
  Z.of_nat (length entries) = N ->
  NoDup ((entries ++ [(k, d, now)]).*1.*1) ->
  cache (setAll (entries ++ [(k, d, now)]) (new N ttlMs))
  = stored ttlMs <$> (tail entries ++ [(k, d, now)]).
Proof.
  intros Hpos Hlen Hnd. unfold setAll. rewrite foldl_app. cbn [foldl fst snd].
  rewrite !fmap_app in Hnd. simpl in Hnd.
  apply NoDup_app in Hnd as (Hnd & Hdis & _).
  assert (JsMap.keys (stored ttlMs <$> entries) = entries.*1.*1) as Hkeys.
  { unfold JsMap.keys. rewrite <- !list_fmap_compose. by apply list_fmap_ext. }
  pose proof (background_setAll_below entries (new N ttlMs)) as Hfill.
  unfold setAll in Hfill. rewrite Hfill; [|done|unfold JsMap.size; simpl; lia].
  rewrite background_set_new_full; cbn [cache maxSize ttl new app].
  - rewrite fmap_app. simpl. f_equal. by destruct entries.
  - rewrite Hkeys. intros Hin. apply (Hdis k Hin). by left.
  - by rewrite Hkeys.
  - unfold JsMap.size. rewrite length_fmap. lia.
Qed.
End BackgroundEvictionFacts.

Lemma background_one_too_many_evicts_first_witness :
  Background.cache
    (Background.setAll ([("a"%string, 1, 10); ("b"%string, 2, 20)]
                        ++ [("c"%string, 3, 30)])
                       (Background.new 2 1000))
  = [("b"%string, Background.mkItem 2 1020 20);
     ("c"%string, Background.mkItem 3 1030 30)].
Proof.
  apply (background_one_too_many_evicts_first 2 1000
           [("a"%string, 1, 10); ("b"%string, 2, 20)] "c"%string 3 30).
  - lia.
  - reflexivity.
  - by_evaluation.
Defined.

(** The scenario of the specification: capacity 2, time to live 1000;
    after [set A 1], [set B 2], [set C 3] the key "A" is gone and "B" and
    "C" are read back. *)
Lemma background_scenario :
  let c := Background.setAll [("A"%string, 1, 0); ("B"%string, 2, 1);
                              ("C"%string, 3, 2)]
                             (Background.new 2 1000) in
  (Background.get "A"%string 3 c).1 = None
  /\ (Background.get "B"%string 3 c).1 = Some 2
  /\ (Background.get "C"%string 3 c).1 = Some 3.
Proof. split_and!; reflexivity. Qed.

Section BackgroundCapacityFacts.
Context {K V : Type} `{EqDecision K}.
Implicit Types (c : Background.PerformanceCache K V) (key k : K) (d : V).
Implicit Types (item : Background.CacheItem V) (now : Z).
Implicit Types (o : Background.op K V) (ops : list (Background.op K V)).
Import Background.

Lemma background_step_maxSize o c : maxSize (step o c) = maxSize c.
Proof.
  destruct o as [k now|k d now| |now]; simpl; try done.
  unfold get. destruct (JsMap.get k (cache c)) as [item|]; [|done].
  by destruct (now <? expiry item).
Qed.

Lemma background_run_maxSize ops : forall c, maxSize (run ops c) = maxSize c.
Proof.
  induction ops as [|o ops IH]; intros c; [done|].
  change (run (o :: ops) c) with (run ops (step o c)).
  by rewrite IH, background_step_maxSize.
Qed.

Lemma background_step_NoDup o c :
  NoDup (JsMap.keys (cache c)) -> NoDup (JsMap.keys (cache (step o c))).
Proof.
  intros Hnd. destruct o as [k now|k d now| |now]; simpl.
  - unfold get. destruct (JsMap.get k (cache c)) as [item|]; [|done].
    destruct (now <? expiry item); simpl.
    + by apply NoDup_set, NoDup_delete.
    + by apply NoDup_delete.
  - apply NoDup_set. destruct (_ && _); [by apply NoDup_deleteFirst | done].
  - apply NoDup_nil_2.
  - by apply NoDup_foldl_delete.
Qed.

(** The keys in the store were all inserted by a [set]. *)
Lemma background_step_keys o c k :
  k ∈ JsMap.keys (cache (step o c)) ->
  k ∈ JsMap.keys (cache c) \/ setKey o = Some k.
Proof.
  destruct o as [k' now|k' d now| |now]; simpl.
  - unfold get. destruct (JsMap.get k' (cache c)) as [item|] eqn:E; [|by left].
    destruct (now <? expiry item); simpl.
    + rewrite elem_of_keys_set. intros [->|Hin].
      * left. by eapply get_Some_in.
      * left. by apply elem_of_keys_delete in Hin.
    + intros Hin. left. by apply elem_of_keys_delete in Hin.
  - rewrite elem_of_keys_set. intros [->|Hin]; [by right|]. left.
    destruct (_ && _); [by apply elem_of_keys_deleteFirst | done].
  - intros Hin. by apply elem_of_nil in Hin.
  - intros Hin. left. by apply elem_of_keys_foldl_delete in Hin.
Qed.

(** One call keeps an unexpired entry in place, provided it is not a
    [clear()], not a [set] of the same key, and does not evict. *)
Lemma background_step_keeps o c key item :
  NoDup (JsMap.keys (cache c)) ->
  JsMap.get key (cache c) = Some item ->
  o ≠ OpClear ->
  setKey o ≠ Some key ->
  readsBefore (expiry item) o ->
  (forall k, setKey o = Some k -> k ∉ JsMap.keys (cache c) ->
     JsMap.size (cache c) < maxSize c) ->
  JsMap.get key (cache (step o c)) = Some item.
Proof.
  intros Hnd Hs Hclear Hset Hread Hroom.
  destruct o as [k now|k d now| |now]; simpl in *.
  - unfold get. destruct (JsMap.get k (cache c)) as [it|] eqn:E; [|done].
    destruct (decide (key = k)) as [->|Hne].
    + assert (it = item) as -> by congruence.
      destruct (Z.ltb_spec now (expiry item)); [|lia]. simpl. apply get_set_eq.
    + destruct (now <? expiry it); simpl.
      * by rewrite get_move_to_end_ne.
      * by rewrite get_delete_ne.
  - assert (key ≠ k) as Hne by congruence.
    rewrite get_set_ne by done.
    destruct (JsMap.has k (cache c)) eqn:Hhas; [by rewrite andb_false_r|].
    apply has_false in Hhas. specialize (Hroom k eq_refl Hhas).
    destruct (Z.geb_spec (JsMap.size (cache c)) (maxSize c)); [lia | done].
  - done.
  - rewrite get_foldl_delete_other; [done|].
    intros Hin. apply list_elem_of_fmap in Hin as ([k it] & -> & Hin).
    apply list_elem_of_filter in Hin as [Hexp Hin]. simpl in *.
    rewrite (get_of_entry _ _ _ Hnd Hin) in Hs. injection Hs as ->. lia.
Qed.
End BackgroundCapacityFacts.

Section BackgroundTraceFacts.
Context {K V : Type} `{EqDecision K}.
Implicit Types (c : Background.PerformanceCache K V) (key k : K) (d : V).
Implicit Types (o : Background.op K V) (ops : list (Background.op K V)).
Import Background.

Lemma afterLastSet_snoc key ops o :
  afterLastSet key (ops ++ [o]) =
    match o with
    | OpSet k _ _ => if decide (k = key) then [] else afterLastSet key ops ++ [o]
    | _ => afterLastSet key ops ++ [o]
    end.
Proof.
  induction ops as [|o' ops IH]; simpl.
  - by destruct o.
  - rewrite lastSet_snoc, IH. destruct o as [?|k ? ?| |].
    + destruct (lastSet key ops); [done|].
      destruct o' as [?|k' ? ?| |]; try done. by destruct (decide (k' = key)).
    + destruct (decide (k = key)); [done|].
      destruct (lastSet key ops); [done|].
      destruct o' as [?|k' ? ?| |]; try done. by destruct (decide (k' = key)).
    + destruct (lastSet key ops); [done|].
      destruct o' as [?|k' ? ?| |]; try done. by destruct (decide (k' = key)).
    + destruct (lastSet key ops); [done|].
      destruct o' as [?|k' ? ?| |]; try done. by destruct (decide (k' = key)).
Qed.

Lemma withinCapacity_prefix (N : Z) ops o :
  withinCapacity N (ops ++ [o]) -> withinCapacity N ops.
Proof.
  unfold withinCapacity. intros Hcap.
  assert (remove_dups (omap setKey ops) ⊆+ remove_dups (omap setKey (ops ++ [o])))
    as Hsub.
  { apply NoDup_submseteq; [apply NoDup_remove_dups|].
    intros k. rewrite !elem_of_remove_dups, omap_app, elem_of_app. by left. }
  apply submseteq_length in Hsub. lia.
Qed.

(** From an empty store, the keys are unique and were all inserted. *)
Lemma background_run_keys (N ttlMs : Z) ops :
  let c := run ops (new N ttlMs) in
  NoDup (JsMap.keys (cache c))
  /\ forall k, k ∈ JsMap.keys (cache c) -> k ∈ omap setKey ops.
Proof.
  induction ops as [|o ops [IHnd IHin]] using rev_ind; simpl.
  - split; [apply NoDup_nil_2|]. intros k Hk. by apply elem_of_nil in Hk.
  - rewrite background_run_snoc. split; [by apply background_step_NoDup|].
    intros k Hk. rewrite omap_app, elem_of_app.
    apply background_step_keys in Hk as [Hk|Hk]; [left; by apply IHin|].
    right. simpl. rewrite Hk. by left.
Qed.

(** Within capacity a [set] of a new key finds room. *)
Lemma background_run_room (N ttlMs : Z) ops k d now :
  withinCapacity N (ops ++ [OpSet k d now]) ->
  k ∉ JsMap.keys (cache (run ops (new N ttlMs))) ->
  JsMap.size (cache (run ops (new N ttlMs))) < N.
Proof.
  intros Hcap Hnew. destruct (background_run_keys N ttlMs ops) as [Hnd Hin].
  unfold withinCapacity in Hcap.
  assert (JsMap.keys (cache (run ops (new N ttlMs))) ++ [k]
          ⊆+ remove_dups (omap setKey (ops ++ [OpSet k d now]))) as Hsub.
  { apply NoDup_submseteq.
    - apply NoDup_app. split_and!; [done| |apply NoDup_singleton].
      intros x Hx Hx'. apply list_elem_of_singleton in Hx'. by subst x.
    - intros x. rewrite elem_of_remove_dups, omap_app, !elem_of_app.
      intros [Hx|Hx]; [left; by apply Hin|]. right.
      apply list_elem_of_singleton in Hx. subst x. simpl. by left. }
  apply submseteq_length in Hsub. rewrite length_app in Hsub. simpl in Hsub.
  unfold JsMap.size, JsMap.keys in *. rewrite length_fmap in Hsub. lia.
Qed.

(** Within capacity, and with every later read made before its expiry, the
    entry of the last [set] of a key is in the store. *)
Lemma background_trace_keeps (N ttlMs : Z) key d (t0 : Z) : forall ops,
  Forall (λ o, o ≠ OpClear) ops ->
  withinCapacity N ops ->
  lastSet key ops = Some (d, t0) ->
  Forall (readsBefore (t0 + ttlMs)) (afterLastSet key ops) ->
  JsMap.get key (cache (run ops (new N ttlMs))) = Some (mkItem d (t0 + ttlMs) t0).
Proof.
  induction ops as [|o ops IH] using rev_ind; intros Hclear Hcap Hlast Hreads;
    [done|].
  rewrite background_run_snoc. rewrite lastSet_snoc in Hlast.
  rewrite afterLastSet_snoc in Hreads.
  apply Forall_app in Hclear as [Hclear Ho]. apply Forall_inv in Ho.
  assert (forall k' d' now', o = OpSet k' d' now' -> k' = key ->
            JsMap.get key (cache (step o (run ops (new N ttlMs))))
            = Some (mkItem d' (now' + ttlMs) now')) as Hfresh.
  { intros k' d' now' -> ->. simpl. rewrite get_set_eq.
    by rewrite background_run_ttl. }
  assert (setKey o ≠ Some key ->
          lastSet key ops = Some (d, t0) ->
          Forall (readsBefore (t0 + ttlMs)) (afterLastSet key ops ++ [o]) ->
          JsMap.get key (cache (step o (run ops (new N ttlMs))))
          = Some (mkItem d (t0 + ttlMs) t0)) as Hkeep.
  { intros Hset Hlast' Hreads'. apply Forall_app in Hreads' as [Hreads' Hread].
    apply Forall_inv in Hread.
    assert (JsMap.get key (cache (run ops (new N ttlMs)))
            = Some (mkItem d (t0 + ttlMs) t0)) as Hstored.
    { apply IH; try done. by apply withinCapacity_prefix in Hcap. }
    apply (background_step_keeps o _ key _
             (proj1 (background_run_keys N ttlMs ops)) Hstored Ho Hset Hread).
    intros k Hk Hnew. rewrite background_run_maxSize. simpl.
    destruct o as [?|k' d' now'| |]; try done. injection Hk as ->.
    by apply (background_run_room N ttlMs ops k d' now'). }
  destruct o as [k now|k d' now| |now]; try by apply Hkeep.
  destruct (decide (k = key)) as [->|Hne].
  - injection Hlast as -> ->. by apply (Hfresh key d t0).
  - apply Hkeep; try done. simpl. congruence.
Qed.

(** X6. The first testable property of the specification: on a cache that
    starts empty, for a trace without [clear()] that inserts at most [N]
    distinct keys, a key read before the time to live of its last [set] has
    elapsed, every earlier read having been made before that as well,
    returns the last value set for it and counts a hit. *)
Lemma background_within_capacity_returns_last_value
    (N ttlMs : Z) ops key d (t0 now : Z) :
  Forall (λ o, o ≠ OpClear) ops ->
  withinCapacity N ops ->
  lastSet key ops = Some (d, t0) ->
  Forall (readsBefore (t0 + ttlMs)) (afterLastSet key ops) ->
  now < t0 + ttlMs ->
  let c := run ops (new N ttlMs) in
  (get key now c).1 = Some d
  /\ hitCount (get key now c).2 = hitCount c + 1
  /\ missCount (get key now c).2 = missCount c.
Proof.
  intros Hclear Hcap Hlast Hreads Hnow c.
  pose proof (background_trace_keeps N ttlMs key d t0 ops Hclear Hcap Hlast Hreads)
    as Hs.
  fold c in Hs. by rewrite (background_get_fresh c key now _ Hs).
Qed.

(** C3, as the code has it.  Take any trace of calls on a background cache
    and a key whose last [set] stored [d] at time [t0].  A [get] before
    [t0 + ttl] returns [d] and counts a hit and no miss provided the entry is
    still in the store.  It is still there whenever the cache started empty,
    was never cleared, at most [maxSize] distinct keys were inserted in all,
    and every read after that [set] was made before [t0 + ttl].  A [get] at
    or after [t0 + ttl] returns nothing, leaves no entry under the key, and
    counts a miss and no hit. *)
Theorem background_get_ttl c0 ops key d (t0 now : Z) :
  lastSet key ops = Some (d, t0) ->
  let c := run ops c0 in
  (JsMap.has key (cache c) = true ->
   now < t0 + ttl c0 ->
     (get key now c).1 = Some d
     /\ hitCount (get key now c).2 = hitCount c + 1
     /\ missCount (get key now c).2 = missCount c)
  /\ (forall N ttlMs,
        c0 = new N ttlMs ->
        Forall (λ o, o ≠ OpClear) ops ->
        withinCapacity N ops ->
        Forall (readsBefore (t0 + ttlMs)) (afterLastSet key ops) ->
        JsMap.has key (cache c) = true)
  /\ (t0 + ttl c0 <= now ->
     (get key now c).1 = None
     /\ JsMap.has key (cache (get key now c).2) = false
     /\ missCount (get key now c).2 = missCount c + 1
     /\ hitCount (get key now c).2 = hitCount c).
Proof.
  intros Hlast c. split_and!.
  - intros Hhas Hlt. unfold JsMap.has in Hhas.
    destruct (JsMap.get key (cache c)) as [item|] eqn:Hs; [|done].
    pose proof (background_run_lookup ops c0 key item Hs) as Hitem.
    rewrite Hlast in Hitem. subst item.
    by rewrite (background_get_fresh c key now _ Hs).
  - intros N ttlMs -> Hclear Hcap Hreads. unfold JsMap.has. subst c.
    by rewrite (background_trace_keeps N ttlMs key d t0 ops).
  - intros Hge. destruct (JsMap.get key (cache c)) as [item|] eqn:Hs.
    + pose proof (background_run_lookup ops c0 key item Hs) as Hitem.
      rewrite Hlast in Hitem. subst item.
      rewrite (background_get_expired c key now _ Hs) by done.
      simpl. split_and!; try done. unfold JsMap.has. by rewrite get_delete_eq.
    + unfold get. rewrite Hs. simpl. split_and!; try done.
      unfold JsMap.has. by rewrite Hs.
Qed.
End BackgroundTraceFacts.

(** C3, at an instance: capacity 2, time to live 1000; "A" is set at time 1
    and read at time 4 and at time 1001. *)
Lemma background_get_ttl_witness :
  let c := Background.run [Background.OpSet "A"%string 1 1] (Background.new 2 1000) in
  (Background.get "A"%string 4 c).1 = Some 1
  /\ (Background.get "A"%string 1001 c).1 = None.
Proof.
  pose proof (background_get_ttl (Background.new 2 1000)
                [Background.OpSet "A"%string 1 1] "A"%string 1 1 4
                eq_refl) as (Hfresh & _ & _).
  pose proof (background_get_ttl (Background.new 2 1000)
                [Background.OpSet "A"%string 1 1] "A"%string 1 1 1001
                eq_refl) as (_ & _ & Hold).
  split.
  - apply Hfresh; reflexivity.
  - apply Hold. discriminate.
Defined.

(** C3 as stated fails: with capacity 2 and time to live 1000, the trace
    [set X; set A; get X; set C] inserts one key other than "A" after the set
    of "A" (fewer than the capacity), and the read of "A" at time 4 is well
    before its expiry at 1001; yet the read returns nothing and counts a
    miss, because the [get] of "X" made "A" the least recently used entry. *)
Lemma background_get_before_ttl_counterexample :
  let ops := [Background.OpSet "X"%string 0 0; Background.OpSet "A"%string 1 1;
              Background.OpGet "X"%string 2; Background.OpSet "C"%string 2 3] in
  let c := Background.run ops (Background.new 2 1000) in
  Background.lastSet "A"%string ops = Some (1, 1)
  /\ 4 < 1 + Background.ttl c
  /\ Background.othersInsertedAfter "A"%string ops = ["C"%string]
  /\ Z.of_nat (length (Background.othersInsertedAfter "A"%string ops))
       < Background.maxSize c
  /\ (Background.get "A"%string 4 c).1 = None
  /\ Background.hitCount (Background.get "A"%string 4 c).2 = Background.hitCount c
  /\ Background.missCount (Background.get "A"%string 4 c).2
       = Background.missCount c + 1.
Proof. vm_compute. repeat split; congruence. Qed.

(** Capacity 2, time to live 1000: "A" and "B" are set, "A" is read and set
    again at time 5, "B" is read; a read of "A" at time 900 returns the
    value of its last [set]. *)
Lemma background_within_capacity_returns_last_value_witness :
  (Background.get "A"%string 900
     (Background.run
        [Background.OpSet "A"%string 1 0; Background.OpSet "B"%string 2 1;
         Background.OpGet "A"%string 2; Background.OpSet "A"%string 7 5;
         Background.OpGet "B"%string 6]
        (Background.new 2 1000))).1 = Some 7.
Proof.
  apply (background_within_capacity_returns_last_value 2 1000
           [Background.OpSet "A"%string 1 0; Background.OpSet "B"%string 2 1;
            Background.OpGet "A"%string 2; Background.OpSet "A"%string 7 5;
            Background.OpGet "B"%string 6]
           "A"%string 7 5 900).
  - repeat constructor; discriminate.
  - unfold Background.withinCapacity. vm_compute. discriminate.
  - reflexivity.
  - repeat constructor.
  - lia.
Defined.

(** ** The comparison engine *)

Section SliceFacts.
Context {A : Type}.

Lemma concat_slices (chunkSize : nat) : forall (fuel : nat) (l : list A),
  (0 < chunkSize)%nat -> (length l <= fuel)%nat ->
  concat (Compare.slices fuel chunkSize l) = l.
Proof.
  induction fuel as [|fuel IH]; intros l Hpos Hlen.
  - destruct l; [done | simpl in Hlen; lia].
  - destruct l as [|a l]; [done|].
    change (take chunkSize (a :: l)
              ++ concat (Compare.slices fuel chunkSize (drop chunkSize (a :: l)))
            = a :: l).
    rewrite IH; [apply take_drop | done |].
    rewrite length_drop. simpl in *. lia.
Qed.

Lemma foldl_chunks {B} (f : B -> A -> B) (ls : list (list A)) : forall (b : B),
  foldl (λ acc chunk, foldl f acc chunk) b ls = foldl f b (concat ls).
Proof.
  induction ls as [|l ls IH]; intros b; simpl; [done|].
  by rewrite IH, foldl_app.
Qed.
End SliceFacts.

Section FloatFacts.
Local Open Scope float_scope.

(** Comparing a double with zero: what [>], [<] and [===] return. *)
Lemma float_sign_cases (d : float) :
  match Prim2SF d with
  | S754_nan => (0 <? d) = false /\ (d <? 0) = false /\ (d =? 0) = false
  | S754_zero _ => (0 <? d) = false /\ (d <? 0) = false /\ (d =? 0) = true
  | S754_infinity s | S754_finite s _ _ =>
      (0 <? d) = negb s /\ (d <? 0) = s /\ (d =? 0) = false
  end.
Proof.
  rewrite !FloatAxioms.ltb_spec, FloatAxioms.eqb_spec.
  change (Prim2SF 0) with (S754_zero false).
  destruct (Prim2SF d) as [[]|[]| |[] m e]; done.
Qed.

Lemma float_is_nan_spec (d : float) :
  PrimFloat.is_nan d = match Prim2SF d with S754_nan => true | _ => false end.
Proof.
  unfold PrimFloat.is_nan. rewrite FloatAxioms.eqb_spec.
  destruct (Prim2SF d) as [[]|[]| |[] m e] eqn:E; simpl; try done.
  - unfold SFeqb, SFcompare. rewrite Pos.compare_refl.
    by rewrite Z.compare_refl.
  - unfold SFeqb, SFcompare. rewrite Pos.compare_refl.
    by rewrite Z.compare_refl.
Qed.

(** At most one of the three tests holds, whatever the double is. *)
Lemma float_sign_exclusive (d : float) :
  ((0 <? d) && (d <? 0) = false)
  /\ ((0 <? d) && (d =? 0) = false)
  /\ ((d <? 0) && (d =? 0) = false).
Proof.
  pose proof (float_sign_cases d) as Hc.
  destruct (Prim2SF d) as [[]|[]| |[] m e];
    destruct Hc as (-> & -> & ->); done.
Qed.

(** One of them holds unless the double is NaN. *)
Lemma float_sign_exhaustive (d : float) :
  PrimFloat.is_nan d = false ->
  (0 <? d) || (d <? 0) || (d =? 0) = true.
Proof.
  rewrite float_is_nan_spec. pose proof (float_sign_cases d) as Hc.
  destruct (Prim2SF d) as [[]|[]| |[] m e];
    destruct Hc as (-> & -> & ->); done.
Qed.
End FloatFacts.

Section CompareFacts.
Context (parseInt : jsstring -> float).
Context (toPropertyKey : float -> jsstring).
Context (sfProducts tfProducts : gmap jsstring Product).
Context (sourcePlatform : string).
Context (itemMappings : gmap jsstring float).

Local Abbreviation base := (Compare.baseProducts sfProducts tfProducts sourcePlatform).
Local Abbreviation counterpart :=
  (Compare.counterpartProducts sfProducts tfProducts sourcePlatform).
Local Abbreviation compareOne :=
  (Compare.compareOne parseInt toPropertyKey sfProducts tfProducts sourcePlatform
                      itemMappings).
Local Abbreviation processId :=
  (Compare.processId parseInt toPropertyKey sfProducts tfProducts sourcePlatform
                     itemMappings).

Lemma foldl_processId_lookup (ids : list jsstring) : forall acc (k : jsstring),
  foldl processId acc ids !! k =
    match (if decide (k ∈ ids) then compareOne k else None) with
    | Some r => Some r
    | None => acc !! k
    end.
Proof.
  induction ids as [|i ids IH]; intros acc k; cbn [foldl].
  - destruct (decide (k ∈ [])) as [Hin|]; [by apply elem_of_nil in Hin | done].
  - rewrite IH. destruct (decide (k ∈ ids)) as [Hin|Hnin].
    + rewrite decide_True by (by right).
      destruct (compareOne k) eqn:Ek; [done|].
      unfold Compare.processId. destruct (compareOne i) eqn:Ei; [|done].
      rewrite lookup_insert_ne; [done|]. intros ->. congruence.
    + unfold Compare.processId. destruct (decide (k = i)) as [->|Hne].
      * rewrite decide_True by (by left).
        destruct (compareOne i); [by rewrite lookup_insert_eq | done].
      * rewrite decide_False by (rewrite elem_of_cons; tauto).
        destruct (compareOne i); [by rewrite lookup_insert_ne | done].
Qed.

Lemma compareOne_base_None (k : jsstring) :
  base !! k = None -> compareOne k = None.
Proof.
  intros Hb. unfold Compare.compareOne. cbv zeta. rewrite Hb.
  destruct (itemMappings !! _) as [cid|]; [|done].
  destruct (truthyNumber cid); [|done]. by destruct (counterpart !! _).
Qed.

(** The output object holds, under each key, what the loop body computes
    for that key. *)
Lemma processAndCompare_lookup (k : jsstring) :
  Compare.processAndCompare parseInt toPropertyKey sfProducts tfProducts
                            sourcePlatform itemMappings !! k
  = compareOne k.
Proof.
  unfold Compare.processAndCompare.
  rewrite foldl_chunks, concat_slices by lia.
  rewrite foldl_processId_lookup, lookup_empty.
  destruct (decide (k ∈ _)) as [Hin|Hnin]; [by destruct (compareOne k)|].
  destruct (compareOne k) eqn:E; [|done]. exfalso. apply Hnin.
  destruct (base !! k) as [bp|] eqn:Hb.
  - unfold Compare.productIds. apply list_elem_of_fmap. exists (k, bp).
    split; [done|]. by apply elem_of_map_to_list.
  - rewrite compareOne_base_None in E; done.
Qed.

Lemma compareOne_Some (k : jsstring) (r : ComparisonRecord) :
  compareOne k = Some r <->
  exists bp cid cp,
    base !! k = Some bp
    /\ itemMappings !! toPropertyKey (parseInt k) = Some cid
    /\ truthyNumber cid = true
    /\ counterpart !! toPropertyKey cid = Some cp
    /\ (0 <? price bp)%float = true
    /\ r = Compare.compareProducts bp cp.
Proof.
  unfold Compare.compareOne. cbv zeta. split.
  - destruct (itemMappings !! _) as [cid|]; [|done].
    destruct (truthyNumber cid) eqn:Hz; [|done].
    destruct (counterpart !! _) as [cp|] eqn:Hc; [|done].
    destruct (base !! k) as [bp|]; [|done].
    destruct (0 <? price bp)%float eqn:Hp; [|done].
    intros [= <-]. exists bp, cid, cp. split_and!; done.
  - intros (bp & cid & cp & Hb & Hm & Hz & Hc & Hp & Hr).
    by rewrite Hm, Hz, Hc, Hb, Hp, Hr.
Qed.
End CompareFacts.

(** The integer that [Math.round] picks is within one half of the exact
    quotient, and a tie goes to the larger integer. *)
Lemma roundUp_spec (m den : Z) :
  0 < den ->
  let n := Math.roundUp m den in
  (2 * n - 1) * den <= 2 * m < (2 * n + 1) * den.
Proof.
  intros Hden n. subst n. unfold Math.roundUp.
  pose proof (Z.div_mod m den ltac:(lia)) as Hdm.
  pose proof (Z.mod_pos_bound m den Hden) as Hmod.
  destruct (Z.leb_spec den (2 * (m mod den))); nia.
Qed.

(** For a negative double the magnitude is rounded with the tie going to the
    smaller magnitude, which is the larger number. *)
Lemma roundDown_spec (m den : Z) :
  0 < den ->
  let n := Math.roundDown m den in
  (2 * n - 1) * den < 2 * m <= (2 * n + 1) * den.
Proof.
  intros Hden n. subst n. unfold Math.roundDown.
  pose proof (Z.div_mod m den ltac:(lia)) as Hdm.
  pose proof (Z.mod_pos_bound m den Hden) as Hmod.
  destruct (Z.ltb_spec den (2 * (m mod den))); nia.
Qed.

(** [Math.round] on a few doubles, among them the product 0.145 * 100, which
    is 14.499999999999998 and rounds down. *)
Lemma Math_round_examples :
  Math.round 0.5 = 1%float /\ Math.round 2.5 = 3%float
  /\ Math.round (-2.5) = (-2)%float /\ Math.round 20 = 20%float
  /\ Math.round (29 / 200 * 100) = 14%float.
Proof. vm_compute. repeat split; reflexivity. Qed.

(** C1, as the code has it.  [processAndCompare] stores a record under the
    key [baseId] exactly when [baseId] is a key of the base products, the
    mapping has a truthy id (the test [if (counterpartId)]) under the key
    that the number [parseInt(baseId)] converts to, the counterpart
    collection has the key that this id converts to, and the base price is
    greater than zero.  This holds whatever [parseInt] and the conversion of
    a number to a property key are.  The record holds the two products,
    [priceDiff = basePrice - counterpartPrice] and [percentDiff =
    Math.round(Math.abs(priceDiff) / basePrice * 100)], computed on doubles.  The three flags are the tests
    [priceDiff > 0], [priceDiff < 0] and [priceDiff === 0]; no two of them
    hold together, and one of them holds unless [priceDiff] is NaN.  A base
    price that is not greater than zero gives no record.  On the scenario of
    the specification the record has [priceDiff = 20], [percentDiff = 20] and
    [isCheaper = true]. *)
Theorem processAndCompare_spec :
  (forall (parseInt : jsstring -> float) (toPropertyKey : float -> jsstring)
          (sfProducts tfProducts : gmap jsstring Product)
          (sourcePlatform : string)
          (itemMappings : gmap jsstring float) (baseId : jsstring),
     let base := Compare.baseProducts sfProducts tfProducts sourcePlatform in
     let counterpart :=
       Compare.counterpartProducts sfProducts tfProducts sourcePlatform in
     let out :=
       Compare.processAndCompare parseInt toPropertyKey sfProducts tfProducts
                                 sourcePlatform itemMappings in
     (is_Some (out !! baseId) <->
        exists bp cid cp,
          base !! baseId = Some bp
          /\ itemMappings !! toPropertyKey (parseInt baseId) = Some cid
          /\ truthyNumber cid = true
          /\ counterpart !! toPropertyKey cid = Some cp
          /\ (0 <? price bp)%float = true)
     /\ (forall r, out !! baseId = Some r ->
           (exists cid,
              itemMappings !! toPropertyKey (parseInt baseId) = Some cid
              /\ base !! baseId = Some (baseProduct r)
              /\ counterpart !! toPropertyKey cid
                 = Some (counterpartProduct r))
           /\ priceDiff r
              = (price (baseProduct r) - price (counterpartProduct r))%float
           /\ percentDiff r
              = Math.round (Math.abs (priceDiff r) / price (baseProduct r) * 100)%float
           /\ isCheaper r = (0 <? priceDiff r)%float
           /\ isMoreExpensive r = (priceDiff r <? 0)%float
           /\ isSamePrice r = (priceDiff r =? 0)%float
           /\ isCheaper r && isMoreExpensive r = false
           /\ isCheaper r && isSamePrice r = false
           /\ isMoreExpensive r && isSamePrice r = false
           /\ (PrimFloat.is_nan (priceDiff r) = false ->
               isCheaper r || isMoreExpensive r || isSamePrice r = true))
     /\ (forall bp, base !! baseId = Some bp ->
           (0 <? price bp)%float = false -> out !! baseId = None))
  /\ Compare.processAndCompare Num.parseInt Num.integerKey
       {[js "1" := plainProduct 1 100]} {[js "9" := plainProduct 9 80]}
       "snappfood" {[js "1" := 9%float]} !! js "1"
     = Some (mkComparison (plainProduct 1 100) (plainProduct 9 80)
                          20 20 true false false).
Proof.
  split; [|by vm_compute].
  intros parseInt toPropertyKey sf tf platform mappings baseId base counterpart
         out.
  subst out. split_and!.
  - rewrite processAndCompare_lookup. split.
    + intros [r Hr]. apply compareOne_Some in Hr
        as (bp & cid & cp & Hb & Hm & Hz & Hc & Hp & _).
      by exists bp, cid, cp.
    + intros (bp & cid & cp & Hb & Hm & Hz & Hc & Hp).
      exists (Compare.compareProducts bp cp). apply compareOne_Some.
      exists bp, cid, cp. split_and!; done.
  - intros r Hr. rewrite processAndCompare_lookup in Hr.
    apply compareOne_Some in Hr as (bp & cid & cp & Hb & Hm & Hz & Hc & Hp & ->).
    simpl. pose proof (float_sign_exclusive (price bp - price cp)) as (E1 & E2 & E3).
    split_and!; try done.
    + by exists cid.
    + apply float_sign_exhaustive.
  - intros bp Hb Hp. rewrite processAndCompare_lookup.
    destruct (Compare.compareOne parseInt toPropertyKey sf tf platform mappings
                                 baseId) as [r|] eqn:E; [|done].
    apply compareOne_Some in E as (bp' & cid & cp & Hb' & _ & _ & _ & Hp' & _).
    fold base in Hb'. congruence.
Qed.

(** The percentage is computed on doubles.  For a base price of 200 and a
    counterpart price of 171 the quotient 29 / 200 times 100 is
    14.499999999999998, so [percentDiff] is 14, where the exact value 14.5
    would round to 15. *)
Lemma percentDiff_double_rounding_example :
  percentDiff (Compare.compareProducts (plainProduct 1 200) (plainProduct 9 171))
  = 14%float.
Proof. reflexivity. Qed.

(** [parseInt] and the key of its result on the product keys of the
    examples: a key of at most fifteen digits without leading zeros comes
    back as it is, the key 9007199254740993 comes back as 9007199254740992,
    the nearest double, and the key 007 comes back as 7. *)
Lemma parseInt_key_examples :
  Num.integerKey (Num.parseInt (js "1")) = js "1"
  /\ Num.integerKey (Num.parseInt (js "123456789012345")) = js "123456789012345"
  /\ Num.integerKey (Num.parseInt (js "9007199254740993"))
     = js "9007199254740992"
  /\ Num.integerKey (Num.parseInt (js "007")) = js "7"
  /\ Num.integerKey (Num.parseInt (js " 42abc")) = js "42"
  /\ Num.integerKey (Num.parseInt (js "0x1f")) = js "31"
  /\ Num.integerKey (Num.parseInt (js "-0")) = js "0"
  /\ Num.integerKey (Num.parseInt (js "abc")) = js "NaN".
Proof. vm_compute. repeat split; reflexivity. Qed.

(** C1 as stated fails in four places.  A mapping to the counterpart id 0 is
    skipped by [if (counterpartId)] although product 0 is in the counterpart
    collection and the base price is positive.  When both prices are
    [Infinity] the difference is NaN: a record is stored and none of its
    three flags holds.  The mapping is read under [parseInt] of the product
    key, not under the key: the product 9007199254740993 gets no record
    although the mapping has an entry under its key, the counterpart exists
    and the price is positive, because the entry is looked for under
    9007199254740992; and the product with the key 007 gets a record although
    the mapping has no entry under 007, because the entry under 7 is read. *)
Lemma processAndCompare_counterexample :
  let processAndCompare := Compare.processAndCompare Num.parseInt Num.integerKey in
  let sf : gmap jsstring Product := {[js "1" := plainProduct 1 100]} in
  let tf : gmap jsstring Product := {[js "0" := plainProduct 0 80]} in
  let mappings : gmap jsstring float := {[js "1" := 0%float]} in
  let sfInf : gmap jsstring Product := {[js "1" := plainProduct 1 infinity]} in
  let tfInf : gmap jsstring Product := {[js "9" := plainProduct 9 infinity]} in
  let big := js "9007199254740993" in
  let sfBig : gmap jsstring Product :=
    {[big := plainProduct 9007199254740993 100]} in
  let tf9 : gmap jsstring Product := {[js "9" := plainProduct 9 80]} in
  let sfPadded : gmap jsstring Product := {[js "007" := plainProduct 7 100]} in
  (mappings !! js "1" = Some 0%float
   /\ tf !! js "0" = Some (plainProduct 0 80)
   /\ sf !! js "1" = Some (plainProduct 1 100)
   /\ (0 <? 100)%float = true
   /\ processAndCompare sf tf "snappfood" mappings !! js "1" = None)
  /\ (exists r,
        processAndCompare sfInf tfInf "snappfood" {[js "1" := 9%float]}
          !! js "1" = Some r
        /\ isCheaper r = false /\ isMoreExpensive r = false
        /\ isSamePrice r = false)
  /\ (({[big := 9%float]} : gmap jsstring float) !! big
        = Some 9%float
      /\ tf9 !! js "9" = Some (plainProduct 9 80)
      /\ sfBig !! big = Some (plainProduct 9007199254740993 100)
      /\ processAndCompare sfBig tf9 "snappfood" {[big := 9%float]} !! big
         = None)
  /\ (({[js "7" := 9%float]} : gmap jsstring float) !! js "007"
        = None
      /\ is_Some (processAndCompare sfPadded tf9 "snappfood"
                    {[js "7" := 9%float]} !! js "007")).
Proof.
  cbv zeta. split; [|split; [|split]].
  - vm_compute. repeat split; reflexivity.
  - eexists. split; [by vm_compute|]. vm_compute. repeat split; reflexivity.
  - vm_compute. repeat split; reflexivity.
  - split; [by vm_compute|]. eexists. by vm_compute.
Qed.

(** ** The [fetchPrices] handler *)

Section FetchPricesFacts.
Import FetchPrices.
Context (getVendorData : string -> jsstring -> ApiResult).
Context (fetchSnappfoodData fetchTapsifoodData
         : jsstring -> option (gmap jsstring Product)).
Context (parseInt : jsstring -> float).
Context (toPropertyKey : float -> jsstring).
Context (typeErrorMessage : jsstring).

Local Abbreviation handle :=
  (fetchPrices getVendorData fetchSnappfoodData fetchTapsifoodData
               parseInt toPropertyKey typeErrorMessage).
Local Abbreviation vendorOf := (fetchedVendor getVendorData).

(** C4. Whenever the handler gets as far as fetching products and either
    platform's fetch returns [null], the response has [success: false] and
    carries no comparison data.  A response with [success: true] exists only
    when both fetches returned products, and its data is the comparison of
    exactly those two product sets.  No response without success carries
    data. *)
Theorem fetchPrices_no_partial_result (request : Request) :
  let resp := handle request in
  (forall vi,
     vendorOf request = Some vi ->
     fetchSnappfoodData (sf_code vi) = None
     \/ fetchTapsifoodData (tf_code vi) = None ->
     rSuccess resp = false /\ rData resp = None)
  /\ (rSuccess resp = true ->
      exists vi sfProducts tfProducts mappings,
        vendorOf request = Some vi
        /\ fetchSnappfoodData (sf_code vi) = Some sfProducts
        /\ fetchTapsifoodData (tf_code vi) = Some tfProducts
        /\ rData resp
           = Some (Compare.processAndCompare parseInt toPropertyKey
                     sfProducts tfProducts
                     (default EmptyString (sourcePlatform request)) mappings))
  /\ (rSuccess resp = false -> rData resp = None).
Proof.
  unfold fetchPrices, fetchedVendor, unexpected.
  destruct (negb (truthyPlatform (sourcePlatform request)) || _); [done|].
  destruct (apiResultOf getVendorData request) as [apiResult|]; [|done].
  destruct (success apiResult); simpl; [|done].
  destruct (data apiResult) as [d|]; simpl; [|done].
  destruct (vendor_info d) as [vi|]; simpl; [|done].
  destruct (fetchSnappfoodData (sf_code vi)) as [sfProducts|] eqn:Hsf;
    destruct (fetchTapsifoodData (tf_code vi)) as [tfProducts|] eqn:Htf;
    simpl.
  - destruct (item_mappings d) as [mappings|]; simpl.
    + split_and!; [|by exists vi, sfProducts, tfProducts, mappings | done].
      intros vi' [= <-]. rewrite Hsf, Htf. by intros [|].
    + done.
  - done.
  - done.
  - done.
Qed.
End FetchPricesFacts.

(** The handler on two outcomes of the network: TapsiFood fails and the
    response carries only the error text; both succeed and the response
    carries the comparison of the scenario. *)
Lemma fetchPrices_examples :
  let request := FetchPrices.mkRequest (Some (js "sf1")) None (Some "snappfood"%string) in
  let api := λ (_ : string) (_ : jsstring),
    FetchPrices.mkApiResult true
      (Some (FetchPrices.mkApiData
               (Some (FetchPrices.mkVendorInfo (js "sf1") (js "tf1")))
               (Some {[js "1" := 9%float]})))
      None None in
  let sf := λ _ : jsstring,
    Some ({[js "1" := plainProduct 1 100]} : gmap jsstring Product) in
  let tf := λ _ : jsstring,
    Some ({[js "9" := plainProduct 9 80]} : gmap jsstring Product) in
  let down := λ _ : jsstring, (None : option (gmap jsstring Product)) in
  let fetchPrices := λ sf tf,
    FetchPrices.fetchPrices api sf tf Num.parseInt Num.integerKey [] in
  fetchPrices sf down request
    = FetchPrices.failure
        (js "Failed to fetch product data from one or both platforms. (TapsiFood failed)")
  /\ FetchPrices.rSuccess (fetchPrices sf tf request) = true
  /\ (FetchPrices.rData (fetchPrices sf tf request) ≫= (.!! js "1"))
     = Some (mkComparison (plainProduct 1 100) (plainProduct 9 80)
                          20 20 true false false).
Proof. split_and!; by vm_compute. Qed.

(** ** Vendor reconciliation *)

Section ReconcileFacts.
Import Reconcile.
Context (numberToString : float -> jsstring).

Local Abbreviation processLink := (Reconcile.processLink numberToString).
Local Abbreviation processChunk := (Reconcile.processChunk numberToString).
Local Abbreviation processVendorElements :=
  (Reconcile.processVendorElements numberToString).
Local Abbreviation highlightVendor := (Reconcile.highlightVendor numberToString).
Local Abbreviation runEpoch := (Reconcile.runEpoch numberToString).

(** The chunks of a pass visit the links of the snapshot once each, in order. *)
Lemma processChunk_foldl (links : list Link) (chunkSize : nat) :
  (0 < chunkSize)%nat ->
  forall (fuel startIndex : nat) acc,
    (length links - startIndex <= fuel)%nat ->
    processChunk fuel links startIndex chunkSize acc
    = foldl processLink acc (drop startIndex links).
Proof.
  intros Hpos. induction fuel as [|fuel IH]; intros startIndex acc Hfuel.
  - rewrite drop_ge by lia. done.
  - cbn [Reconcile.processChunk].
    destruct (Nat.ltb_spec ((startIndex + chunkSize) `min` length links)
                           (length links)) as [Hlt|Hge].
    + rewrite Nat.min_l in * by lia. rewrite IH by lia.
      replace (startIndex + chunkSize - startIndex)%nat with chunkSize by lia.
      rewrite <- foldl_app. f_equal.
      rewrite <- drop_drop. apply take_drop.
    + f_equal. apply take_ge. rewrite length_drop. lia.
Qed.

Lemma processVendorElements_foldl (st : State) (links : list Link) :
  processVendorElements st links = (foldl processLink (∅, st) links).2.
Proof.
  unfold Reconcile.processVendorElements. destruct links as [|l links]; [done|].
  rewrite processChunk_foldl; [done | unfold VENDOR_CHUNK_SIZE; lia | lia].
Qed.

(** *** Each decoration key at most once *)







End ReconcileFacts.

Section ReconcilePassFacts.
Import Reconcile.
Context (numberToString : float -> jsstring).

Local Abbreviation processLink := (Reconcile.processLink numberToString).
Local Abbreviation processVendorElements :=
  (Reconcile.processVendorElements numberToString).
Local Abbreviation highlightVendor := (Reconcile.highlightVendor numberToString).









End ReconcilePassFacts.



Section HighlightFacts.
Import Reconcile.
Context (numberToString : float -> jsstring).

Lemma highlightVendor_seen st el code rating isPaired isHighRated :
  uniqueId numberToString code rating isPaired isHighRated ∈ processedVendors st ->
  highlightVendor numberToString st (Some el) code rating isPaired isHighRated = st.
Proof. intros Hseen. unfold highlightVendor. by rewrite bool_decide_eq_true_2. Qed.

Lemma highlightVendor_records st el code rating isPaired isHighRated :
  uniqueId numberToString code rating isPaired isHighRated
  ∈ processedVendors
      (highlightVendor numberToString st (Some el) code rating isPaired isHighRated).
Proof.
  unfold highlightVendor. case_bool_decide as Hseen; [done|].
  simpl. by apply elem_of_union_l, elem_of_singleton.
Qed.

(** Decoration is idempotent: a second [highlightVendor] with the same
    arguments changes nothing. *)
Lemma highlightVendor_idempotent st el code rating isPaired isHighRated :
  let st' := highlightVendor numberToString st (Some el) code rating isPaired
                             isHighRated in
  highlightVendor numberToString st' (Some el) code rating isPaired isHighRated
  = st'.
Proof. intros st'. apply highlightVendor_seen, highlightVendor_records. Qed.
End HighlightFacts.

(** The last scenario of the specification: a paired vendor is decorated
    by a pass, a second pass over the same links adds nothing, and after a
    reset of the epoch (and the reload of the paired vendors) the same pass
    decorates it again. *)
Lemma reconcile_reset_scenario :
  let toStr : float -> jsstring := λ _, js "4.5" in
  let links := [Reconcile.mkLink (Some (js "v1")) (Some 1%N) None] in
  let start := Reconcile.mkState {[js "v1"]} ∅ ∅ 0 [] in
  let once := Reconcile.processVendorElements toStr start links in
  let twice := Reconcile.processVendorElements toStr once links in
  let again :=
    Reconcile.runEpoch toStr (Reconcile.reset twice)
                       [Reconcile.PairedUpdate {[js "v1"]}; Reconcile.Pass links] in
  length (Reconcile.decorations once) = 1%nat
  /\ Reconcile.decorations twice = Reconcile.decorations once
  /\ length (Reconcile.decorations again) = 1%nat.
Proof. split_and!; by vm_compute. Qed.

(** ** String methods, arrays and sorting *)

Section StrFacts.

(** [startsWith] tests for a prefix. *)
Lemma startsWith_spec (text word : jsstring) :
  Str.startsWith text word = true <-> exists rest, text = word ++ rest.
Proof.
  revert text. induction word as [|w word IH]; intros text; simpl.
  - split; [intros _; by exists text | done].
  - destruct text as [|c text]; simpl.
    + split; [done | by intros [rest ?]].
    + rewrite andb_true_iff, N.eqb_eq, IH. split.
      * intros [-> [rest ->]]. by exists rest.
      * intros [rest [= -> ->]]. split; [done | by exists rest].
Qed.

(** [includes] tests for a substring. *)
Lemma includes_spec (text word : jsstring) :
  Str.includes text word = true <-> exists before rest, text = before ++ word ++ rest.
Proof.
  induction text as [|c text IH]; simpl.
  - rewrite orb_false_r, startsWith_spec. split.
    + intros [rest ->]. by exists [], rest.
    + intros (before & rest & Heq). symmetry in Heq.
      apply app_eq_nil in Heq as [-> Heq]. apply app_eq_nil in Heq as [-> ->].
      by exists [].
  - rewrite orb_true_iff, IH.
    change (match word with
            | [] => true
            | w :: word' => (c =? w)%N && Str.startsWith text word'
            end) with (Str.startsWith (c :: text) word).
    rewrite startsWith_spec. split.
    + intros [[rest Heq]|(before & rest & ->)].
      * by exists [], rest.
      * by exists (c :: before), rest.
    + intros ([|c' before] & rest & Heq).
      * left. by exists rest.
      * right. injection Heq as -> ->. by exists before, rest.
Qed.

(** A text that has none of the characters of a non-empty word does not
    include the word. *)
Lemma includes_no_shared_character (text word : jsstring) :
  word ≠ [] -> sharesNoCharacter word text -> Str.includes text word = false.
Proof.
  intros Hne Hshare. apply not_true_is_false. rewrite includes_spec.
  intros (before & rest & ->). destruct word as [|w word]; [done|].
  apply (Hshare w); [by left|]. apply elem_of_app. right. by left.
Qed.
End StrFacts.

Section HeapFacts.
Import Search.

Lemma arrays_withArrays b h l : arrays b (withArrays b h l) = l.
Proof. by destruct b. Qed.

Lemma read_write b h r a :
  read b (write b h r a) r
  = if (r <? length (arrays b h))%nat then a else [].
Proof.
  unfold read, write. rewrite arrays_withArrays.
  destruct (Nat.ltb_spec r (length (arrays b h))) as [Hlt|Hge].
  - by rewrite list_lookup_insert_eq.
  - rewrite list_insert_ge by done. by rewrite lookup_ge_None_2.
Qed.

Lemma read_dangling b h r : (length (arrays b h) <= r)%nat -> read b h r = [].
Proof. intros Hge. unfold read. by rewrite lookup_ge_None_2. Qed.

Lemma read_alloc_old b h a r :
  (r < length (arrays b h))%nat -> read b (alloc b h a).1 r = read b h r.
Proof.
  intros Hlt. unfold read, alloc. simpl. rewrite arrays_withArrays.
  by rewrite lookup_app_l.
Qed.

Lemma read_alloc_new b h a : read b (alloc b h a).1 (alloc b h a).2 = a.
Proof.
  unfold read, alloc. simpl. rewrite arrays_withArrays.
  by rewrite list_lookup_middle.
Qed.

(** Sorting in place: afterwards the reference names the sorted array. *)
Lemma read_write_sorted b h r (after : Scored (ItemOf b) -> Scored (ItemOf b) -> bool) :
  read b (write b h r (jsSort after (read b h r))) r = jsSort after (read b h r).
Proof.
  rewrite read_write. destruct (Nat.ltb_spec r (length (arrays b h))); [done|].
  by rewrite read_dangling.
Qed.
End HeapFacts.

Section SortFacts.
Context {A : Type} (after : A -> A -> bool).

Lemma sortInsert_Permutation x l : sortInsert after x l ≡ₚ x :: l.
Proof.
  induction l as [|y l IH]; simpl; [done|].
  destruct (after x y); [|done]. rewrite IH. apply Permutation_swap.
Qed.

(** The sorted array has the elements of the input. *)
Lemma jsSort_Permutation l : jsSort after l ≡ₚ l.
Proof.
  induction l as [|x l IH]; simpl; [done|].
  rewrite sortInsert_Permutation. by rewrite IH.
Qed.

Lemma jsSort_length l : length (jsSort after l) = length l.
Proof. by rewrite jsSort_Permutation. Qed.

(** For a consistent comparator the result is in order: no element comes
    before one it should come after. *)
Section Ordered.
Hypothesis after_asymmetric : forall a b, after a b = true -> after b a = false.
Hypothesis notAfter_transitive :
  forall a b c, after a b = false -> after b c = false -> after a c = false.

Lemma sortInsert_sorted x l :
  StronglySorted (λ a b, after a b = false) l ->
  StronglySorted (λ a b, after a b = false) (sortInsert after x l).
Proof using after_asymmetric notAfter_transitive.
  induction 1 as [|y l Hs IH Hall]; simpl.
  - constructor; [constructor | done].
  - destruct (after x y) eqn:Hxy.
    + constructor; [done|].
      rewrite sortInsert_Permutation. constructor; [|done].
      by apply after_asymmetric.
    + constructor; [by constructor|]. constructor; [done|].
      eapply Forall_impl; [exact Hall|]. intros z Hyz.
      by apply (notAfter_transitive x y z).
Qed.

Lemma jsSort_sorted l : StronglySorted (λ a b, after a b = false) (jsSort after l).
Proof using after_asymmetric notAfter_transitive.
  induction l as [|x l IH]; simpl; [constructor|]. by apply sortInsert_sorted.
Qed.
End Ordered.

(** Elements that the comparator does not order stay in their input order:
    inserting in front of a list whose elements do not come before [x]
    leaves [x] at the head. *)
Lemma sortInsert_head x l :
  Forall (λ y, after x y = false) l -> sortInsert after x l = x :: l.
Proof.
  destruct l as [|y l]; [done|]. intros Hall. simpl.
  apply Forall_cons in Hall as [-> _]. done.
Qed.
End SortFacts.

(** ** The search cache and sorting in place *)

Section SearchCacheFacts.
Import Search.
Context (toLowerCase : jsstring -> jsstring).
Context (localeCompare : jsstring -> jsstring -> Z).

Local Abbreviation search := (performAdvancedSearch toLowerCase localeCompare).


Lemma keyOf_withSort query sortType st : keyOf query (withSort sortType st) = keyOf query st.
Proof. done. Qed.

Lemma keyOf_withMaxPrice query m st : keyOf query (withMaxPrice m st) = keyOf query st.
Proof. done. Qed.

Lemma keyOf_search query query' st : keyOf query' (search query st) = keyOf query' st.
Proof.
  unfold performAdvancedSearch.
  destruct (Content.get _ _) as [[results|] cache]; [done|].
  by destruct (computeResults _ _ _ _).
Qed.

(** After a search its result is in the cache under the key of the search. *)
Lemma search_caches_result query st :
  JsMap.get (keyOf query st) (Content.cache (searchCache (search query st)))
  = Some (searchResults (searchManager (search query st))).
Proof.
  unfold performAdvancedSearch, keyOf.
  destruct (JsMap.get (cacheKeyOf query (currentCategory (searchManager st))
                                  (hasProductDataOf st))
                      (Content.cache (searchCache st))) as [results|] eqn:Hc.
  - rewrite (content_get_hit _ _ _ Hc). simpl. apply get_set_eq.
  - rewrite (content_get_miss _ _ Hc).
    destruct (computeResults _ _ _ _) as [h r]. simpl. apply get_set_eq.
Qed.

(** A hit returns the cached reference and leaves the heap alone. *)
Lemma search_hit query st results :
  JsMap.get (keyOf query st) (Content.cache (searchCache st)) = Some results ->
  searchResults (searchManager (search query st)) = results
  /\ filteredResults (searchManager (search query st)) = results
  /\ heap (search query st) = heap st.
Proof.
  intros Hc. unfold performAdvancedSearch. unfold keyOf in Hc.
  by rewrite (content_get_hit _ _ _ Hc).
Qed.

(** C8. The key of the search cache is built from the query, the category
    and [hasProductData] only.  So after any search, choosing another sort
    order and another maximum price and searching the same query again
    returns the array of the first search: the same reference, with the heap
    (hence the order and the content of the array) unchanged. *)
Theorem search_cache_ignores_sort_and_maxPrice
    (query : jsstring) (st : PageState) (sortType : string) (m : option float) :
  let first := search query st in
  let second := search query (withMaxPrice m (withSort sortType first)) in
  keyOf query (withMaxPrice m (withSort sortType first)) = keyOf query st
  /\ searchResults (searchManager second) = searchResults (searchManager first)
  /\ filteredResults (searchManager second) = searchResults (searchManager first)
  /\ heap second = heap first
  /\ contents (heap second) (searchResults (searchManager second))
     = contents (heap first) (searchResults (searchManager second)).
Proof.
  intros first second.
  assert (keyOf query (withMaxPrice m (withSort sortType first)) = keyOf query st)
    as Hkey.
  { rewrite keyOf_withMaxPrice, keyOf_withSort. apply keyOf_search. }
  pose proof (search_caches_result query st) as Hcached. fold first in Hcached.
  destruct (search_hit query (withMaxPrice m (withSort sortType first))
              (searchResults (searchManager first))) as (Hr & Hf & Hh).
  { by rewrite Hkey. }
  fold second in Hr, Hf, Hh. split_and!; try done.
  by rewrite Hh.
Qed.
End SearchCacheFacts.

(** C8 on a run: the vendors "b", "a" are searched with the empty query in
    the order they arrived; the user then picks the sort by name and the
    same search runs again.  The result is still "b", "a". *)
Lemma search_cache_ignores_sort_example :
  let st := Search.vendorPage [Search.flatVendor "b" "b" "2" "2";
                      Search.flatVendor "a" "a" "1" "1"]
                              "all" "relevance" in
  let first := Search.performAdvancedSearch Str.lowerAscii compareCodeUnits [] st in
  let second :=
    Search.performAdvancedSearch Str.lowerAscii compareCodeUnits []
      (Search.withSort "name-asc" first) in
  Search.sfNameOf <$>
    Search.contents (Search.heap second)
                    (Search.searchResults (Search.searchManager second))
  = [js "b"; js "a"].
Proof. by vm_compute. Qed.

(** [Object.values] lists the values in ascending order of the ids. *)
Lemma objectValues_example :
  Search.objectValues ({[30 := 3; 4 := 1; 17 := 2; 100000 := 4]} : gmap Z Z)
  = [1; 2; 3; 4].
Proof. by vm_compute. Qed.

Section SortingFacts.
Import Search.
Context (toLowerCase : jsstring -> jsstring).
Context (localeCompare : jsstring -> jsstring -> Z).

Local Abbreviation search := (performAdvancedSearch toLowerCase localeCompare).
Local Abbreviation applySorting := (Search.applySorting localeCompare).
Local Abbreviation sortOrder := (Search.sortOrder localeCompare).


(** When the sort type selects a comparator, the array behind that
    reference is replaced by its sorted version. *)
Lemma applySorting_in_place h results sortType b after :
  sortOrder sortType b = Some after ->
  read b (applySorting h results sortType b).1 results
  = jsSort after (read b h results).
Proof.
  intros Ho. unfold Search.applySorting. rewrite Ho. simpl.
  apply read_write_sorted.
Qed.


End SortingFacts.



(** A result that was cached earlier changes with the vendor list.  The
    first search, in arrival order, caches the vendor list "b", "a" itself.
    The user then picks the category of the favorites and the sort by name;
    the next search misses the cache and sorts the vendor list.  The array
    cached by the first search now reads "a", "b". *)
Lemma applySorting_reorders_cached_result_example :
  let st := Search.vendorPage [Search.flatVendor "b" "b" "2" "2";
                               Search.flatVendor "a" "a" "1" "1"]
                              "all" "relevance" in
  let first := Search.performAdvancedSearch Str.lowerAscii compareCodeUnits [] st in
  let cached := Search.searchResults (Search.searchManager first) in
  let second :=
    Search.performAdvancedSearch Str.lowerAscii compareCodeUnits []
      (Search.withCategory "favorites" (Search.withSort "name-asc" first)) in
  JsMap.get (js "-all-false") (Content.cache (Search.searchCache second))
    = Some cached
  /\ Search.sfNameOf <$> Search.contents (Search.heap first) cached
     = [js "b"; js "a"]
  /\ Search.sfNameOf <$> Search.contents (Search.heap second) cached
     = [js "a"; js "b"].
Proof. split_and!; by vm_compute. Qed.

(** ** Ranking *)

Section RankingFacts.
Import Search.
Context (toLowerCase : jsstring -> jsstring).

Local Abbreviation similarity := (calculateSimpleSimilarity toLowerCase).
Local Abbreviation wordScore := (Search.wordScore toLowerCase).
Local Abbreviation scoreText := (Search.scoreText toLowerCase).

Lemma foldl_bonus_nonneg {A} (bonus : A -> Z) (l : list A) : forall z,
  (forall x, 0 <= bonus x) -> 0 <= z -> 0 <= foldl (λ z x, z + bonus x) z l.
Proof.
  induction l as [|x l IH]; intros z Hb Hz; simpl; [done|].
  apply IH; [done|]. specialize (Hb x). lia.
Qed.

Lemma similarity_nonneg query text : 0 <= similarity query text.
Proof.
  unfold calculateSimpleSimilarity.
  set (start := if (_ =? _)%nat then _ else _).
  assert (0 <= start) as Hstart.
  { subst start. destruct (_ =? _)%nat; lia. }
  revert Hstart. generalize start.
  induction (Str.splitSpaces _) as [|w ws IH]; intros z Hz; simpl; [done|].
  apply IH. destruct (_ && _); lia.
Qed.

Lemma wordScore_nonneg text word : 0 <= wordScore text word.
Proof.
  unfold Search.wordScore. destruct (Str.includes text word).
  - destruct (_ || _); lia.
  - apply similarity_nonneg.
Qed.

(** A text shorter than 50 characters scores at least 10 for every query,
    whatever the query and the text have in common. *)
Lemma scoreText_short lowerQuery queryWords text :
  (length text < 50)%nat -> 10 <= scoreText lowerQuery queryWords text.
Proof.
  intros Hshort. unfold Search.scoreText.
  destruct (Nat.ltb_spec (length text) 50) as [_|]; [|lia].
  pose proof (foldl_bonus_nonneg (wordScore text) queryWords
                (if Str.includes text lowerQuery then 1000 else 0)
                (wordScore_nonneg text)) as Hsum.
  assert (0 <= (if Str.includes text lowerQuery then 1000 else 0)) as H0
    by (destruct (Str.includes _ _); lia).
  specialize (Hsum H0). lia.
Qed.

(** The fallback compares normalized strings: texts with one normal form get
    one similarity. *)
Lemma similarity_normalized query text text' :
  normalizeText toLowerCase text = normalizeText toLowerCase text' ->
  similarity query text = similarity query text'.
Proof. intros Hn. unfold calculateSimpleSimilarity. by rewrite Hn. Qed.
End RankingFacts.

(** C6, the failing search.  The vendor "ab"/"cd" with the codes "1" and
    "2" is searched by the text "ab cd 1 2", which shares no character with
    the query "z".  Its score is 10, the bonus for a text shorter than 50
    characters, which is above the threshold 5: the record is in the result.
    Every record with a short text is kept in this way, for every query. *)
Theorem performSmartSearch_keeps_unrelated_short_text :
  let vendor := Search.flatVendor "ab" "cd" "1" "2" in
  let result :=
    Search.rank Str.lowerAscii false (js "z") [unscored vendor] in
  Search.searchableTextOf Str.lowerAscii false vendor = js "ab cd 1 2"
  /\ sharesNoCharacter (js "z") (js "ab cd 1 2")
  /\ result = [mkScored vendor (Some 10) (Some (js "ab cd 1 2"))]
  /\ (forall toLowerCase hasProductData query entry,
        (length (Search.searchableTextOf toLowerCase hasProductData (item entry))
         < 50)%nat ->
        5 < Search.scoreOf (Search.scoreItem toLowerCase hasProductData query entry)).
Proof.
  split_and!.
  - reflexivity.
  - intros c Hc. apply list_elem_of_singleton in Hc. subst c.
    vm_compute. intros Hin. by repeat (apply elem_of_cons in Hin as [?|Hin]; [done|]);
      apply elem_of_nil in Hin.
  - reflexivity.
  - intros toLowerCase b query entry Hshort. unfold Search.scoreItem, Search.scoreOf.
    simpl. pose proof (scoreText_short toLowerCase
                         (Search.lowerQueryOf toLowerCase query)
                         (Search.queryWordsOf toLowerCase query) _ Hshort). lia.
Qed.

(** C7, the failing search.  Two vendors whose names differ only in the
    variant of the letter kaf have the same normalized text, yet against the
    query with the Persian letter they score 1160 and 100: the substring and
    word tests of [performSmartSearch] compare the lower-cased strings
    without [normalizeText], which only the similarity fallback applies. *)
Theorem performSmartSearch_scores_variants_differently :
  let vendorOf nm :=
    mkVendor (mkVendorMapping (Some (js "1")) (Some nm) (Some (js "2"))
                              (Some (js "x"))) None in
  let textOf nm := Search.searchableTextOf Str.lowerAscii false (vendorOf nm) in
  let scoreOf nm :=
    Search.scoreOf (Search.scoreItem Str.lowerAscii false kababPersian
                                     (unscored (vendorOf nm))) in
  Search.normalizeText Str.lowerAscii (textOf kababPersian)
    = Search.normalizeText Str.lowerAscii (textOf kababArabic)
  /\ scoreOf kababPersian = 1160
  /\ scoreOf kababArabic = 100.
Proof. split_and!; reflexivity. Qed.

Section NoSharedCharacterFacts.
Import Search.
Context (toLowerCase : jsstring -> jsstring).

Local Abbreviation similarity := (calculateSimpleSimilarity toLowerCase).
Local Abbreviation normalize := (normalizeText toLowerCase).

Lemma sharesNoCharacter_Forall (query text : jsstring) :
  sharesNoCharacter query text <-> Forall (λ c, c ∉ text) query.
Proof. unfold sharesNoCharacter. by rewrite Forall_forall. Qed.

Lemma sharesNoCharacter_tail (query : jsstring) c text :
  sharesNoCharacter query (c :: text) -> sharesNoCharacter query text.
Proof. intros Hs q Hq Hin. apply (Hs q Hq). by right. Qed.

Lemma matchInOrder_no_shared_character (text query : jsstring) :
  sharesNoCharacter query text -> matchInOrder text query = O.
Proof.
  induction text as [|c text IH]; intros Hs; [done|].
  destruct query as [|q query]; [done|]. simpl.
  destruct (N.eqb_spec c q) as [->|Hne].
  - exfalso. apply (Hs q); by left.
  - apply IH. by apply sharesNoCharacter_tail in Hs.
Qed.

Lemma elem_of_rev_inv (c : N) (l : jsstring) : c ∈ rev l -> c ∈ l.
Proof. rewrite !list_elem_of_In. apply in_rev. Qed.

(** The fields of a split are made of characters of the string. *)
Lemma splitFrom_characters (s : jsstring) : forall cur inSpace w c,
  w ∈ Str.splitFrom cur inSpace s -> c ∈ w -> c ∈ cur \/ c ∈ s.
Proof.
  induction s as [|ch s IH]; intros cur inSpace w c Hw Hc; simpl in Hw.
  - apply list_elem_of_singleton in Hw. subst w. left. by apply elem_of_rev_inv.
  - destruct (Str.isWhiteSpace ch).
    + destruct inSpace.
      * destruct (IH _ _ _ _ Hw Hc) as [?|?]; [by left | right; by right].
      * apply elem_of_cons in Hw as [->|Hw].
        -- left. by apply elem_of_rev_inv.
        -- destruct (IH _ _ _ _ Hw Hc) as [Hnil|?]; [|right; by right].
           by apply elem_of_nil in Hnil.
    + destruct (IH _ _ _ _ Hw Hc) as [Hcur|?]; [|right; by right].
      apply elem_of_cons in Hcur as [->|?]; [right; by left | by left].
Qed.

Lemma splitSpaces_characters (s w : jsstring) c :
  w ∈ Str.splitSpaces s -> c ∈ w -> c ∈ s.
Proof.
  intros Hw Hc. destruct (splitFrom_characters s [] false w c Hw Hc) as [Hnil|?];
    [by apply elem_of_nil in Hnil | done].
Qed.

Lemma foldl_unchanged {A B} (f : B -> A -> B) (l : list A) (b : B) :
  (forall b x, x ∈ l -> f b x = b) -> foldl f b l = b.
Proof.
  revert b. induction l as [|x l IH]; intros b Hf; simpl; [done|].
  rewrite Hf by (by left). apply IH. intros b' y Hy. apply Hf. by right.
Qed.

(** The fallback gives nothing for a word that has no character in common
    with the text, both normalized. *)
Lemma similarity_no_shared_character (query text : jsstring) :
  normalize query ≠ [] ->
  sharesNoCharacter (normalize query) (normalize text) ->
  similarity query text = 0.
Proof.
  intros Hne Hs. unfold calculateSimpleSimilarity.
  rewrite matchInOrder_no_shared_character by done.
  destruct (normalize query) as [|q nq] eqn:Hq; [done|]. cbn [length Nat.eqb].
  apply foldl_unchanged. intros z w Hw.
  destruct (Nat.ltb_spec 1 (length w)) as [Hlong|]; [|done].
  rewrite includes_no_shared_character; [done | |].
  - intros ->. simpl in Hlong. lia.
  - intros c Hc. apply Hs. by apply (splitSpaces_characters _ w).
Qed.

(** Every record of the ranked result scores above the threshold. *)
Lemma rank_above_threshold b query (data : Array b) (r : Scored (ItemOf b)) :
  r ∈ rank toLowerCase b query data -> 5 < scoreOf r.
Proof.
  unfold rank. rewrite jsSort_Permutation. intros Hin.
  by apply list_elem_of_filter in Hin as [? _].
Qed.

(** X7. A record whose text has 50 characters or more and no character in
    common with the query, before and after normalization, scores 0 and is
    not in the ranked result. *)
Lemma rank_discards_long_unrelated_text b query (data : Array b)
    (entry : Scored (ItemOf b)) :
  let text := searchableTextOf toLowerCase b (item entry) in
  (50 <= length text)%nat ->
  lowerQueryOf toLowerCase query ≠ [] ->
  sharesNoCharacter (lowerQueryOf toLowerCase query) text ->
  (forall word, word ∈ queryWordsOf toLowerCase query ->
     normalize word ≠ []
     /\ sharesNoCharacter (normalize word) (normalize text)) ->
  scoreOf (scoreItem toLowerCase b query entry) = 0
  /\ scoreItem toLowerCase b query entry ∉ rank toLowerCase b query data.
Proof.
  intros text Hlong Hquery Hraw Hnorm.
  assert (scoreOf (scoreItem toLowerCase b query entry) = 0) as Hzero.
  { unfold scoreItem, scoreOf. simpl. fold text. unfold scoreText.
    rewrite includes_no_shared_character by done.
    destruct (Nat.ltb_spec (length text) 50) as [|_]; [lia|].
    apply foldl_unchanged. intros z word Hword.
    unfold wordScore. unfold queryWordsOf in *.
    pose proof Hword as Hin. apply list_elem_of_filter in Hin as [Hlen Hsplit].
    rewrite includes_no_shared_character.
    - destruct (Hnorm word Hword) as [Hne Hs].
      rewrite similarity_no_shared_character by done. lia.
    - intros ->. simpl in Hlen. lia.
    - intros c Hc. apply Hraw. by apply (splitSpaces_characters _ word). }
  split; [done|]. intros Hin. apply rank_above_threshold in Hin. lia.
Qed.
End NoSharedCharacterFacts.

(** A vendor whose names fill 62 characters, none of them "z": the query
    "z" gives it the score 0 and it is not in the result. *)
Lemma rank_discards_long_unrelated_text_witness :
  let vendor :=
    Search.flatVendor "aaaaaaaaaaaaaaaaaaaaaaaaaaaaaa" "bbbbbbbbbbbbbbbbbbbbbbbbbbbbbb"
                      "1" "2" in
  Search.scoreOf (Search.scoreItem Str.lowerAscii false (js "z") (unscored vendor))
  = 0.
Proof.
  intros vendor.
  apply (rank_discards_long_unrelated_text Str.lowerAscii false (js "z")
           [unscored vendor] (unscored vendor)).
  - vm_compute. lia.
  - discriminate.
  - apply sharesNoCharacter_Forall. by_evaluation.
  - intros word Hword. vm_compute in Hword.
    apply list_elem_of_singleton in Hword. subst word. split; [discriminate|].
    apply sharesNoCharacter_Forall. by_evaluation.
Defined.

(** ** Reconciliation: elements, styles and repeated passes *)

Section ReconcileElementFacts.
Import Reconcile.
Context (numberToString : float -> jsstring).

Local Abbreviation processLink := (Reconcile.processLink numberToString).
Local Abbreviation processVendorElements :=
  (Reconcile.processVendorElements numberToString).

Lemma truthy_highRated rating :
  truthy (highRated rating) = true ->
  exists r, rating = Some r /\ (RATING_THRESHOLD <=? r)%float = true.
Proof.
  destruct rating as [r|]; [|done]. unfold highRated.
  destruct (truthyNum r) eqn:Hr; simpl.
  - intros H. by exists r.
  - by rewrite Hr.
Qed.

(** What one link does: nothing to the decorations, or one decoration on a
    container that was not processed before, in the style that the paired
    vendors and the rating select. *)
Lemma processLink_cases acc link :
  pairedVendors (processLink acc link).2 = pairedVendors acc.2
  /\ processedElements acc.2 ⊆ processedElements (processLink acc link).2
  /\ (decorations (processLink acc link).2 = decorations acc.2
      \/ exists d,
           decorations (processLink acc link).2 = decorations acc.2 ++ [d]
           /\ vendorCode link = Some (dVendorCode d)
           /\ container link = Some (target d)
           /\ (target d ∉ processedElements acc.2)
           /\ target d ∈ processedElements (processLink acc link).2
           /\ styleJustified (pairedVendors acc.2) link d).
Proof.
  destruct acc as [pc st]. unfold Reconcile.processLink. cbn [fst snd].
  destruct (vendorCode link) as [code|] eqn:Hcode; [|by split_and!; [| set_solver | left]].
  destruct (truthyStr (Some code) && negb (bool_decide (code ∈ pc)));
    [|by split_and!; [| set_solver | left]].
  destruct (container link) as [el|] eqn:Hel; [|by split_and!; [| set_solver | left]].
  case_bool_decide as Hseen; [by split_and!; [| set_solver | left]|].
  cbn [fst snd pairedVendors processedVendors processedElements decorations
       vendorsProcessed].
  set (rating := if (size ({[code]} ∪ pc) <=? 100)%nat
                 then extractedRating link else None).
  destruct (bool_decide (code ∈ pairedVendors st) || truthy (highRated rating))
    eqn:Hgate.
  2:{ cbn. split_and!; [done | set_solver | by left]. }
  unfold Reconcile.highlightVendor.
  cbn [fst snd pairedVendors processedVendors processedElements decorations
       vendorsProcessed].
  match goal with
  | |- context [bool_decide (?u ∈ processedVendors st)] =>
      destruct (bool_decide (u ∈ processedVendors st))
  end.
  { cbn. split_and!; [done | set_solver | by left]. }
  destruct (styleOf (bool_decide (code ∈ pairedVendors st)) (highRated rating))
    as [s|] eqn:Hstyle.
  2:{ cbn. rewrite app_nil_r. split_and!; [done | set_solver | by left]. }
  cbn. split_and!; [done | set_solver |]. right. eexists. split; [done|].
  cbn. split_and!; [done | done | done | set_solver |].
  unfold styleJustified. cbn. unfold styleOf in Hstyle.
  assert (truthy (highRated rating) = true -> ratedHigh link) as Hhigh.
  { intros Ht. apply truthy_highRated in Ht as (r & Hr & Hge). exists r.
    split; [|done]. unfold rating in Hr.
    by destruct (size ({[code]} ∪ pc) <=? 100)%nat. }
  destruct (bool_decide (code ∈ pairedVendors st)) eqn:Hp;
    destruct (truthy (highRated rating)) eqn:Hh; simpl in Hstyle;
    try discriminate; injection Hstyle as <-.
  - split; [by apply bool_decide_eq_true in Hp | by apply Hhigh].
  - by apply bool_decide_eq_true in Hp.
  - split; [by apply bool_decide_eq_false in Hp | by apply Hhigh].
Qed.






(** The decorations that the links add, each with its link and its style. *)
Lemma foldl_processLink_justified links : forall acc,
  pairedVendors (foldl processLink acc links).2 = pairedVendors acc.2
  /\ processedElements acc.2 ⊆ processedElements (foldl processLink acc links).2
  /\ exists added,
       decorations (foldl processLink acc links).2 = decorations acc.2 ++ added
       /\ forall d, d ∈ added ->
            (target d ∉ processedElements acc.2)
            /\ exists link, link ∈ links
                 /\ vendorCode link = Some (dVendorCode d)
                 /\ container link = Some (target d)
                 /\ styleJustified (pairedVendors acc.2) link d.
Proof.
  induction links as [|l links IH]; intros acc; cbn [foldl].
  - split_and!; [done | done |]. exists []. rewrite app_nil_r. split; [done|].
    intros d Hd. by apply elem_of_nil in Hd.
  - destruct (processLink_cases acc l) as (Hp1 & Hs1 & Hd1).
    destruct (IH (processLink acc l)) as (Hp2 & Hs2 & added & Heq & Hadd).
    split_and!; [congruence | set_solver |].
    assert (forall d, d ∈ added ->
              (target d ∉ processedElements acc.2)
              /\ exists link, link ∈ l :: links
                   /\ vendorCode link = Some (dVendorCode d)
                   /\ container link = Some (target d)
                   /\ styleJustified (pairedVendors acc.2) link d) as Hadd'.
    { intros d Hd. destruct (Hadd d Hd) as (Hn & link & Hl & Hc & Ht & Hj).
      split; [set_solver|]. exists link. rewrite <- Hp1.
      split_and!; try done. by right. }
    destruct Hd1 as [Heq1|(d1 & Heq1 & Hc1 & Ht1 & Hn1 & _ & Hj1)].
    + exists added. rewrite Heq, Heq1. done.
    + exists (d1 :: added). rewrite Heq, Heq1, <- app_assoc. split; [done|].
      intros d Hd. apply elem_of_cons in Hd as [->|Hd]; [|by apply Hadd'].
      split; [done|]. exists l. split_and!; try done. by left.
Qed.

(** The pass-local set of codes does not depend on the state, and a link
    whose container is already processed leaves the state as it is. *)
Lemma processLink_replay pc st stF link :
  processedElements (processLink (pc, st) link).2 ⊆ processedElements stF ->
  processLink (pc, stF) link = ((processLink (pc, st) link).1, stF).
Proof.
  unfold Reconcile.processLink. cbn [fst snd].
  destruct (vendorCode link) as [code|]; [|done].
  destruct (truthyStr (Some code) && negb (bool_decide (code ∈ pc))); [|done].
  destruct (container link) as [el|]; [|done].
  destruct (bool_decide (el ∈ processedElements st)) eqn:Hseen.
  - apply bool_decide_eq_true in Hseen. cbn [fst snd]. intros Hsub.
    rewrite bool_decide_eq_true_2; [done | set_solver].
  - cbn [fst snd processedElements]. intros Hsub.
    rewrite bool_decide_eq_true_2; [done|]. apply Hsub.
    match goal with |- context [if ?b then _ else _] => destruct b end.
    + unfold Reconcile.highlightVendor. cbn [processedVendors].
      match goal with
      | |- context [bool_decide (?u ∈ processedVendors st)] =>
          destruct (bool_decide (u ∈ processedVendors st))
      end; cbn; set_solver.
    + cbn. set_solver.
Qed.

Lemma foldl_processLink_replay links : forall pc st stF,
  processedElements (foldl processLink (pc, st) links).2 ⊆ processedElements stF ->
  foldl processLink (pc, stF) links = ((foldl processLink (pc, st) links).1, stF).
Proof.
  induction links as [|l links IH]; intros pc st stF Hsub; [done|].
  cbn [foldl] in *.
  destruct (processLink (pc, st) l) as [pc1 st1] eqn:H1.
  rewrite (processLink_replay pc st stF l).
  - rewrite H1. cbn [fst]. by apply IH.
  - rewrite H1. cbn [snd].
    destruct (foldl_processLink_justified links (pc1, st1)) as (_ & Hmono & _).
    cbn [snd] in Hmono. set_solver.
Qed.
End ReconcileElementFacts.


(** X9. A pass decorates only containers that were not processed before,
    and the style of each decoration it adds is backed by the data: Paired
    and Premium only for a vendor code in [pairedVendors], HighRating and
    Premium only for a link whose extracted rating reaches the threshold
    4.2, HighRating only for a vendor that is not paired. *)
Theorem processVendorElements_style_justified
    (numberToString : float -> jsstring) (st : Reconcile.State)
    (links : list Reconcile.Link) :
  exists added,
    Reconcile.decorations (Reconcile.processVendorElements numberToString st links)
    = Reconcile.decorations st ++ added
    /\ forall d, d ∈ added ->
         (Reconcile.target d ∉ Reconcile.processedElements st)
         /\ exists link, link ∈ links
              /\ Reconcile.vendorCode link = Some (Reconcile.dVendorCode d)
              /\ Reconcile.container link = Some (Reconcile.target d)
              /\ styleJustified (Reconcile.pairedVendors st) link d.
Proof.
  rewrite processVendorElements_foldl.
  destruct (foldl_processLink_justified numberToString links (∅, st))
    as (_ & _ & added & Heq & Hadd).
  by exists added.
Qed.

(** X10. A pass is idempotent: running [processVendorElements] again over
    the same links changes nothing, neither the decorations nor the sets of
    processed keys and elements nor the counter. *)
Theorem processVendorElements_idempotent
    (numberToString : float -> jsstring) (st : Reconcile.State)
    (links : list Reconcile.Link) :
  let once := Reconcile.processVendorElements numberToString st links in
  Reconcile.processVendorElements numberToString once links = once.
Proof.
  intros once. unfold once. rewrite !processVendorElements_foldl.
  by rewrite (foldl_processLink_replay numberToString links ∅ st).
Qed.

(** ** The caches: bounded size, and the sweep *)

Section JsMapSizeFacts.
Context {K V : Type} `{EqDecision K}.
Implicit Types (k : K) (v : V) (m : list (K * V)).
Import JsMap.

Lemma delete_filter k m : delete k m = filter (λ e, e.1 ≠ k) m.
Proof.
  induction m as [|[k' v'] m IH]; [done|]. cbn [delete]. rewrite filter_cons.
  cbn [fst]. rewrite IH.
  destruct (decide (k = k')); destruct (decide (k' ≠ k)) as [|Hn];
    try congruence.
  exfalso. apply Hn. congruence.
Qed.

Lemma foldl_delete_filter (es : list (K * V)) : forall m,
  foldl (λ m e, delete e.1 m) m es = filter (λ e, e.1 ∉ es.*1) m.
Proof.
  induction es as [|e es IH]; intros m; simpl.
  - induction m as [|x m IHm]; [done|].
    rewrite filter_cons_True by apply not_elem_of_nil. by rewrite <- IHm.
  - rewrite IH, delete_filter, list_filter_filter. apply list_filter_iff.
    intros x. rewrite not_elem_of_cons. naive_solver.
Qed.

Lemma filter_agree {A} (P Q : A -> Prop) `{!∀ x, Decision (P x)}
    `{!∀ x, Decision (Q x)} (l : list A) :
  (forall x, x ∈ l -> P x <-> Q x) -> filter P l = filter Q l.
Proof.
  induction l as [|x l IH]; intros Hpq; [done|].
  assert (filter P l = filter Q l) as Hl.
  { apply IH. intros y Hy. apply Hpq. by right. }
  destruct (decide (P x)) as [Hp|Hp].
  - rewrite !filter_cons_True; [by rewrite Hl | by apply Hpq; [left|] | done].
  - rewrite !filter_cons_False; [done | | done].
    intros Hq. apply Hp. apply Hpq; [by left | done].
Qed.

Lemma length_delete_le k m : (length (delete k m) <= length m)%nat.
Proof. rewrite delete_filter. apply length_filter. Qed.

Lemma length_delete_lt k m : k ∈ keys m -> (length (delete k m) < length m)%nat.
Proof.
  induction m as [|[k' v'] m IH]; intros Hin; [by apply elem_of_nil in Hin|].
  simpl. destruct (decide (k = k')) as [->|Hne].
  - pose proof (length_delete_le k' m). lia.
  - unfold keys in Hin. rewrite fmap_cons in Hin.
    apply elem_of_cons in Hin as [Heq|Hin]; [done|].
    simpl. apply IH in Hin. lia.
Qed.

Lemma length_set_in k v m : k ∈ keys m -> length (set k v m) = length m.
Proof.
  induction m as [|[k' v'] m IH]; intros Hin; [by apply elem_of_nil in Hin|].
  simpl. destruct (decide (k = k')) as [->|Hne]; [done|].
  unfold keys in Hin. rewrite fmap_cons in Hin.
  apply elem_of_cons in Hin as [Heq|Hin]; [done|]. simpl. by rewrite IH.
Qed.

Lemma length_set_le k v m : (length (set k v m) <= S (length m))%nat.
Proof.
  induction m as [|[k' v'] m IH]; [done|]. simpl.
  destruct (decide (k = k')); simpl; lia.
Qed.

Lemma length_deleteFirst_le m : (length (deleteFirst m) <= length m)%nat.
Proof.
  unfold deleteFirst. destruct (firstKey m); [apply length_delete_le | done].
Qed.

Lemma length_deleteFirst_lt m :
  m ≠ [] -> (length (deleteFirst m) < length m)%nat.
Proof.
  destruct m as [|[k v] m]; [done|]. intros _. unfold deleteFirst. simpl.
  rewrite decide_True by done. pose proof (length_delete_le k m). lia.
Qed.

(** Room for one more after the eviction step of [set]. *)
Lemma length_evicted (bound : Z) m :
  1 <= bound -> size m <= bound ->
  Z.of_nat (length (if size m >=? bound then deleteFirst m else m)) < bound.
Proof.
  unfold size. intros Hb Hm. destruct (Z.geb_spec (Z.of_nat (length m)) bound).
  - assert (m ≠ []) as Hne by (intros ->; simpl in *; lia).
    pose proof (length_deleteFirst_lt m Hne). lia.
  - lia.
Qed.
End JsMapSizeFacts.

Section CacheSizeFacts.
Context {K V : Type} `{EqDecision K}.

Lemma background_step_size (o : Background.op K V)
    (c : Background.PerformanceCache K V) :
  JsMap.size (Background.cache c) <= Z.max (Background.maxSize c) 1 ->
  JsMap.size (Background.cache (Background.step o c))
  <= Z.max (Background.maxSize c) 1.
Proof.
  assert (1 <= Z.max (Background.maxSize c) 1) as Hb by lia.
  assert (Background.maxSize c <= Z.max (Background.maxSize c) 1) as Hb' by lia.
  revert Hb Hb'. generalize (Z.max (Background.maxSize c) 1). intros bound Hb Hb' Hle.
  destruct o as [k now|k d now| |now];
    [simpl | simpl | simpl
     | cbn [Background.step Background.cleanup snd Background.cache]];
    unfold JsMap.size in *.
  - unfold Background.get.
    destruct (JsMap.get k (Background.cache c)) as [item|] eqn:E; [|done].
    apply get_Some_in in E. pose proof (length_delete_lt k _ E) as Hlt.
    destruct (now <? Background.expiry item); simpl.
    + pose proof (length_set_le k item (JsMap.delete k (Background.cache c))).
      lia.
    + lia.
  - destruct (JsMap.has k (Background.cache c)) eqn:Hhas.
    + rewrite andb_false_r. apply has_true in Hhas.
      by rewrite length_set_in.
    + rewrite andb_true_r.
      match goal with |- Z.of_nat (length (JsMap.set k ?i ?m)) <= _ =>
        pose proof (length_set_le k i m) as Hset end.
      destruct (Z.geb_spec (Z.of_nat (length (Background.cache c)))
                           (Background.maxSize c)) as [Hfull|Hroom].
      * pose proof (length_deleteFirst_le (Background.cache c)).
        destruct (decide (Background.cache c = [])) as [Hm|Hne].
        -- rewrite Hm in *. cbn [length] in *. lia.
        -- pose proof (length_deleteFirst_lt (Background.cache c) Hne). lia.
      * lia.
  - cbn [length]. lia.
  - revert Hle. generalize (Background.cache c). intros m Hm.
    rewrite (foldl_delete_filter
               (filter (λ e : K * Background.CacheItem V,
                          now >= Background.expiry e.2) m) m).
    pose proof (length_filter
                  (λ e : K * Background.CacheItem V,
                     e.1 ∉ (filter (λ e : K * Background.CacheItem V,
                                      now >= Background.expiry e.2) m).*1) m).
    lia.
Qed.

Lemma content_step_size (o : Content.op K V) (c : Content.PerformanceCache K V) :
  JsMap.size (Content.cache c) <= Z.max (Content.maxSize c) 1 ->
  JsMap.size (Content.cache (Content.step o c)) <= Z.max (Content.maxSize c) 1.
Proof.
  assert (1 <= Z.max (Content.maxSize c) 1) as Hb by lia.
  assert (Content.maxSize c <= Z.max (Content.maxSize c) 1) as Hb' by lia.
  revert Hb Hb'. generalize (Z.max (Content.maxSize c) 1). intros bound Hb Hb' Hle.
  destruct o as [k|k v|]; simpl; unfold JsMap.size in *.
  - unfold Content.get.
    destruct (JsMap.get k (Content.cache c)) as [item|] eqn:E; [|done].
    apply get_Some_in in E. pose proof (length_delete_lt k _ E) as Hlt. simpl.
    pose proof (length_set_le k item (JsMap.delete k (Content.cache c))). lia.
  - match goal with |- Z.of_nat (length (JsMap.set k v ?m)) <= _ =>
      pose proof (length_set_le k v m) as Hset end.
    destruct (JsMap.has k (Content.cache c)) eqn:Hhas.
    + apply has_true in Hhas. pose proof (length_delete_lt k _ Hhas). lia.
    + destruct (Z.geb_spec (Z.of_nat (length (Content.cache c)))
                           (Content.maxSize c)) as [Hfull|Hroom].
      * pose proof (length_deleteFirst_le (Content.cache c)).
        destruct (decide (Content.cache c = [])) as [Hm|Hne].
        -- rewrite Hm in *. cbn [length] in *. lia.
        -- pose proof (length_deleteFirst_lt (Content.cache c) Hne). lia.
      * lia.
  - cbn [length]. lia.
Qed.

Lemma content_step_maxSize (o : Content.op K V) (c : Content.PerformanceCache K V) :
  Content.maxSize (Content.step o c) = Content.maxSize c.
Proof.
  destruct o as [k|k v|]; simpl; try done.
  unfold Content.get. by destruct (JsMap.get k (Content.cache c)).
Qed.

(** X11. Neither cache ever holds more than [maxSize] entries (one entry
    when [maxSize] is below 1): the background cache after any sequence of
    [get], [set], [clear] and [cleanup] calls on a new cache, at any times,
    and the content-script cache after any sequence of [get], [set] and
    [clear] calls on a new cache. *)
Theorem caches_size_bounded (N ttlMs : Z) :
  (forall ops : list (Background.op K V),
     JsMap.size (Background.cache (Background.run ops (Background.new N ttlMs)))
     <= Z.max N 1)
  /\ (forall ops : list (Content.op K V),
        JsMap.size (Content.cache (Content.run ops (Content.new N)))
        <= Z.max N 1).
Proof.
  split.
  - intros ops. induction ops as [|o ops IH] using rev_ind.
    { change (0 <= Z.max N 1). lia. }
    rewrite background_run_snoc.
    pose proof (background_step_size o
                  (Background.run ops (Background.new N ttlMs))) as Hstep.
    rewrite background_run_maxSize in Hstep. by apply Hstep.
  - intros ops.
    assert (forall c : Content.PerformanceCache K V,
              JsMap.size (Content.cache c) <= Z.max (Content.maxSize c) 1 ->
              JsMap.size (Content.cache (Content.run ops c))
              <= Z.max (Content.maxSize c) 1) as Hrun.
    { induction ops as [|o ops IH]; intros c Hc; [done|].
      change (Content.run (o :: ops) c) with (Content.run ops (Content.step o c)).
      rewrite <- (content_step_maxSize o c). apply IH.
      rewrite content_step_maxSize. by apply content_step_size. }
    apply (Hrun (Content.new N)). change (0 <= Z.max N 1). lia.
Qed.

(** X12. The sweep removes exactly the expired entries: on a cache built by
    any sequence of calls, [cleanup] at time [now] leaves the entries with
    [now < expiry], in their order, and returns the number of entries it
    removed. *)
Theorem background_cleanup_removes_exactly_expired (N ttlMs : Z)
    (ops : list (Background.op K V)) (now : Z) :
  let c := Background.run ops (Background.new N ttlMs) in
  let swept := Background.cleanup now c in
  Background.cache swept.2
  = filter (λ e, now < Background.expiry e.2) (Background.cache c)
  /\ swept.1
     = JsMap.size (Background.cache c) - JsMap.size (Background.cache swept.2).
Proof.
  intros c swept.
  destruct (background_run_keys N ttlMs ops) as [Hnd _]. fold c in Hnd.
  assert (Background.cache swept.2
          = filter (λ e, now < Background.expiry e.2) (Background.cache c)) as Hkept.
  { unfold swept, Background.cleanup. cbn [snd Background.cache].
    rewrite (foldl_delete_filter
               (filter (λ e : K * Background.CacheItem V,
                          now >= Background.expiry e.2) (Background.cache c))
               (Background.cache c)).
    apply filter_agree. intros [k item] Hin. simpl.
    split.
    - intros Hnot. destruct (Z.lt_ge_cases now (Background.expiry item)); [done|].
      exfalso. apply Hnot. apply list_elem_of_fmap. exists (k, item).
      split; [done|]. apply list_elem_of_filter. simpl. split; [lia | done].
    - intros Hlt Hexp. apply list_elem_of_fmap in Hexp as ([k' item'] & Hk & Hexp).
      simpl in Hk. subst k'. apply list_elem_of_filter in Hexp as [Hge Hin'].
      simpl in Hge.
      pose proof (get_of_entry _ _ _ Hnd Hin) as Hget.
      pose proof (get_of_entry _ _ _ Hnd Hin') as Hget'.
      rewrite Hget in Hget'. injection Hget' as ->. lia. }
  split; [done|]. rewrite Hkept. unfold swept, Background.cleanup. cbn [fst].
  unfold JsMap.size.
  pose proof (filter_app_complement
                (λ e : K * Background.CacheItem V, now >= Background.expiry e.2)
                (Background.cache c)) as Hperm.
  apply Permutation_length in Hperm. rewrite length_app in Hperm.
  cbv beta in Hperm.
  assert (filter (λ e : K * Background.CacheItem V, ¬ now >= Background.expiry e.2)
                 (Background.cache c)
          = filter (λ e, now < Background.expiry e.2) (Background.cache c)) as Heq.
  { apply list_filter_iff. intros e. lia. }
  unfold JsMap.t in *. rewrite Heq in Hperm. lia.
Qed.
End CacheSizeFacts.

(** ** Rate limiters *)

Section RateLimitFacts.
Context {A : Type}.
Import RateLimit.
Implicit Types (events : list (event A)) (e : event A).

Lemma run_snoc {S} (step : S -> event A -> option S) events : forall (s : S) e,
  run step s (events ++ [e])
  = match run step s events with
    | Some s' => step s' e
    | None => None
    end.
Proof.
  induction events as [|e0 events IH]; intros s e; simpl.
  - by destruct (step s e).
  - destruct (step s e0) as [s'|]; [apply IH | done].
Qed.

Lemma fires_snoc events e :
  fires (events ++ [e]) = (fires events + (if isFire e then 1 else 0))%nat.
Proof.
  unfold fires. rewrite filter_app, length_app. f_equal.
  destruct e as [now a|now]; cbn [isFire].
  - by rewrite filter_cons_False by done.
  - by rewrite filter_cons_True by done.
Qed.

(** What the closure of [debounce] holds after a trace: a pending timer
    belongs to the call that ends the trace, and every call of the function
    so far was made by the timer of the call just before it. *)
Lemma debounce_invariant (wait : Z) events : forall s,
  run (debounceStep wait) debounced events = Some s ->
  (forall tm, timeout s = Some tm ->
     exists pre t0, events = pre ++ [Call t0 (args tm)]
       /\ due tm = t0 + Z.max 0 wait)
  /\ (forall t a, (t, a) ∈ invoked s ->
        exists pre post t0,
          events = pre ++ Call t0 a :: Fire t :: post /\ t0 + wait <= t)
  /\ length (invoked s) = fires events.
Proof.
  induction events as [|e events IH] using rev_ind; intros s Hrun.
  - injection Hrun as <-. split_and!; [done | | done].
    intros t a Hin. by apply elem_of_nil in Hin.
  - rewrite run_snoc in Hrun.
    destruct (run (debounceStep wait) debounced events) as [s0|]; [|done].
    destruct (IH s0 eq_refl) as (Htimer & Hinv & Hlen).
    rewrite fires_snoc.
    assert (forall t a, (t, a) ∈ invoked s0 ->
              exists pre post t0,
                (events ++ [e]) = pre ++ Call t0 a :: Fire t :: post
                /\ t0 + wait <= t) as Hold.
    { intros t a Hin. destruct (Hinv t a Hin) as (pre & post & t0 & -> & Hle).
      exists pre, (post ++ [e]), t0. split; [|done].
      by rewrite <- app_assoc. }
    destruct e as [now a|now]; simpl in Hrun.
    + injection Hrun as <-. cbn [timeout invoked isFire]. split_and!.
      * intros tm [= <-]. by exists events, now.
      * done.
      * lia.
    + destruct (timeout s0) as [tm|] eqn:Htm; [|done].
      destruct (Z.leb_spec (due tm) now) as [Hdue|]; [|done].
      injection Hrun as <-. cbn [timeout invoked isFire]. split_and!.
      * done.
      * intros t a Hin. apply elem_of_app in Hin as [Hin|Hin]; [by apply Hold|].
        apply list_elem_of_singleton in Hin. injection Hin as -> ->.
        destruct (Htimer tm eq_refl) as (pre & t0 & -> & Hd).
        exists pre, [], t0. split; [by rewrite <- app_assoc | lia].
      * rewrite length_app. simpl. lia.
Qed.

Lemma spaced_snoc (limit : Z) (calls : list (Z * A)) (c : Z * A) :
  spaced limit calls ->
  (forall c0, last calls = Some c0 -> c0.1 + limit <= c.1) ->
  spaced limit (calls ++ [c]).
Proof.
  induction calls as [|c1 calls IH]; intros Hs Hlast; [done|].
  destruct calls as [|c2 calls].
  - simpl. split; [|done]. by apply Hlast.
  - destruct Hs as [Hle Hs]. change ((c1 :: c2 :: calls) ++ [c])
      with (c1 :: (c2 :: calls ++ [c])).
    split; [done|]. apply IH; [done|]. intros c0 Hc0. by apply Hlast.
Qed.

(** What the closure of [throttle] holds after a trace whose events all
    happen at a time other than 0. *)
Lemma throttle_invariant (limit : Z) events : forall s,
  Forall (λ e, time e ≠ 0) events ->
  run (throttleStep limit) throttled events = Some s ->
  spaced limit (ranAt s)
  /\ match last (ranAt s) with
     | Some c => lastRan s = Some c.1 /\ c.1 ≠ 0
     | None => lastRan s = None
     end.
Proof.
  induction events as [|e events IH] using rev_ind; intros s Htimes Hrun.
  - by injection Hrun as <-.
  - rewrite run_snoc in Hrun. apply Forall_app in Htimes as [Htimes He].
    apply Forall_inv in He.
    destruct (run (throttleStep limit) throttled events) as [s0|]; [|done].
    destruct (IH s0 Htimes eq_refl) as (Hsp & Hlast).
    destruct e as [now a|now]; simpl in Hrun, He.
    + destruct (neverRan (lastRan s0)) eqn:Hnever.
      * injection Hrun as <-. cbn [ranAt lastRan]. rewrite last_snoc.
        split; [|done]. apply spaced_snoc; [done|].
        intros c0 Hc0. rewrite Hc0 in Hlast. destruct Hlast as [Hran Hne].
        rewrite Hran in Hnever. simpl in Hnever. lia.
      * by injection Hrun as <-.
    + destruct (lastFunc s0) as [tm|]; [|done].
      destruct (due tm <=? now); [|done].
      destruct (lastRan s0) as [ran|] eqn:Hran.
      * destruct (Z.geb_spec (now - ran) limit) as [Hge|].
        -- injection Hrun as <-. cbn [ranAt lastRan]. rewrite last_snoc.
           split; [|done]. apply spaced_snoc; [done|].
           intros c0 Hc0. rewrite Hc0 in Hlast. destruct Hlast as [[= ->] _].
           simpl. lia.
        -- by injection Hrun as <-.
      * by injection Hrun as <-.
Qed.

Lemma throttleStep_prefix (limit : Z) s e s' :
  throttleStep limit s e = Some s' -> ranAt s `prefix_of` ranAt s'.
Proof.
  destruct e as [now a|now]; simpl.
  - destruct (neverRan (lastRan s)); intros [= <-]; simpl;
      [by apply prefix_app_r | done].
  - destruct (lastFunc s) as [tm|]; [|done].
    destruct (due tm <=? now); [|done].
    destruct (lastRan s) as [ran|]; [destruct (now - ran >=? limit)|];
      intros [= <-]; simpl; [by apply prefix_app_r | done | done].
Qed.

Lemma throttle_run_prefix (limit : Z) events : forall s s',
  run (throttleStep limit) s events = Some s' -> ranAt s `prefix_of` ranAt s'.
Proof.
  induction events as [|e events IH]; intros s s' Hrun; simpl in Hrun.
  - by injection Hrun as <-.
  - destruct (throttleStep limit s e) as [s1|] eqn:Hstep; [|done].
    etrans; [by eapply throttleStep_prefix | by apply IH].
Qed.
End RateLimitFacts.

(** X13. [debounce]: in every trace of calls and timer callbacks, each call
    of the wrapped function is made by the timer of the call that comes
    just before it in the trace (no other call and no other callback in
    between), with the arguments of that call, and at least [wait]
    milliseconds after it; the function is called once per callback that
    runs.  So a call that is followed by another call before its timer
    runs never reaches the function. *)
Theorem debounce_calls_after_quiet_period {A : Type} (wait : Z)
    (events : list (RateLimit.event A)) (s : RateLimit.Debounced A) :
  RateLimit.run (RateLimit.debounceStep wait) RateLimit.debounced events = Some s ->
  (forall t a, (t, a) ∈ RateLimit.invoked s ->
     exists pre post t0,
       events = pre ++ RateLimit.Call t0 a :: RateLimit.Fire t :: post
       /\ t0 + wait <= t)
  /\ length (RateLimit.invoked s) = RateLimit.fires events.
Proof.
  intros Hrun. destruct (debounce_invariant wait events s Hrun) as (_ & H1 & H2).
  by split.
Qed.

Lemma debounce_calls_after_quiet_period_witness :
  let events := [RateLimit.Call 100 "a"%string; RateLimit.Call 300 "b"%string;
                 RateLimit.Fire 800] in
  RateLimit.run (RateLimit.debounceStep 500) RateLimit.debounced events
  = Some (RateLimit.mkDebounced None [(800, "b"%string)])
  /\ ((forall t a, (t, a) ∈ [(800, "b"%string)] ->
         exists pre post t0,
           events = pre ++ RateLimit.Call t0 a :: RateLimit.Fire t :: post
           /\ t0 + 500 <= t)
      /\ length [(800, "b"%string)] = RateLimit.fires events).
Proof.
  intros events. split; [reflexivity|].
  apply (debounce_calls_after_quiet_period 500 events
           (RateLimit.mkDebounced None [(800, "b"%string)])).
  reflexivity.
Defined.

(** X14. [throttle]: in every trace of calls and timer callbacks at times
    other than 0, two consecutive calls of the wrapped function are at
    least [limit] milliseconds apart, and the first call of the wrapper
    runs the function at once with its own arguments. *)
Theorem throttle_calls_spaced {A : Type} (limit : Z)
    (events : list (RateLimit.event A)) (s : RateLimit.Throttled A) :
  Forall (λ e, RateLimit.time e ≠ 0) events ->
  RateLimit.run (RateLimit.throttleStep limit) RateLimit.throttled events = Some s ->
  RateLimit.spaced limit (RateLimit.ranAt s)
  /\ forall now a rest, events = RateLimit.Call now a :: rest ->
       head (RateLimit.ranAt s) = Some (now, a).
Proof.
  intros Htimes Hrun. split.
  - by destruct (throttle_invariant limit events s Htimes Hrun).
  - intros now a rest ->. cbn in Hrun.
    apply throttle_run_prefix in Hrun as [l ->]. done.
Qed.

Lemma throttle_calls_spaced_witness :
  let events := [RateLimit.Call 1000 "a"%string; RateLimit.Call 1200 "b"%string;
                 RateLimit.Call 1500 "c"%string; RateLimit.Fire 2000] in
  let s := RateLimit.mkThrottled None (Some 2000)
             [(1000, "a"%string); (2000, "c"%string)] in
  RateLimit.run (RateLimit.throttleStep 1000) RateLimit.throttled events = Some s
  /\ (RateLimit.spaced 1000 (RateLimit.ranAt s)
      /\ forall now a rest, events = RateLimit.Call now a :: rest ->
           head (RateLimit.ranAt s) = Some (now, a)).
Proof.
  intros events s. split; [reflexivity|].
  apply (throttle_calls_spaced 1000 events s).
  - repeat constructor; simpl; lia.
  - reflexivity.
Defined.

(** ** [DOMCache] *)

Section DOMCacheFacts.
Context {Selector NodeList Document : Type} `{EqDecision Selector}.
Context (querySelectorAll : Document -> Selector -> NodeList).
Implicit Types (cache : JsMap.t Selector NodeList) (selector : Selector).
Implicit Types (o : DOMCache.op Selector Document).

Local Abbreviation get := (DOMCache.get querySelectorAll).
Local Abbreviation step := (DOMCache.step querySelectorAll).
Local Abbreviation run := (DOMCache.run querySelectorAll).

Lemma domcache_get_stores selector document cache :
  JsMap.get selector (get selector document cache).2
  = Some (get selector document cache).1.
Proof.
  unfold DOMCache.get.
  destruct (JsMap.get selector cache) as [nodes|] eqn:E; simpl; [done|].
  apply get_set_eq.
Qed.

Lemma domcache_step_keeps selector nodes o cache :
  DOMCache.drops selector o = false ->
  JsMap.get selector cache = Some nodes ->
  JsMap.get selector (step cache o) = Some nodes.
Proof.
  intros Hkeep Hstored. destruct o as [s d| |s]; simpl in *; [|done|].
  - unfold DOMCache.get. destruct (JsMap.get s cache) as [n|] eqn:E; simpl; [done|].
    rewrite get_set_ne; [done|]. intros ->. congruence.
  - apply bool_decide_eq_false in Hkeep. unfold DOMCache.invalidate.
    rewrite get_delete_ne; [done | congruence].
Qed.

Lemma domcache_run_keeps selector nodes ops : forall cache,
  Forall (λ o, DOMCache.drops selector o = false) ops ->
  JsMap.get selector cache = Some nodes ->
  JsMap.get selector (run cache ops) = Some nodes.
Proof.
  induction ops as [|o ops IH]; intros cache Hops Hstored; [done|].
  apply Forall_cons in Hops as [Ho Hops]. cbn [DOMCache.run foldl].
  apply IH; [done|]. by apply domcache_step_keeps.
Qed.

(** X15. [DOMCache.get] returns the list of the first query for as long as
    the selector is neither invalidated nor the cache cleared: whatever the
    page has become, and whatever other selectors were looked up in
    between, the page is not queried again.  After [invalidate(selector)]
    or [clear()] the next [get] returns the query of the page it sees. *)
Theorem domcache_get_is_stale_until_invalidated selector cache
    (first later : Document) (ops : list (DOMCache.op Selector Document)) :
  Forall (λ o, DOMCache.drops selector o = false) ops ->
  (get selector later (run (get selector first cache).2 ops)).1
  = (get selector first cache).1
  /\ (get selector later
          (DOMCache.invalidate selector (run (get selector first cache).2 ops))).1
     = querySelectorAll later selector
  /\ (get selector later
          (DOMCache.clear (run (get selector first cache).2 ops))).1
     = querySelectorAll later selector.
Proof.
  intros Hops. split_and!.
  - pose proof (domcache_run_keeps selector _ ops _ Hops
                  (domcache_get_stores selector first cache)) as Hkept.
    unfold DOMCache.get at 1. by rewrite Hkept.
  - unfold DOMCache.get at 1, DOMCache.invalidate. by rewrite get_delete_eq.
  - done.
Qed.
End DOMCacheFacts.

Lemma domcache_get_is_stale_until_invalidated_witness :
  let query : nat -> string -> list nat :=
    λ document selector, if String.eqb selector "a" then [document] else [] in
  (DOMCache.get query "a"%string 2%nat
     (DOMCache.run query (DOMCache.get query "a"%string 1%nat []).2
                   [DOMCache.OpGet "b"%string 2%nat;
                    DOMCache.OpInvalidate "b"%string])).1
  = [1%nat].
Proof.
  intros query.
  apply (domcache_get_is_stale_until_invalidated query "a"%string [] 1%nat 2%nat
           [DOMCache.OpGet "b"%string 2%nat; DOMCache.OpInvalidate "b"%string]).
  repeat constructor.
Defined.

(** ** [SearchManager]: history, favorites, virtual scrolling *)

Section ArrayFacts.
Context {A : Type}.
Implicit Types (l : list A) (p : A -> bool).

Lemma findIndex_Some p l : forall i,
  findIndex p l = Some i -> exists x, l !! i = Some x /\ p x = true.
Proof.
  induction l as [|y l IH]; intros i; simpl; [done|].
  destruct (p y) eqn:Hy.
  - intros [= <-]. by exists y.
  - destruct (findIndex p l) as [j|]; [|done]. intros [= <-].
    by apply IH.
Qed.

Lemma findIndex_None p l :
  findIndex p l = None -> forall x, x ∈ l -> p x = false.
Proof.
  induction l as [|y l IH]; simpl; intros Hnone x Hx.
  - by apply elem_of_nil in Hx.
  - destruct (p y) eqn:Hy; [done|].
    destruct (findIndex p l) as [j|]; [done|].
    apply elem_of_cons in Hx as [->|Hx]; [done | by apply IH].
Qed.

Lemma fmap_delete_index {B} (f : A -> B) l : forall i,
  f <$> delete i l = delete i (f <$> l).
Proof.
  induction l as [|y l IH]; intros [|i]; simpl; try done. by rewrite IH.
Qed.

Lemma elem_of_delete_NoDup l : forall i x y,
  NoDup l -> l !! i = Some x -> y ∈ delete i l <-> y ∈ l /\ y ≠ x.
Proof.
  induction l as [|z l IH]; intros i x y Hnd Hi; [done|].
  apply NoDup_cons in Hnd as [Hz Hnd]. destruct i as [|i]; simpl in *.
  - injection Hi as ->. rewrite elem_of_cons. split.
    + intros Hy. split; [by right|]. by intros ->.
    + by intros [[->|Hy] Hne].
  - rewrite !elem_of_cons, (IH i x y Hnd Hi). split.
    + intros [->|[Hy Hne]].
      * split; [by left|]. intros ->. apply Hz. by eapply list_elem_of_lookup_2.
      * split; [by right | done].
    + intros [[->|Hy] Hne]; [by left | by right].
Qed.

Lemma pop_snoc l x : pop (l ++ [x]) = l.
Proof.
  unfold pop. rewrite length_app. simpl.
  replace (length l + 1 - 1)%nat with (length l) by lia.
  by rewrite take_app_length.
Qed.

Lemma pop_sublist l : pop l `sublist_of` l.
Proof. apply sublist_take. Qed.

Lemma length_pop l : length (pop l) = (length l - 1)%nat.
Proof. unfold pop. rewrite length_take. lia. Qed.

Lemma head_pop x y l : head (pop (x :: y :: l)) = Some x.
Proof. unfold pop. by simpl. Qed.
End ArrayFacts.

Section FavoriteFacts.
Import Manager.
Implicit Types (name : jsstring) (favorites : list Favorite).

Lemma isFavorite_elem_of name favorites :
  isFavorite name favorites = bool_decide (name ∈ nameOf <$> favorites).
Proof.
  induction favorites as [|fav favorites IH].
  - symmetry. apply bool_decide_eq_false. apply not_elem_of_nil.
  - change (isFavorite name (fav :: favorites))
      with (bool_decide (nameOf fav = name) || isFavorite name favorites).
    rewrite IH, fmap_cons. destruct (decide (nameOf fav = name)) as [Heq|Hne].
    + rewrite (bool_decide_eq_true_2 _ Heq). symmetry.
      apply bool_decide_eq_true. rewrite Heq. by left.
    + rewrite (bool_decide_eq_false_2 _ Hne). cbn [orb].
      apply bool_decide_ext. rewrite elem_of_cons. naive_solver.
Qed.

(** X17. [toggleFavorite] on a list of at most 50 favorites with pairwise
    different names: a favorite is removed; a name that is not a favorite is
    added only when fewer than 50 are stored, and with 50 stored the call
    leaves it out (the new entry is pushed and popped again).  No other name
    changes its status, the names stay different and the list stays within
    50 entries. *)
Theorem toggleFavorite_flips_unless_full name (now : Z) (source : option string)
    favorites :
  NoDup (nameOf <$> favorites) ->
  (length favorites <= 50)%nat ->
  let favorites' := toggleFavorite name now source favorites in
  isFavorite name favorites'
  = (if isFavorite name favorites then false
     else (length favorites <? 50)%nat)
  /\ (forall other, other ≠ name ->
        isFavorite other favorites' = isFavorite other favorites)
  /\ NoDup (nameOf <$> favorites')
  /\ (length favorites' <= 50)%nat.
Proof.
  intros Hnd Hlen favorites'. unfold favorites', toggleFavorite.
  destruct (findIndex (λ fav, bool_decide (nameOf fav = name)) favorites)
    as [i|] eqn:Hidx.
  - apply findIndex_Some in Hidx as (fav & Hi & Hname).
    apply bool_decide_eq_true in Hname.
    assert ((nameOf <$> favorites) !! i = Some name) as Hi'.
    { by rewrite list_lookup_fmap, Hi, <- Hname. }
    assert (length (delete i favorites) = (length favorites - 1)%nat) as Hdel.
    { by apply length_delete. }
    destruct (Nat.ltb_spec 50 (length (delete i favorites))); [lia|].
    assert (isFavorite name favorites = true) as ->.
    { rewrite isFavorite_elem_of. apply bool_decide_eq_true.
      by eapply list_elem_of_lookup_2. }
    split_and!.
    + rewrite isFavorite_elem_of, fmap_delete_index.
      apply bool_decide_eq_false. rewrite (elem_of_delete_NoDup _ i name) by done.
      naive_solver.
    + intros other Hne. rewrite !isFavorite_elem_of, fmap_delete_index.
      apply bool_decide_ext. rewrite (elem_of_delete_NoDup _ i name) by done.
      naive_solver.
    + rewrite fmap_delete_index. eapply sublist_NoDup; [done|]. apply sublist_delete.
    + lia.
  - pose proof (findIndex_None _ _ Hidx) as Hnone.
    assert (name ∉ nameOf <$> favorites) as Hnin.
    { intros Hin. apply list_elem_of_fmap in Hin as (fav & -> & Hin).
      specialize (Hnone fav Hin). by apply bool_decide_eq_false in Hnone. }
    assert (isFavorite name favorites = false) as ->.
    { rewrite isFavorite_elem_of. by apply bool_decide_eq_false. }
    rewrite length_app. cbn [length].
    destruct (Nat.ltb_spec 50 (length favorites + 1)) as [Hfull|Hroom].
    + rewrite pop_snoc.
      destruct (Nat.ltb_spec (length favorites) 50); [lia|].
      split_and!; [|done|done|done].
      rewrite isFavorite_elem_of. by apply bool_decide_eq_false.
    + destruct (Nat.ltb_spec (length favorites) 50); [|lia].
      split_and!.
      * rewrite isFavorite_elem_of, fmap_app. apply bool_decide_eq_true.
        apply elem_of_app. right. by left.
      * intros other Hne. rewrite !isFavorite_elem_of, fmap_app.
        apply bool_decide_ext. rewrite elem_of_app. simpl.
        rewrite list_elem_of_singleton. naive_solver.
      * rewrite fmap_app. apply NoDup_app. split_and!; [done| |apply NoDup_singleton].
        intros x Hx Hx'. apply list_elem_of_singleton in Hx'. simpl in Hx'.
        by subst x.
      * rewrite length_app. simpl. lia.
Qed.
End FavoriteFacts.

Lemma toggleFavorite_flips_unless_full_witness :
  let favorites := [Manager.FString (js "kabab")] in
  Manager.isFavorite (js "pizza")
    (Manager.toggleFavorite (js "pizza") 7 None favorites) = true.
Proof.
  intros favorites.
  apply (toggleFavorite_flips_unless_full (js "pizza") 7 None favorites).
  - by_evaluation.
  - simpl. lia.
Defined.

Section HistoryFacts.
Import Manager.
Context (toLowerCase : jsstring -> jsstring).
Implicit Types (query : jsstring) (history : list HistoryItem).

Local Abbreviation key := (historyKey toLowerCase).

(** X16. [addToHistory] on a history of at most 20 entries with pairwise
    different queries (compared in lower case): a query shorter than two
    code units is ignored; any other query is put first, trimmed, with the
    time and the number of results, an older entry with the same lower-case
    query is dropped, and the history stays within 20 entries with pairwise
    different queries. *)
Theorem addToHistory_newest_first_bounded_distinct query (now resultCount : Z)
    history :
  NoDup (key <$> history) ->
  (length history <= 20)%nat ->
  let history' := addToHistory toLowerCase query now resultCount history in
  ((length query < 2)%nat -> history' = history)
  /\ ((2 <= length query)%nat ->
      head history' = Some (HObject (Str.trim query) now resultCount))
  /\ NoDup (key <$> history')
  /\ (length history' <= 20)%nat.
Proof.
  intros Hnd Hlen history'. unfold history', addToHistory.
  destruct (Nat.ltb_spec (length query) 2) as [Hshort|Hlong].
  { split_and!; [done | lia | done | done]. }
  set (normalizedQuery := toLowerCase (Str.trim query)).
  set (searchItem := HObject (Str.trim query) now resultCount).
  set (rest := match findIndex _ history with
               | Some i => delete i history
               | None => history
               end).
  assert (NoDup (key <$> rest) /\ normalizedQuery ∉ key <$> rest
          /\ (length rest <= length history)%nat) as (Hrest & Hnew & Hlr).
  { unfold rest.
    destruct (findIndex (λ item, bool_decide (key item = normalizedQuery)) history)
      as [i|] eqn:Hidx.
    - apply findIndex_Some in Hidx as (item & Hi & Hq).
      apply bool_decide_eq_true in Hq.
      assert ((key <$> history) !! i = Some normalizedQuery) as Hi'.
      { by rewrite list_lookup_fmap, Hi, <- Hq. }
      rewrite fmap_delete_index. split_and!.
      + eapply sublist_NoDup; [done|]. apply sublist_delete.
      + rewrite (elem_of_delete_NoDup _ i normalizedQuery) by done. naive_solver.
      + rewrite length_delete by done. lia.
    - pose proof (findIndex_None _ _ Hidx) as Hnone. split_and!; [done| |done].
      intros Hin. apply list_elem_of_fmap in Hin as (item & Heq & Hin).
      specialize (Hnone item Hin). apply bool_decide_eq_false in Hnone. done. }
  assert (NoDup (key <$> searchItem :: rest)) as Hall.
  { rewrite fmap_cons. apply NoDup_cons. split; [|done]. exact Hnew. }
  destruct (Nat.ltb_spec 20 (length (searchItem :: rest))) as [Hover|Hfits].
  - split_and!.
    + lia.
    + intros _. destruct rest as [|y rest']; [simpl in Hover; lia|].
      apply head_pop.
    + eapply sublist_NoDup; [exact Hall|]. apply fmap_sublist, pop_sublist.
    + rewrite length_pop. simpl in *. lia.
  - split_and!; [lia | done | done | done].
Qed.
End HistoryFacts.

Lemma addToHistory_newest_first_bounded_distinct_witness :
  head (Manager.addToHistory Str.lowerAscii (js " Kabab ") 7 3
          [Manager.HString (js "kabab"); Manager.HString (js "pizza")])
  = Some (Manager.HObject (js "Kabab") 7 3).
Proof.
  apply (addToHistory_newest_first_bounded_distinct Str.lowerAscii
           (js " Kabab ") 7 3
           [Manager.HString (js "kabab"); Manager.HString (js "pizza")]).
  - by_evaluation.
  - simpl. lia.
  - simpl. lia.
Defined.

Section ScrollFacts.
Import Manager.
Context {A : Type}.
Implicit Types (results : list A) (s : Scroll).

Lemma clickLoadMore_enabled results s :
  isVirtualScrollEnabled (clickLoadMore results s) = isVirtualScrollEnabled s.
Proof.
  unfold clickLoadMore, loadMoreResults.
  destruct (hasLoadMore results s); [|done].
  destruct (isVirtualScrollEnabled s) eqn:He; simpl; [|done].
  by destruct (length results <=? visibleResults s)%nat.
Qed.

Lemma clickLoadMore_visible results s :
  isVirtualScrollEnabled s = true ->
  visibleResults (clickLoadMore results s)
  = if (visibleResults s <? length results)%nat
    then ((visibleResults s + 25) `min` length results)%nat
    else visibleResults s.
Proof.
  intros He. unfold clickLoadMore, hasLoadMore, rendered, loadMoreResults.
  rewrite He. cbn [andb negb]. rewrite length_take.
  destruct (Nat.ltb_spec (visibleResults s) (length results)) as [Hlt|Hge].
  - destruct (Nat.ltb_spec (visibleResults s `min` length results)
                           (length results)); [|lia].
    destruct (Nat.leb_spec (length results) (visibleResults s)); [lia|]. done.
  - destruct (Nat.ltb_spec (visibleResults s `min` length results)
                           (length results)); [lia|]. done.
Qed.

(** X18. Virtual scrolling: after a search has reset the scrolling, [k]
    clicks on the button for more results leave [min (length results)
    (50 + 25 k)] results on the page; and whenever the button is on the
    page, one click adds the number of results that the button announces,
    [min 25 (length results - shown)]. *)
Theorem loadMore_shows_next_results results s (k : nat) :
  isVirtualScrollEnabled s = true ->
  length (rendered results
            (Nat.iter k (clickLoadMore results) (resetVirtualScroll s)))
  = (length results `min` (50 + 25 * k))%nat
  /\ (hasLoadMore results s = true ->
      length (rendered results (clickLoadMore results s))
      = (length (rendered results s)
         + 25 `min` (length results - length (rendered results s)))%nat).
Proof.
  intros He. split.
  - assert (isVirtualScrollEnabled
              (Nat.iter k (clickLoadMore results) (resetVirtualScroll s)) = true
            /\ visibleResults
                 (Nat.iter k (clickLoadMore results) (resetVirtualScroll s))
               = if (length results <=? 50)%nat then 50%nat
                 else ((50 + 25 * k) `min` length results)%nat) as [Hen Hvis].
    { induction k as [|k [IHe IHv]].
      - unfold Nat.iter.
        cbn [nat_rect resetVirtualScroll visibleResults isVirtualScrollEnabled].
        split; [done|]. unfold MAX_VISIBLE_RESULTS.
        destruct (Nat.leb_spec (length results) 50); lia.
      - rewrite Nat.iter_succ. split; [by rewrite clickLoadMore_enabled|].
        rewrite clickLoadMore_visible by done. rewrite IHv.
        destruct (Nat.leb_spec (length results) 50).
        + destruct (Nat.ltb_spec 50 (length results)); lia.
        + destruct (Nat.ltb_spec ((50 + 25 * k) `min` length results)
                                 (length results)); lia. }
    unfold rendered. rewrite Hen, length_take, Hvis.
    destruct (Nat.leb_spec (length results) 50); lia.
  - intros Hmore. unfold rendered. rewrite clickLoadMore_enabled, He.
    rewrite !length_take, clickLoadMore_visible by done.
    unfold hasLoadMore, rendered in Hmore. rewrite He, length_take in Hmore.
    cbn [andb] in Hmore. apply Nat.ltb_lt in Hmore.
    destruct (Nat.ltb_spec (visibleResults s) (length results)); lia.
Qed.
End ScrollFacts.

Lemma loadMore_shows_next_results_witness :
  length (Manager.rendered (replicate 120 tt)
            (Nat.iter 2 (Manager.clickLoadMore (replicate 120 tt))
                      (Manager.resetVirtualScroll (Manager.mkScroll 0 true))))
  = 100%nat.
Proof.
  apply (loadMore_shows_next_results (replicate 120 tt)
           (Manager.mkScroll 0 true) 2).
  reflexivity.
Defined.

(** ** Persian digits *)

Section DigitFacts.
Import Digits.

Lemma replaceDigits_westernDigit (str : jsstring) :
  replaceDigits str = westernDigit <$> str.
Proof.
  unfold replaceDigits, PERSIAN_TO_WESTERN_MAP, replaceAll. cbn [foldl fst snd].
  rewrite <- !list_fmap_compose. apply list_fmap_ext. intros _ c _.
  unfold compose, westernDigit.
  destruct (N.leb_spec 0x06F0 c) as [Hlo|Hlo];
    destruct (N.leb_spec c 0x06F9) as [Hhi|Hhi]; cbn [andb].
  - assert (c = 0x06F0 \/ c = 0x06F1 \/ c = 0x06F2 \/ c = 0x06F3 \/ c = 0x06F4
            \/ c = 0x06F5 \/ c = 0x06F6 \/ c = 0x06F7 \/ c = 0x06F8
            \/ c = 0x06F9)%N as Hc by lia.
    repeat destruct Hc as [->|Hc]; try subst c; reflexivity.
  - repeat (rewrite (proj2 (N.eqb_neq c _)) by lia; cbv iota). done.
  - repeat (rewrite (proj2 (N.eqb_neq c _)) by lia; cbv iota). done.
  - lia.
Qed.

(** Every entry of the memo table holds the conversion of its key. *)
Lemma afterCalls_entries (strs : list jsstring) : forall key result,
  JsMap.get key (afterCalls strs) = Some result ->
  result = westernDigit <$> key.
Proof.
  induction strs as [|str strs IH] using rev_ind; intros key result; [done|].
  unfold afterCalls. rewrite foldl_app. cbn [foldl].
  fold (afterCalls strs). unfold persianToWestern.
  destruct str as [|c str]; [apply IH|].
  match goal with
  | |- context [match ?g with Some _ => _ | None => _ end] => destruct g eqn:E
  end; [apply IH|].
  cbn [snd]. destruct (decide (key = c :: str)) as [->|Hne].
  - rewrite get_set_eq. intros [= <-]. apply replaceDigits_westernDigit.
  - rewrite get_set_ne by done. apply IH.
Qed.

(** X19. [persianToWestern] replaces each Persian digit (U+06F0 to U+06F9)
    by the ASCII digit of the same value and leaves every other code unit
    as it is, whatever strings it was called with before: the memo table
    never changes a result. *)
Theorem persianToWestern_converts_digits (strs : list jsstring) (str : jsstring) :
  (persianToWestern str (afterCalls strs)).1 = westernDigit <$> str.
Proof.
  unfold persianToWestern. destruct str as [|c str]; [done|].
  match goal with
  | |- context [match ?g with Some _ => _ | None => _ end] =>
      destruct g as [result|] eqn:E
  end.
  - cbn [fst]. by apply (afterCalls_entries strs).
  - apply replaceDigits_westernDigit.
Qed.
End DigitFacts.

(** ** Vendor codes in addresses *)

Section UrlFacts.
Import Url.
Implicit Types (url s lit code : jsstring).

Lemma takeAlnum_split s :
  exists rest, s = takeAlnum s ++ rest
    /\ Forall (λ c, isAlnum c = true) (takeAlnum s)
    /\ (forall c, head rest = Some c -> isAlnum c = false).
Proof.
  induction s as [|c s (rest & Heq & Hall & Hnext)]; simpl.
  - exists []. by split_and!.
  - destruct (isAlnum c) eqn:Hc.
    + exists rest. split_and!; [cbn [app]; by rewrite <- Heq | by constructor | done].
    + exists (c :: s). split_and!; [done | constructor |].
      intros c' [= <-]. done.
Qed.

Lemma takeAlnum_all code s :
  Forall (λ c, isAlnum c = true) code ->
  (forall c, head s = Some c -> isAlnum c = false) ->
  takeAlnum (code ++ s) = code.
Proof.
  intros Hall Hs. induction Hall as [|c code Hc Hall IH]; simpl.
  - destruct s as [|c s]; [done|]. simpl. by rewrite (Hs c eq_refl).
  - by rewrite Hc, IH.
Qed.

Lemma matchHere_sound lit atEnd s code :
  matchHere lit atEnd s = Some code ->
  code ≠ [] /\ Forall (λ c, isAlnum c = true) code
  /\ exists rest, s = lit ++ code ++ rest
       /\ (forall c, head rest = Some c -> isAlnum c = false).
Proof.
  unfold matchHere. destruct (Str.startsWith s lit) eqn:Hlit; [|done].
  apply startsWith_spec in Hlit as [tl ->].
  rewrite drop_app_length.
  destruct (takeAlnum_split tl) as (rest & Heq & Hall & Hnext).
  case_bool_decide as Hne; [done|].
  destruct (atEnd && _); [done|]. intros [= <-].
  split_and!; [done | done |]. exists rest. by rewrite <- Heq.
Qed.

Lemma matchGroup_sound lit atEnd url : forall code,
  matchGroup lit atEnd url = Some code ->
  code ≠ [] /\ Forall (λ c, isAlnum c = true) code
  /\ exists before rest, url = before ++ lit ++ code ++ rest
       /\ (forall c, head rest = Some c -> isAlnum c = false).
Proof.
  induction url as [|c url IH]; intros code; cbn [matchGroup].
  - destruct (matchHere lit atEnd []) as [code'|] eqn:Hm; [|done].
    intros [= <-]. apply matchHere_sound in Hm as (? & ? & rest & ? & ?).
    split_and!; [done | done |]. by exists [], rest.
  - destruct (matchHere lit atEnd (c :: url)) as [code'|] eqn:Hm.
    + intros [= <-]. apply matchHere_sound in Hm as (? & ? & rest & ? & ?).
      split_and!; [done | done |]. by exists [], rest.
    + intros Hg. apply IH in Hg as (? & ? & before & rest & -> & ?).
      split_and!; [done | done |]. by exists (c :: before), rest.
Qed.

Lemma matchGroup_skip lit atEnd c url :
  Str.startsWith (c :: url) lit = false ->
  matchGroup lit atEnd (c :: url) = matchGroup lit atEnd url.
Proof. intros Hs. cbn [matchGroup]. unfold matchHere. by rewrite Hs. Qed.

(** A literal that starts with a character that is neither a letter nor a
    digit has no match in a run of letters and digits. *)
Lemma matchGroup_alnum l lit atEnd code :
  isAlnum l = false ->
  Forall (λ c, isAlnum c = true) code ->
  matchGroup (l :: lit) atEnd code = None.
Proof.
  intros Hl Hall. induction Hall as [|c code Hc Hall IH].
  - done.
  - rewrite matchGroup_skip; [done|]. simpl.
    destruct (N.eqb_spec c l) as [->|]; [congruence | done].
Qed.

Lemma matchGroup_here lit atEnd code :
  code ≠ [] ->
  Forall (λ c, isAlnum c = true) code ->
  matchGroup lit atEnd (lit ++ code) = Some code.
Proof.
  intros Hne Hall.
  assert (matchHere lit atEnd (lit ++ code) = Some code) as Hm.
  { unfold matchHere.
    assert (Str.startsWith (lit ++ code) lit = true) as ->.
    { apply startsWith_spec. by exists code. }
    rewrite drop_app_length.
    assert (takeAlnum code = code) as ->.
    { rewrite <- (app_nil_r code) at 1. by apply takeAlnum_all. }
    rewrite bool_decide_eq_false_2 by done.
    rewrite drop_app_add, drop_all.
    rewrite (bool_decide_eq_true_2 ([] = [] \/ _)) by (by left).
    by rewrite andb_false_r. }
  destruct (lit ++ code); cbn [matchGroup]; by rewrite Hm.
Qed.

(** X20. [extractVendorCodeFromUrl] returns a code only when the address
    holds one: the code is a non-empty run of ASCII letters and digits that
    follows one of the markers of the platform in the address and ends
    where the letters and digits end. *)
Theorem extractVendorCodeFromUrl_sound url (platform : Platform) code :
  extractVendorCodeFromUrl url platform = Some code ->
  code ≠ []
  /\ Forall (λ c, isAlnum c = true) code
  /\ exists marker before rest,
       marker ∈ markers platform
       /\ url = before ++ marker ++ code ++ rest
       /\ (forall c, head rest = Some c -> isAlnum c = false).
Proof.
  destruct platform; cbn [extractVendorCodeFromUrl markers].
  - destruct (matchGroup (js "-r-") false url) as [code'|] eqn:H1.
    + intros [= <-].
      apply matchGroup_sound in H1 as (? & ? & before & rest & ? & ?).
      split_and!; [done | done |]. exists (js "-r-"), before, rest.
      split_and!; [by left | done | done].
    + intros H2.
      apply matchGroup_sound in H2 as (? & ? & before & rest & ? & ?).
      split_and!; [done | done |]. exists (js "/restaurant/menu/"), before, rest.
      split_and!; [by right; left | done | done].
  - intros H1.
    apply matchGroup_sound in H1 as (? & ? & before & rest & ? & ?).
    split_and!; [done | done |]. exists (js "tapsi.food/vendor/"), before, rest.
    split_and!; [by left | done | done].
Qed.

(** X21. The address that [openCounterpartVendor] builds for a vendor code
    is read back by [extractVendorCodeFromUrl] as that code, for every
    non-empty code of ASCII letters and digits and on both platforms. *)
Theorem extractVendorCodeFromUrl_vendorUrl (platform : Platform) code :
  code ≠ [] ->
  Forall (λ c, isAlnum c = true) code ->
  extractVendorCodeFromUrl (vendorUrl platform code) platform = Some code.
Proof.
  intros Hne Hall. destruct platform; cbn [extractVendorCodeFromUrl vendorUrl].
  - assert (matchGroup (js "-r-") false
              (js "https://snappfood.ir/restaurant/menu/" ++ code) = None) as ->.
    { cbn [js list_ascii_of_string fmap list_fmap N_of_ascii app].
      repeat (rewrite matchGroup_skip by reflexivity).
      by apply matchGroup_alnum. }
    change (js "https://snappfood.ir/restaurant/menu/")
      with (js "https://snappfood.ir" ++ js "/restaurant/menu/").
    rewrite <- app_assoc.
    cbn [js list_ascii_of_string fmap list_fmap N_of_ascii app].
    repeat (rewrite matchGroup_skip by reflexivity).
    by apply (matchGroup_here (js "/restaurant/menu/")).
  - change (js "https://tapsi.food/vendor/")
      with (js "https://" ++ js "tapsi.food/vendor/").
    rewrite <- app_assoc.
    cbn [js list_ascii_of_string fmap list_fmap N_of_ascii app].
    repeat (rewrite matchGroup_skip by reflexivity).
    by apply (matchGroup_here (js "tapsi.food/vendor/")).
Qed.
End UrlFacts.

Lemma extractVendorCodeFromUrl_sound_witness :
  js "abc123" ≠ []
  /\ Forall (λ c, Url.isAlnum c = true) (js "abc123")
  /\ exists marker before rest,
       marker ∈ Url.markers Url.Snappfood
       /\ js "https://snappfood.ir/restaurant/menu/kabab-r-abc123/"
          = before ++ marker ++ js "abc123" ++ rest
       /\ (forall c, head rest = Some c -> Url.isAlnum c = false).
Proof.
  apply (extractVendorCodeFromUrl_sound
           (js "https://snappfood.ir/restaurant/menu/kabab-r-abc123/")
           Url.Snappfood (js "abc123")).
  reflexivity.
Defined.

Lemma extractVendorCodeFromUrl_vendorUrl_witness :
  Url.extractVendorCodeFromUrl (Url.vendorUrl Url.Tapsifood (js "x9y")) Url.Tapsifood
  = Some (js "x9y").
Proof.
  apply (extractVendorCodeFromUrl_vendorUrl Url.Tapsifood (js "x9y")).
  - done.
  - repeat constructor.
Defined.

(** ** Rating extraction *)

Section RatingFacts.
Import Rating.

(** What the cache holds under the key after a call for an element that is
    not skipped: the rating that the call returned, or [null]. *)
Lemma extractRating_stores element key st :
  isResultItem element = false ->
  cacheKeyOf element = Some key ->
  JsMap.get key
    (Content.cache
       (ratingCache (extractRatingFromElement (Some element) false st).2))
  = Some (extractRatingFromElement (Some element) false st).1.
Proof.
  intros Hitem Hkey. unfold extractRatingFromElement.
  rewrite Hitem, Hkey. cbn [orb].
  destruct (Content.get key (ratingCache st)) as [cached cache] eqn:Hget.
  unfold Content.get in Hget.
  destruct (JsMap.get key (Content.cache (ratingCache st))) as [item|] eqn:E.
  - injection Hget as <- <-. destruct item as [rating|].
    + cbn [fst snd ratingCache Content.cache]. apply get_set_eq.
    + destruct (foundRating element); cbn [fst snd ratingCache store];
        apply content_set_same.
  - injection Hget as <- <-.
    destruct (foundRating element); cbn [fst snd ratingCache store];
      apply content_set_same.
Qed.

(** X22. The rating cache is keyed by the first 100 code units of the
    element's [outerHTML]: after a call for one element, the next call for
    any element with the same key returns the rating of the first call when
    there was one, whatever the second element holds; when the first call
    found none, the stored [null] is not used and the second call returns
    what the strategies find in the second element. *)
Theorem extractRating_shares_rating_by_key (first second : Element)
    (key : jsstring) (st : State) :
  isResultItem first = false ->
  isResultItem second = false ->
  cacheKeyOf first = Some key ->
  cacheKeyOf second = Some key ->
  let once := extractRatingFromElement (Some first) false st in
  (extractRatingFromElement (Some second) false once.2).1
  = match once.1 with
    | Some rating => Some rating
    | None => foundRating second
    end.
Proof.
  intros Hitem1 Hitem2 Hkey1 Hkey2 once.
  pose proof (extractRating_stores first key st Hitem1 Hkey1) as Hstored.
  fold once in Hstored.
  unfold extractRatingFromElement at 1. rewrite Hitem2, Hkey2. cbn [orb].
  rewrite (content_get_hit _ _ _ Hstored).
  destruct once.1 as [rating|]; [done|].
  by destruct (foundRating second).
Qed.
End RatingFacts.

Lemma extractRating_shares_rating_by_key_witness :
  let card := js "<div class=card>" in
  let first := Rating.mkElement (Some card) None false (Some 4.5%float) in
  let second := Rating.mkElement (Some card) None false (Some 3%float) in
  let st := Rating.mkState (Content.new 500) 0 in
  (Rating.extractRatingFromElement (Some second) false
     (Rating.extractRatingFromElement (Some first) false st).2).1
  = Some 4.5%float.
Proof.
  intros card first second st.
  apply (extractRating_shares_rating_by_key first second card st);
    reflexivity.
Defined.

(** ** Vendor data: cache and retries *)

Section VendorDataFacts.
Context {D : Type} (truthyData : D -> bool).
Import VendorData.
Implicit Types (st : State D) (answers : nat -> ApiResult D) (clock : nat -> Z).

Local Abbreviation getVendorData := (VendorData.getVendorData truthyData).

(** The two attempts of the loop, case by case. *)
Lemma attempts_cases answers clock key st :
  attempts answers clock key RETRY_ATTEMPTS 1 None st
  = let metrics := performanceMetrics st in
    let counted n :=
      mkMetrics (apiCalls metrics + n) (cacheHits metrics)
                (cacheMisses metrics) in
    match answers 1%nat with
    | Success data =>
        (Some (answers 1%nat),
         mkState (Background.set key data (clock 1%nat) (vendorDataCache st))
                 (counted 1))
    | Failure _ _ _ =>
        if retried (answers 1%nat) then
          match answers 2%nat with
          | Success data =>
              (Some (answers 2%nat),
               mkState (Background.set key data (clock 2%nat)
                                       (vendorDataCache st))
                       (counted 2))
          | Failure _ _ _ =>
              (Some (answers 2%nat), mkState (vendorDataCache st) (counted 2))
          end
        else (Some (answers 1%nat), mkState (vendorDataCache st) (counted 1))
    end.
Proof.
  unfold RETRY_ATTEMPTS. cbn [attempts vendorDataCache performanceMetrics
                               apiCalls cacheHits cacheMisses].
  destruct (answers 1%nat) as [d1|e1 t1 c1]; [done|].
  cbn [retried]. destruct t1, c1; cbn [negb andb orb]; try done;
    destruct (answers 2%nat) as [d2|e2 t2 c2];
    cbn [vendorDataCache performanceMetrics apiCalls cacheHits cacheMisses];
    try (destruct (negb t2 && negb c2));
    rewrite <- Z.add_assoc; reflexivity.
Qed.

(** X23. [getVendorData] always returns a result object; it calls the
    mapping service at most twice, not at all exactly when the cache holds
    truthy data that have not expired, and a second time only after a
    timeout or a connection error; the result is the cached data or the
    answer of the last attempt.  A failure is never cached: after a failed
    call every entry of the store was there before. *)
Theorem getVendorData_retries_network_failures_only (platform vendorCode : jsstring)
    (now : Z) answers clock st :
  let key := cacheKeyOf platform vendorCode in
  let r := getVendorData platform vendorCode now answers clock st in
  let calls :=
    apiCalls (performanceMetrics r.2) - apiCalls (performanceMetrics st) in
  is_Some r.1
  /\ (calls = 0 \/ calls = 1 \/ calls = 2)
  /\ (calls = 0 <->
      exists data,
        (Background.get key now (vendorDataCache st)).1 = Some data
        /\ truthyData data = true)
  /\ (forall data,
        (Background.get key now (vendorDataCache st)).1 = Some data ->
        truthyData data = true ->
        r.1 = Some (Success data))
  /\ (forall item,
        JsMap.get key (Background.cache (vendorDataCache st)) = Some item ->
        now < Background.expiry item ->
        truthyData (Background.data item) = true ->
        calls = 0 /\ r.1 = Some (Success (Background.data item)))
  /\ (calls = 1 ->
      retried (answers 1%nat) = false /\ r.1 = Some (answers 1%nat))
  /\ (calls = 2 ->
      retried (answers 1%nat) = true /\ r.1 = Some (answers 2%nat))
  /\ (failed r.1 = true ->
      forall key item,
        JsMap.get key (Background.cache (vendorDataCache r.2)) = Some item ->
        JsMap.get key (Background.cache (vendorDataCache st)) = Some item).
Proof.
  intros key r calls.
  assert (forall item,
            JsMap.get key (Background.cache (vendorDataCache st)) = Some item ->
            now < Background.expiry item ->
            (Background.get key now (vendorDataCache st)).1
            = Some (Background.data item)) as Hfresh.
  { intros item Hitem Hlt. by rewrite (background_get_fresh _ _ _ _ Hitem Hlt). }
  unfold calls, r, VendorData.getVendorData. fold key.
  pose proof (λ k item,
                background_step_lookup (Background.OpGet key now)
                  (vendorDataCache st) k item) as Hkept.
  cbn [Background.step] in Hkept.
  destruct (Background.get key now (vendorDataCache st)) as [cached cache]
    eqn:Hget.
  cbn [snd fst] in Hkept, Hfresh |- *.
  assert (forall st0,
            vendorDataCache st0 = cache ->
            apiCalls (performanceMetrics st0) = apiCalls (performanceMetrics st) ->
            (forall data, cached = Some data -> truthyData data = false) ->
            let r := attempts answers clock key RETRY_ATTEMPTS 1 None st0 in
            let calls :=
              apiCalls (performanceMetrics r.2) - apiCalls (performanceMetrics st) in
            is_Some r.1
            /\ (calls = 0 \/ calls = 1 \/ calls = 2)
            /\ (calls = 0 <->
                exists data, cached = Some data /\ truthyData data = true)
            /\ (forall data,
                  cached = Some data -> truthyData data = true ->
                  r.1 = Some (Success data))
            /\ (forall item,
                  JsMap.get key (Background.cache (vendorDataCache st))
                  = Some item ->
                  now < Background.expiry item ->
                  truthyData (Background.data item) = true ->
                  calls = 0 /\ r.1 = Some (Success (Background.data item)))
            /\ (calls = 1 ->
                retried (answers 1%nat) = false /\ r.1 = Some (answers 1%nat))
            /\ (calls = 2 ->
                retried (answers 1%nat) = true /\ r.1 = Some (answers 2%nat))
            /\ (failed r.1 = true ->
                forall k item,
                  JsMap.get k (Background.cache (vendorDataCache r.2)) = Some item ->
                  JsMap.get k (Background.cache (vendorDataCache st)) = Some item))
    as Hfetch.
  { intros st0 Hcache Hcalls Hfalsy r0 calls0.
    assert (forall data, cached = Some data -> truthyData data = true -> False)
      as Hno.
    { intros data Hc Ht. rewrite (Hfalsy data Hc) in Ht. done. }
    assert (forall item,
              JsMap.get key (Background.cache (vendorDataCache st)) = Some item ->
              now < Background.expiry item ->
              truthyData (Background.data item) = true -> False) as Hno'.
    { intros item Hitem Hlt. apply Hno. by apply Hfresh. }
    assert (calls0 ≠ 0 ->
            calls0 = 0 <->
            exists data, cached = Some data /\ truthyData data = true) as Hiff.
    { intros Hne. split; [done|]. intros (data & Hc & Ht).
      by destruct (Hno data Hc Ht). }
    revert Hiff. unfold calls0, r0.
    rewrite attempts_cases. cbn zeta. rewrite Hcache, Hcalls.
    destruct (answers 1%nat) as [d1|e1 t1 c1] eqn:H1.
    - cbn [fst snd performanceMetrics apiCalls vendorDataCache retried failed].
      intros Hiff. split_and!; [done | lia | apply Hiff; lia | | | done | lia | done].
      + intros data Hc Ht. by destruct (Hno data Hc Ht).
      + intros item Hitem Hlt Ht. by destruct (Hno' item Hitem Hlt Ht).
    - destruct (retried (Failure e1 t1 c1)) eqn:Hretry.
      + destruct (answers 2%nat) as [d2|e2 t2 c2] eqn:H2;
          cbn [fst snd performanceMetrics apiCalls vendorDataCache failed];
          intros Hiff.
        * split_and!; [done | lia | apply Hiff; lia | | | lia | done | done].
          -- intros data Hc Ht. by destruct (Hno data Hc Ht).
          -- intros item Hitem Hlt Ht. by destruct (Hno' item Hitem Hlt Ht).
        * split_and!; [done | lia | apply Hiff; lia | | | lia | done |].
          -- intros data Hc Ht. by destruct (Hno data Hc Ht).
          -- intros item Hitem Hlt Ht. by destruct (Hno' item Hitem Hlt Ht).
          -- intros _ k item. apply Hkept.
      + cbn [fst snd performanceMetrics apiCalls vendorDataCache failed].
        intros Hiff.
        split_and!; [done | lia | apply Hiff; lia | | | done | lia |].
        * intros data Hc Ht. by destruct (Hno data Hc Ht).
        * intros item Hitem Hlt Ht. by destruct (Hno' item Hitem Hlt Ht).
        * intros _ k item. apply Hkept. }
  destruct cached as [data|]; [destruct (truthyData data) eqn:Htruthy|].
  - cbn [fst snd performanceMetrics apiCalls vendorDataCache failed].
    split_and!; [done | lia | | | | lia | lia | done].
    + split; [|lia]. intros _. by exists data.
    + by intros data' [= <-] _.
    + intros item Hitem Hlt _. specialize (Hfresh item Hitem Hlt).
      injection Hfresh as ->. split; [lia | done].
  - apply Hfetch; [done | done |]. by intros data' [= <-].
  - apply Hfetch; [done | done | done].
Qed.

(** A call that does not remove the entry leaves it as it is. *)
Lemma removesEntry_false_keeps key o (c : Background.PerformanceCache jsstring D)
    item :
  NoDup (JsMap.keys (Background.cache c)) ->
  JsMap.get key (Background.cache c) = Some item ->
  removesEntry key o c = false ->
  JsMap.get key (Background.cache (Background.step o c)) = Some item.
Proof.
  intros Hnd Hitem Hkeeps. unfold removesEntry in Hkeeps. rewrite Hitem in Hkeeps.
  destruct o as [k now|k d now| |now]; cbn [Background.step].
  - unfold Background.get.
    destruct (decide (k = key)) as [->|Hne].
    + rewrite Hitem. rewrite bool_decide_eq_true_2 in Hkeeps by done.
      cbn [andb] in Hkeeps. apply Z.leb_gt in Hkeeps.
      rewrite (proj2 (Z.ltb_lt _ _) Hkeeps). cbn. apply get_set_eq.
    + destruct (JsMap.get k (Background.cache c)) as [it|]; [|done].
      destruct (now <? Background.expiry it); cbn.
      * by rewrite get_move_to_end_ne.
      * by rewrite get_delete_ne.
  - apply orb_false_iff in Hkeeps as [Hne Hevict].
    apply bool_decide_eq_false in Hne.
    unfold Background.set. cbn [Background.cache].
    rewrite get_set_ne by done.
    destruct (JsMap.size (Background.cache c) >=? Background.maxSize c);
      [|done].
    destruct (JsMap.has k (Background.cache c)); [done|].
    cbn [andb negb] in Hevict |- *. apply bool_decide_eq_false in Hevict.
    by rewrite get_deleteFirst_ne.
  - done.
  - cbn. rewrite get_foldl_delete_other; [done|].
    intros Hin. apply list_elem_of_fmap in Hin as ([k it] & -> & Hin).
    apply list_elem_of_filter in Hin as [Hexp Hin]. cbn [fst snd] in *.
    rewrite (get_of_entry _ _ _ Hnd Hin) in Hitem. injection Hitem as ->.
    apply Z.leb_gt in Hkeeps. lia.
Qed.

Lemma entryKept_keeps key ops : forall (c : Background.PerformanceCache jsstring D) item,
  NoDup (JsMap.keys (Background.cache c)) ->
  JsMap.get key (Background.cache c) = Some item ->
  entryKept key ops c = true ->
  JsMap.get key (Background.cache (Background.run ops c)) = Some item.
Proof.
  induction ops as [|o ops IH]; intros c item Hnd Hitem Hkept; [done|].
  cbn [entryKept] in Hkept. apply andb_true_iff in Hkept as [Hkeeps Hkept].
  apply negb_true_iff in Hkeeps.
  change (Background.run (o :: ops) c)
    with (Background.run ops (Background.step o c)).
  apply IH; [by apply background_step_NoDup | | done].
  by apply removesEntry_false_keeps.
Qed.

(** What a call does to the cache: a [get] of its key, followed by a [set]
    of that key when the service answered with data. *)
Lemma getVendorData_cache_trace (platform vendorCode : jsstring) (now : Z)
    answers clock st :
  let key := cacheKeyOf platform vendorCode in
  exists ops,
    vendorDataCache (getVendorData platform vendorCode now answers clock st).2
    = Background.run ops (vendorDataCache st)
    /\ Forall (touches key) ops.
Proof.
  intros key. unfold VendorData.getVendorData. fold key.
  assert (forall st0,
            vendorDataCache st0
            = Background.step (Background.OpGet key now) (vendorDataCache st) ->
            exists ops,
              vendorDataCache
                (attempts answers clock key RETRY_ATTEMPTS 1 None st0).2
              = Background.run ops (vendorDataCache st)
              /\ Forall (touches key) ops) as Hfetch.
  { intros st0 Hcache. rewrite attempts_cases. cbn zeta. rewrite Hcache.
    destruct (answers 1%nat) as [d1|e1 t1 c1].
    - exists [Background.OpGet key now; Background.OpSet key d1 (clock 1%nat)].
      split; [done|]. by repeat constructor.
    - destruct (retried (Failure e1 t1 c1)).
      + destruct (answers 2%nat) as [d2|e2 t2 c2].
        * exists [Background.OpGet key now;
                  Background.OpSet key d2 (clock 2%nat)].
          split; [done|]. by repeat constructor.
        * exists [Background.OpGet key now]. split; [done|].
          by repeat constructor.
      + exists [Background.OpGet key now]. split; [done|].
        by repeat constructor. }
  cbn [Background.step] in Hfetch.
  destruct (Background.get key now (vendorDataCache st)) as [cached cache]
    eqn:Hget.
  cbn [snd] in Hfetch.
  destruct cached as [cachedData|]; [destruct (truthyData cachedData)|].
  - exists [Background.OpGet key now]. cbn [snd vendorDataCache].
    split; [|by repeat constructor].
    unfold Background.run. cbn [foldl Background.step]. by rewrite Hget.
  - by apply Hfetch.
  - by apply Hfetch.
Qed.

(** X24. Data fetched by [getVendorData] are served from the cache
    afterwards: when a call went to the mapping service and returned truthy
    data, a later call for the same platform and vendor code, made before
    the time to live has passed since the answer arrived, returns the same
    data without calling the service and counts a cache hit.  Other calls
    may use the cache in between, as long as none of them removes or replaces
    the entry: no [clear()], no [set] of the same key, no [set] of a new key
    at a time when the store is full and the entry is its first, and no
    [get] of the key or sweep after the entry has expired. *)
Theorem getVendorData_serves_fetched_data_from_cache
    (platform vendorCode : jsstring) (now now' : Z) answers answers' clock clock'
    st (data : D) (between : list (Background.op jsstring D)) (later : State D) :
  let key := cacheKeyOf platform vendorCode in
  let first := getVendorData platform vendorCode now answers clock st in
  NoDup (JsMap.keys (Background.cache (vendorDataCache st))) ->
  first.1 = Some (Success data) ->
  truthyData data = true ->
  apiCalls (performanceMetrics first.2) ≠ apiCalls (performanceMetrics st) ->
  vendorDataCache later = Background.run between (vendorDataCache first.2) ->
  entryKept key between (vendorDataCache first.2) = true ->
  now' < answeredAt answers clock + Background.ttl (vendorDataCache st) ->
  let second := getVendorData platform vendorCode now' answers' clock' later in
  second.1 = Some (Success data)
  /\ apiCalls (performanceMetrics second.2) = apiCalls (performanceMetrics later)
  /\ cacheHits (performanceMetrics second.2)
     = cacheHits (performanceMetrics later) + 1.
Proof.
  intros key first Hnd Hres Htruthy Hfetched Hlater Hkept Hfresh second.
  assert (vendorDataCache first.2
          = Background.set key data (answeredAt answers clock)
              (Background.step (Background.OpGet key now) (vendorDataCache st)))
    as Hstored.
  { unfold first, VendorData.getVendorData in *. fold key in Hres, Hfetched |- *.
    cbn [Background.step].
    destruct (Background.get key now (vendorDataCache st)) as [cached cache]
      eqn:Hget.
    cbn [snd].
    assert (forall st0,
              vendorDataCache st0 = cache ->
              (attempts answers clock key RETRY_ATTEMPTS 1 None st0).1
              = Some (Success data) ->
              vendorDataCache
                (attempts answers clock key RETRY_ATTEMPTS 1 None st0).2
              = Background.set key data (answeredAt answers clock) cache)
      as Hfetch.
    { intros st0 Hcache. rewrite attempts_cases. cbn zeta. rewrite Hcache.
      unfold answeredAt.
      destruct (answers 1%nat) as [d1|e1 t1 c1] eqn:H1.
      - cbn [fst snd vendorDataCache]. by intros [= ->].
      - destruct (retried (Failure e1 t1 c1)).
        + destruct (answers 2%nat) as [d2|e2 t2 c2] eqn:H2;
            cbn [fst snd vendorDataCache]; [|done].
          by intros [= ->].
        + by cbn [fst]. }
    destruct cached as [cachedData|]; [destruct (truthyData cachedData)|].
    - cbn [snd performanceMetrics apiCalls] in Hfetched. done.
    - by apply Hfetch.
    - by apply Hfetch. }
  set (cache := Background.step (Background.OpGet key now) (vendorDataCache st))
    in Hstored.
  set (item := Background.mkItem data
                 (answeredAt answers clock + Background.ttl (vendorDataCache st))
                 (answeredAt answers clock)).
  assert (JsMap.get key (Background.cache (vendorDataCache later)) = Some item)
    as Hentry.
  { rewrite Hlater. apply entryKept_keeps.
    - rewrite Hstored.
      change (Background.set key data ?t cache)
        with (Background.step (Background.OpSet key data t) cache).
      by do 2 apply background_step_NoDup.
    - rewrite Hstored. unfold Background.set. cbn [Background.cache].
      unfold item, cache. rewrite background_step_ttl. apply get_set_eq.
    - exact Hkept. }
  unfold second, VendorData.getVendorData. fold key.
  rewrite (background_get_fresh _ _ now' _ Hentry) by done.
  cbn [Background.data item]. rewrite Htruthy.
  cbn [fst snd performanceMetrics apiCalls cacheHits]. done.
Qed.
End VendorDataFacts.

Lemma getVendorData_serves_fetched_data_from_cache_witness :
  let truthy : Z -> bool := λ d, negb (d =? 0) in
  let answers : nat -> VendorData.ApiResult Z :=
    λ attempt, if (attempt =? 1)%nat
               then VendorData.Failure (js "timeout") true false
               else VendorData.Success 7 in
  let clock : nat -> Z := λ attempt, 10000 * Z.of_nat attempt in
  let st := VendorData.mkState (Background.new 200 300000)
                               (VendorData.mkMetrics 0 0 0) in
  let first :=
    VendorData.getVendorData truthy (js "snappfood") (js "abc") 50 answers clock st in
  let other := VendorData.cacheKeyOf (js "tapsifood") (js "xyz") in
  let between := [Background.OpGet other 30000; Background.OpSet other 9 30500;
                  Background.OpCleanup 300000] in
  let later :=
    VendorData.mkState
      (Background.run between (VendorData.vendorDataCache first.2))
      (VendorData.mkMetrics 2 0 2) in
  let second :=
    VendorData.getVendorData truthy (js "snappfood") (js "abc") 315000
      (λ _, VendorData.Failure (js "down") false true) clock later in
  second.1 = Some (VendorData.Success 7)
  /\ VendorData.apiCalls (VendorData.performanceMetrics second.2) = 2
  /\ VendorData.cacheHits (VendorData.performanceMetrics second.2) = 0 + 1.
Proof.
  intros truthy answers clock st first other between later second.
  apply (getVendorData_serves_fetched_data_from_cache truthy
           (js "snappfood") (js "abc") 50 315000 answers
           (λ _, VendorData.Failure (js "down") false true) clock clock st 7
           between later).
  - apply NoDup_nil_2.
  - reflexivity.
  - reflexivity.
  - by_evaluation.
  - reflexivity.
  - by vm_compute.
  - by vm_compute.
Defined.

(** ** Product payloads *)

Section FetchFacts.
Import Fetch.

Lemma sfAccepted_Some p i q :
  sfAccepted p = Some (i, q) ->
  p = Some q /\ sfId q = Some i /\ i ≠ 0 /\ sfTitle q ≠ NoText.
Proof.
  unfold sfAccepted. destruct p as [p|]; [|done].
  destruct (sfId p) as [j|] eqn:Hid; [|done].
  destruct (truthyZ j) eqn:Hj; [|done].
  destruct (definedText (sfTitle p)) eqn:Ht; [|done].
  destruct (definedNumber (sfPrice p)); [|done]. cbn [andb].
  intros [= <- <-]. split_and!; [done | done | |].
  - unfold truthyZ in Hj. apply negb_true_iff, Z.eqb_neq in Hj. done.
  - intros Hno. by rewrite Hno in Ht.
Qed.

Lemma foldl_addSfProduct_None ps : foldl addSfProduct None ps = None.
Proof. induction ps as [|p ps IH]; [done | apply IH]. Qed.

(** Every entry of the result was there at the start or was built from a
    product that the loop visited and accepted. *)
Lemma foldl_addSfProduct_Some ps : forall products products',
  foldl addSfProduct (Some products) ps = Some products' ->
  forall k product, products' !! k = Some product ->
    products !! k = Some product
    \/ exists q, Some q ∈ ps /\ sfAccepted (Some q) = Some (k, q)
         /\ sfProductOf k q = Some product.
Proof.
  induction ps as [|p ps IH]; intros products products' Hfold k product Hk.
  - injection Hfold as <-. by left.
  - cbn [foldl] in Hfold.
    destruct (addSfProduct (Some products) p) as [products1|] eqn:Hadd.
    2:{ by rewrite foldl_addSfProduct_None in Hfold. }
    destruct (IH _ _ Hfold k product Hk) as [Hold|(q & Hq & Hacc & Hprod)].
    2:{ right. exists q. split_and!; [by right | done | done]. }
    cbn [addSfProduct] in Hadd.
    destruct (sfAccepted p) as [[i q]|] eqn:Hacc.
    2:{ injection Hadd as <-. by left. }
    destruct (sfProductOf i q) as [built|] eqn:Hbuilt; [|done].
    injection Hadd as <-.
    destruct (decide (i = k)) as [->|Hne].
    + rewrite lookup_insert_eq in Hold. injection Hold as ->.
      right. exists q. apply sfAccepted_Some in Hacc as Hq.
      destruct Hq as (-> & _). split_and!; [by left | done | done].
    + rewrite lookup_insert_ne in Hold by done. by left.
Qed.

Lemma foldl_addSfProduct_fails ps : forall products,
  foldl addSfProduct (Some products) ps = None
  <-> exists p, p ∈ ps /\ sfTitleNotString p.
Proof.
  induction ps as [|p ps IH]; intros products.
  - split; [done|]. intros (p & Hp & _). by apply elem_of_nil in Hp.
  - cbn [foldl addSfProduct].
    destruct (sfAccepted p) as [[i q]|] eqn:Hacc.
    + unfold sfProductOf.
      destruct (sfTitle q) as [| |title|] eqn:Htitle.
      * apply sfAccepted_Some in Hacc as (_ & _ & _ & Hdef). done.
      * rewrite foldl_addSfProduct_None. split; [|done]. intros _.
        exists p. split; [by left|]. exists i, q. split; [done | by left].
      * rewrite IH. split.
        -- intros (p' & Hp' & Hnull). exists p'. split; [by right | done].
        -- intros (p' & Hp' & Hnull).
           apply elem_of_cons in Hp' as [->|Hp']; [|by exists p'].
           destruct Hnull as (i' & q' & Hacc' & Htitle').
           rewrite Hacc in Hacc'. injection Hacc' as <- <-.
           destruct Htitle'; congruence.
      * rewrite foldl_addSfProduct_None. split; [|done]. intros _.
        exists p. split; [by left|]. exists i, q. split; [done | by right].
    + rewrite IH. split.
      * intros (p' & Hp' & Hnull). exists p'. split; [by right | done].
      * intros (p' & Hp' & Hnull).
        apply elem_of_cons in Hp' as [->|Hp']; [|by exists p'].
        destruct Hnull as (i' & q' & Hacc' & _). congruence.
Qed.

(** X25. Every product that [fetchSnappfoodData] returns is stored under
    its own id, which is not 0, and was built from a product of the payload
    with that id and a title: its name is the trimmed title, its original
    price is [price || 0], its discount is [discount || 0], and its price is
    the original price minus the discount. *)
Theorem fetchSnappfoodData_products (menus : list (option SfMenu))
    (products : gmap Z Product) (k : Z) (product : Product) :
  fetchSnappfoodData (Some menus) = Some products ->
  products !! k = Some product ->
  k ≠ 0 /\ id product = k
  /\ exists q title,
       Some q ∈ sfVisited menus /\ sfId q = Some k /\ sfTitle q = Text title
       /\ name product = Str.trim title
       /\ originalPrice product = orZero (sfPrice q)
       /\ discount product = Some (orZero (sfDiscount q))
       /\ price product
          = (originalPrice product - orZero (sfDiscount q))%float.
Proof.
  intros Hfetch Hk. cbn [fetchSnappfoodData] in Hfetch.
  destruct (foldl_addSfProduct_Some _ _ _ Hfetch k product Hk)
    as [Hempty|(q & Hq & Hacc & Hbuilt)].
  { by rewrite lookup_empty in Hempty. }
  apply sfAccepted_Some in Hacc as (_ & Hid & Hne & _).
  unfold sfProductOf in Hbuilt. destruct (sfTitle q) as [| |title|] eqn:Htitle;
    try done.
  injection Hbuilt as <-. cbn. split_and!; [done | done |].
  exists q, title. by split_and!.
Qed.

(** X26. [fetchSnappfoodData] returns [null] for a payload with menu
    sections exactly when one of the products that pass the test of the
    loop has a title that is not a string: [null], a number, a boolean, an
    array or an object.  For such a title [p.title.trim()] throws, and one
    such product discards the products of the whole menu.  A title 5 on an
    accepted product gives [null]; so does a title [null]; a missing title
    does not, as the product is skipped. *)
Theorem fetchSnappfoodData_null_iff_title_not_string :
  (forall menus : list (option SfMenu),
     fetchSnappfoodData (Some menus) = None
     <-> exists p, p ∈ sfVisited menus /\ sfTitleNotString p)
  /\ (forall p : option SfProduct,
        sfTitleNotString p
        <-> exists q i,
              p = Some q /\ sfId q = Some i /\ i ≠ 0
              /\ sfPrice q ≠ NoNumber
              /\ sfTitle q ≠ NoText
              /\ forall title, sfTitle q ≠ Text title)
  /\ (let product title :=
        Some (mkSfProduct (Some 1) title (Number 10) NoNumber NoNumber) in
      let menu title := [Some (mkSfMenu (Some [product title]))] in
      fetchSnappfoodData (Some (menu OtherText)) = None
      /\ fetchSnappfoodData (Some (menu NullText)) = None
      /\ fetchSnappfoodData (Some (menu NoText)) = Some ∅
      /\ is_Some (fetchSnappfoodData (Some (menu (Text (js "kabab")))))).
Proof.
  split; [|split].
  - intros menus. apply foldl_addSfProduct_fails.
  - intros p. unfold sfTitleNotString, sfAccepted. split.
    + intros (i & q & Hacc & Htitle). destruct p as [p|]; [|done].
      destruct (sfId p) as [j|] eqn:Hid; [|done].
      destruct (truthyZ j) eqn:Hj; [|done].
      destruct (definedText (sfTitle p)) eqn:Ht; [|done].
      destruct (definedNumber (sfPrice p)) eqn:Hp; [|done].
      cbn [andb] in Hacc. injection Hacc as <- <-.
      exists p, j. split_and!; try done.
      * unfold truthyZ in Hj. by apply negb_true_iff, Z.eqb_neq in Hj.
      * intros Hno. by rewrite Hno in Hp.
      * intros Hno. by rewrite Hno in Ht.
      * intros title Heq. destruct Htitle; congruence.
    + intros (q & i & -> & Hid & Hne & Hprice & Hdef & Htitle).
      exists i, q. rewrite Hid. unfold truthyZ.
      rewrite (proj2 (Z.eqb_neq i 0)) by done.
      destruct (sfTitle q) as [| |title|]; try done;
        destruct (sfPrice q); try done; cbn; try (split; [done|tauto]).
      all: by destruct (Htitle title).
  - cbv zeta. split_and!; [done | done | done | by eexists].
Qed.

Lemma foldl_addTfProduct_None ps : foldl addTfProduct None ps = None.
Proof. induction ps as [|p ps IH]; [done | apply IH]. Qed.

Lemma foldl_addTfCategory_None cs : foldl addTfCategory None cs = None.
Proof.
  induction cs as [|c cs IH]; [done|]. cbn [foldl].
  assert (addTfCategory None c = None) as ->; [|apply IH].
  destruct c as [[[ps|]]|]; cbn [addTfCategory tfProducts]; try done.
  apply foldl_addTfProduct_None.
Qed.

Lemma foldl_addTfProduct_Some ps : forall products products',
  foldl addTfProduct (Some products) ps = Some products' ->
  forall k product, products' !! k = Some product ->
    products !! k = Some product
    \/ exists q, Some q ∈ ps /\ tfProductId q = k /\ tfBuiltFrom q product.
Proof.
  induction ps as [|p ps IH]; intros products products' Hfold k product Hk.
  - injection Hfold as <-. by left.
  - cbn [foldl] in Hfold.
    destruct (addTfProduct (Some products) p) as [products1|] eqn:Hadd.
    2:{ by rewrite foldl_addTfProduct_None in Hfold. }
    destruct (IH _ _ Hfold k product Hk) as [Hold|(q & Hq & Hid & Hprod)].
    2:{ right. exists q. split_and!; [by right | done | done]. }
    cbn [addTfProduct] in Hadd. destruct p as [q|].
    2:{ injection Hadd as <-. by left. }
    destruct (tfProductVariations q) as [[|variation rest]|] eqn:Hvar;
      try (injection Hadd as <-; by left).
    destruct (tfProductOf q variation) as [built|] eqn:Hbuilt; [|done].
    injection Hadd as <-.
    destruct (decide (tfProductId q = k)) as [Heq|Hne].
    + rewrite <- Heq, lookup_insert_eq in Hold. injection Hold as ->.
      right. exists q. split_and!; [by left | done |].
      unfold tfProductOf in Hbuilt. destruct variation as [variation|]; [|done].
      destruct (tfProductName q) as [| |productName|] eqn:Hname; try done.
      injection Hbuilt as <-. exists variation, rest, productName.
      by split_and!.
    + rewrite lookup_insert_ne in Hold by done. by left.
Qed.

Lemma foldl_addTfCategory_Some cs : forall products products',
  foldl addTfCategory (Some products) cs = Some products' ->
  forall k product, products' !! k = Some product ->
    products !! k = Some product
    \/ exists q, Some q ∈ tfVisited cs /\ tfProductId q = k
         /\ tfBuiltFrom q product.
Proof.
  induction cs as [|c cs IH]; intros products products' Hfold k product Hk.
  - injection Hfold as <-. by left.
  - cbn [foldl] in Hfold.
    destruct (addTfCategory (Some products) c) as [products1|] eqn:Hadd.
    2:{ by rewrite foldl_addTfCategory_None in Hfold. }
    destruct c as [[ps]|]; [|done]. cbn [addTfCategory tfProducts] in Hadd.
    unfold tfVisited. cbn [omap mbind option_bind tfProducts].
    destruct (IH _ _ Hfold k product Hk) as [Hold|(q & Hq & Hid & Hprod)].
    + destruct ps as [ps|].
      * cbn [concat].
        destruct (foldl_addTfProduct_Some _ _ _ Hadd k product Hold)
          as [Hstart|(q & Hq & Hid & Hprod)]; [by left|].
        right. exists q. split_and!; [|done|done].
        apply elem_of_app. by left.
      * injection Hadd as <-. by left.
    + right. exists q. split_and!; [|done|done]. destruct ps as [ps|].
      * cbn [concat]. apply elem_of_app. by right.
      * done.
Qed.

(** X27. Every product that [fetchTapsifoodData] returns is stored under
    its [productId] and was built from the first variation of a product of
    the payload: its price is that variation's [priceAfterDiscount] when
    this is a number other than 0, and its original price [price || 0]
    otherwise; so a product whose discounted price is 0 is listed at its
    original price. *)
Theorem fetchTapsifoodData_products (categories : list (option TfCategory))
    (products : gmap Z Product) (k : Z) (product : Product) :
  fetchTapsifoodData (Some categories) = Some products ->
  products !! k = Some product ->
  id product = k
  /\ discount product = None
  /\ (Reconcile.truthyNum (price product) = false ->
      price product = originalPrice product)
  /\ exists q variation rest,
       Some q ∈ tfVisited categories /\ tfProductId q = k
       /\ tfProductVariations q = Some (Some variation :: rest)
       /\ originalPrice product = orZero (tfPrice variation)
       /\ price product
          = orElse (tfPriceAfterDiscount variation) (originalPrice product).
Proof.
  intros Hfetch Hk. cbn [fetchTapsifoodData] in Hfetch.
  destruct (foldl_addTfCategory_Some _ _ _ Hfetch k product Hk)
    as [Hempty|(q & Hq & Hid & Hbuilt)].
  { by rewrite lookup_empty in Hempty. }
  destruct Hbuilt as (variation & rest & productName & Hvar & Hname & Hpid
                      & Hn & Horig & Hprice & Hdisc).
  split_and!; [congruence | done | |].
  - rewrite Hprice. unfold orElse.
    destruct (tfPriceAfterDiscount variation) as [| |x]; try done.
    destruct (Reconcile.truthyNum x) eqn:Hx; [|done]. congruence.
  - exists q, variation, rest. by split_and!.
Qed.
End FetchFacts.

Lemma fetchSnappfoodData_products_witness :
  let raw := Fetch.mkSfProduct (Some 5) (Fetch.Text (js " kabab "))
               (Fetch.Number 100%float) (Fetch.Number 20%float) Fetch.NoNumber in
  let menus := [Some (Fetch.mkSfMenu (Some [Some raw]))] in
  let product := mkProduct 5 (js "kabab") 80%float 100%float (Some 20%float)
                           0%float in
  5 ≠ 0 /\ id product = 5
  /\ exists q title,
       Some q ∈ Fetch.sfVisited menus /\ Fetch.sfId q = Some 5
       /\ Fetch.sfTitle q = Fetch.Text title
       /\ name product = Str.trim title
       /\ originalPrice product = Fetch.orZero (Fetch.sfPrice q)
       /\ discount product = Some (Fetch.orZero (Fetch.sfDiscount q))
       /\ price product
          = (originalPrice product - Fetch.orZero (Fetch.sfDiscount q))%float.
Proof.
  intros raw menus product.
  apply (fetchSnappfoodData_products menus {[5 := product]} 5 product).
  - reflexivity.
  - reflexivity.
Defined.

Lemma fetchTapsifoodData_products_witness :
  let variation := Fetch.mkTfVariation (Fetch.Number 100%float)
                     (Fetch.Number 0%float) Fetch.NoNumber in
  let raw := Fetch.mkTfProduct 5 (Fetch.Text (js "kabab"))
               (Some [Some variation]) in
  let categories := [Some (Fetch.mkTfCategory (Some [Some raw]))] in
  let product := mkProduct 5 (js "kabab") 100%float 100%float None 0%float in
  id product = 5
  /\ discount product = None
  /\ (Reconcile.truthyNum (price product) = false ->
      price product = originalPrice product)
  /\ exists q variation rest,
       Some q ∈ Fetch.tfVisited categories /\ Fetch.tfProductId q = 5
       /\ Fetch.tfProductVariations q = Some (Some variation :: rest)
       /\ originalPrice product = Fetch.orZero (Fetch.tfPrice variation)
       /\ price product
          = Fetch.orElse (Fetch.tfPriceAfterDiscount variation)
                         (originalPrice product).
Proof.
  intros variation raw categories product.
  apply (fetchTapsifoodData_products categories {[5 := product]} 5 product).
  - reflexivity.
  - reflexivity.
Defined.

(** ** Ranking and category filters *)

Section StableSortFacts.
Context {A : Type} (after : A -> A -> bool).

(** The sort is stable on every class of elements that the comparator does
    not order. *)
Lemma sortInsert_filter (P : A -> Prop) `{!∀ x, Decision (P x)} x l :
  (forall y, P x -> P y -> after x y = false) ->
  filter P (sortInsert after x l) = filter P (x :: l).
Proof.
  intros Hclass. induction l as [|y l IH]; [done|]. cbn [sortInsert].
  destruct (after x y) eqn:Hxy; [|done].
  destruct (decide (P y)) as [Hy|Hy]; destruct (decide (P x)) as [Hx|Hx].
  - rewrite (Hclass y Hx Hy) in Hxy. done.
  - rewrite (filter_cons_True P y) by done. rewrite IH.
    rewrite !(filter_cons_False P x) by done.
    by rewrite (filter_cons_True P y) by done.
  - rewrite (filter_cons_False P y) by done. rewrite IH.
    rewrite !(filter_cons_True P x) by done.
    by rewrite (filter_cons_False P y) by done.
  - rewrite (filter_cons_False P y) by done. rewrite IH.
    rewrite !(filter_cons_False P x) by done.
    by rewrite (filter_cons_False P y) by done.
Qed.

Lemma jsSort_filter (P : A -> Prop) `{!∀ x, Decision (P x)} l :
  (forall x y, P x -> P y -> after x y = false) ->
  filter P (jsSort after l) = filter P l.
Proof.
  intros Hclass. induction l as [|x l IH]; [done|]. cbn [jsSort foldr].
  fold (jsSort after l). rewrite sortInsert_filter by (intros y; apply Hclass).
  by rewrite !filter_cons, IH.
Qed.

Lemma StronglySorted_weaken (R1 R2 : A -> A -> Prop) l :
  (forall x y, R1 x y -> R2 x y) -> StronglySorted R1 l -> StronglySorted R2 l.
Proof.
  intros Himpl. induction 1 as [|x l Hs IH Hall]; constructor; [done|].
  eapply Forall_impl; [exact Hall|]. intros y. apply Himpl.
Qed.
End StableSortFacts.

Section RankOrderFacts.
Import Search.
Context (toLowerCase : jsstring -> jsstring).

(** X28. [performSmartSearch] ranks by score: the ranked array holds exactly
    the scored records with a score above 5, in descending order of score,
    and records with the same score keep the order they have in the data. *)
Theorem rank_orders_by_score (b : bool) (query : jsstring) (data : Array b) :
  let scored := scoreItem toLowerCase b query <$> data in
  let ranked := rank toLowerCase b query data in
  StronglySorted (λ x y, scoreOf y <= scoreOf x) ranked
  /\ ranked ≡ₚ filter (λ entry, 5 < scoreOf entry) scored
  /\ forall s : Z,
       filter (λ entry, scoreOf entry = s) ranked
       = filter (λ entry, scoreOf entry = s)
                (filter (λ entry, 5 < scoreOf entry) scored).
Proof.
  intros scored ranked. unfold ranked, rank. fold scored. split_and!.
  - eapply StronglySorted_weaken; [|apply jsSort_sorted].
    + intros x y Hxy. cbv beta in Hxy. apply Z.ltb_ge in Hxy. lia.
    + intros x y Hxy. apply Z.ltb_lt in Hxy. apply Z.ltb_ge. lia.
    + intros x y z Hxy Hyz. apply Z.ltb_ge in Hxy, Hyz. apply Z.ltb_ge. lia.
  - apply jsSort_Permutation.
  - intros s. apply jsSort_filter. intros x y Hx Hy. apply Z.ltb_ge. lia.
Qed.
End RankOrderFacts.

Section CategoryFacts.
Import Search.

Lemma arrays_withArrays_other b b0 h l :
  b0 ≠ b -> arrays b0 (withArrays b h l) = arrays b0 h.
Proof. by destruct b, b0. Qed.

(** An allocation leaves the arrays that exist as they are. *)
Lemma read_alloc_kept b b0 h a r :
  (r < length (arrays b0 h))%nat -> read b0 (alloc b h a).1 r = read b0 h r.
Proof.
  intros Hr. destruct (decide (b0 = b)) as [->|Hne].
  - by apply read_alloc_old.
  - unfold read, alloc. cbn [fst]. by rewrite arrays_withArrays_other.
Qed.

Lemma categoryFilter_sublist sm category select l :
  categoryFilter sm category = Some select -> select l `sublist_of` l.
Proof.
  unfold categoryFilter.
  repeat (destruct (String.eqb category _);
          [intros [= <-]; try apply sublist_filter|]); [|done].
  destruct (maxPriceSet sm); [|apply sublist_filter].
  etrans; apply sublist_filter.
Qed.

(** X29. [applyCategoryFilters] only selects: the array it returns is a
    subsequence of the array it was given, every array that exists keeps
    its content, and without product data (a list of vendors) no category
    filters anything: the input is returned as it is. *)
Theorem applyCategoryFilters_selects (sm : SearchManager) (h : Heap)
    (results : nat) (category : string) (b : bool) :
  let r := applyCategoryFilters sm h results category b in
  read b r.1 r.2 `sublist_of` read b h results
  /\ (forall b0 r0, (r0 < length (arrays b0 h))%nat ->
        read b0 r.1 r0 = read b0 h r0)
  /\ (b = false -> r = (h, results)).
Proof.
  intros r. unfold r, applyCategoryFilters. destruct b; [|done].
  destruct (categoryFilter sm category) as [select|] eqn:Hsel; [|done].
  split_and!; [| |done].
  - rewrite read_alloc_new. by eapply categoryFilter_sublist.
  - intros b0 r0 Hr0. by apply read_alloc_kept.
Qed.
End CategoryFacts.

(** ** The limit on the number of results *)

Section SearchLimitFacts.
Import Search.
Context (toLowerCase : jsstring -> jsstring).
Context (localeCompare : jsstring -> jsstring -> Z).

Local Abbreviation search := (performAdvancedSearch toLowerCase localeCompare).

Lemma sameLengths_refl h : sameLengths h h.
Proof. by intros b r Hr. Qed.

Lemma sameLengths_trans h1 h2 h3 :
  sameLengths h1 h2 -> sameLengths h2 h3 -> sameLengths h1 h3.
Proof.
  intros H12 H23 b r Hr. destruct (H12 b r Hr) as [Hr2 Hl2].
  destruct (H23 b r Hr2) as [Hr3 Hl3]. split; [done | congruence].
Qed.

Lemma length_arrays_alloc b b0 h a :
  length (arrays b0 (alloc b h a).1)
  = (length (arrays b0 h) + if bool_decide (b0 = b) then 1 else 0)%nat.
Proof.
  unfold alloc. cbn [fst]. case_bool_decide as Hb.
  - subst b0. rewrite arrays_withArrays, length_app. done.
  - rewrite arrays_withArrays_other by done. lia.
Qed.

Lemma sameLengths_alloc b h a : sameLengths h (alloc b h a).1.
Proof.
  intros b0 r Hr. split.
  - rewrite length_arrays_alloc. lia.
  - by rewrite read_alloc_kept.
Qed.

Lemma alloc_allocated b h a :
  ((alloc b h a).2 < length (arrays b (alloc b h a).1))%nat.
Proof.
  rewrite length_arrays_alloc, bool_decide_eq_true_2 by done.
  unfold alloc. cbn [snd]. lia.
Qed.

Lemma sameLengths_write b h r a :
  length a = length (read b h r) -> sameLengths h (write b h r a).
Proof.
  intros Hlen b0 r0 Hr0. destruct (decide (b0 = b)) as [->|Hne].
  - split.
    + unfold write. by rewrite arrays_withArrays, length_insert.
    + destruct (decide (r0 = r)) as [->|Hr].
      * rewrite read_write.
        destruct (Nat.ltb_spec r (length (arrays b h))); [done | lia].
      * unfold read, write. rewrite arrays_withArrays.
        by rewrite list_lookup_insert_ne.
  - unfold read, write. by rewrite arrays_withArrays_other.
Qed.

Lemma performSmartSearch_stepOk query h data b :
  (data < length (arrays b h))%nat ->
  stepOk b h (performSmartSearch toLowerCase query h data b).
Proof.
  intros Hdata. unfold performSmartSearch.
  destruct (queryWordsOf toLowerCase query).
  - split; [apply sameLengths_refl | done].
  - split; [apply sameLengths_alloc | apply alloc_allocated].
Qed.

Lemma applyCategoryFilters_stepOk sm h results category b :
  (results < length (arrays b h))%nat ->
  stepOk b h (applyCategoryFilters sm h results category b).
Proof.
  intros Hres. unfold applyCategoryFilters. destruct b.
  - destruct (categoryFilter sm category).
    + split; [apply sameLengths_alloc | apply alloc_allocated].
    + split; [apply sameLengths_refl | done].
  - split; [apply sameLengths_refl | done].
Qed.

Lemma applySorting_stepOk h results sortType b :
  (results < length (arrays b h))%nat ->
  stepOk b h (applySorting localeCompare h results sortType b).
Proof.
  intros Hres. unfold applySorting.
  destruct (sortOrder localeCompare sortType b) as [after|].
  - split; cbn [fst snd].
    + apply sameLengths_write. apply jsSort_length.
    + unfold write. by rewrite arrays_withArrays, length_insert.
  - split; [apply sameLengths_refl | done].
Qed.

(** The branch of a cache miss: the arrays that exist keep their length,
    and the result is an array of the heap with at most 200 elements. *)
Lemma computeResults_withinLimit query st :
  (vendorList st < length (vendorArrays (heap st)))%nat ->
  let r := computeResults toLowerCase localeCompare query st in
  sameLengths (heap st) r.1
  /\ withinLimit r.1 (mkRef (hasProductDataOf st) r.2).
Proof.
  intros Hvl. unfold computeResults.
  set (b := hasProductDataOf st).
  set (r1 := if b
             then alloc true (heap st)
                        (unscored <$> objectValues (comparisonData st))
             else (heap st, vendorList st)).
  assert (stepOk b (heap st) r1) as [Hs1 Ha1].
  { unfold r1. destruct b.
    - split; [apply sameLengths_alloc | apply (alloc_allocated true)].
    - split; [apply sameLengths_refl | done]. }
  destruct r1 as [h1 res1]. cbn [fst snd] in Hs1, Ha1.
  set (r2 := match query with
             | _ :: _ => performSmartSearch toLowerCase query h1 res1 b
             | [] => (h1, res1)
             end).
  assert (stepOk b h1 r2) as [Hs2 Ha2].
  { unfold r2. destruct query.
    - split; [apply sameLengths_refl | done].
    - by apply performSmartSearch_stepOk. }
  destruct r2 as [h2 res2]. cbn [fst snd] in Hs2, Ha2.
  destruct (applyCategoryFilters_stepOk (searchManager st) h2 res2
              (currentCategory (searchManager st)) b Ha2) as [Hs3 Ha3].
  destruct (applyCategoryFilters (searchManager st) h2 res2
              (currentCategory (searchManager st)) b) as [h3 res3].
  cbn [fst snd] in Hs3, Ha3.
  destruct (applySorting_stepOk h3 res3 (currentSort (searchManager st)) b Ha3)
    as [Hs4 Ha4].
  destruct (applySorting localeCompare h3 res3 (currentSort (searchManager st)) b)
    as [h4 res4].
  cbn [fst snd] in Hs4, Ha4.
  assert (sameLengths (heap st) h4) as Hs.
  { eapply sameLengths_trans; [exact Hs1|].
    eapply sameLengths_trans; [exact Hs2|].
    eapply sameLengths_trans; [exact Hs3 | exact Hs4]. }
  destruct (Nat.ltb_spec MAX_SEARCH_RESULTS (length (read b h4 res4)))
    as [Hbig|Hsmall].
  - split.
    + eapply sameLengths_trans; [exact Hs | apply sameLengths_alloc].
    + split; cbn [refIndex refHasProductData]; [apply alloc_allocated|].
      unfold contents. cbn [refIndex refHasProductData].
      rewrite read_alloc_new, length_take. lia.
  - split; [done|]. by split.
Qed.

Lemma content_get_lookup {K V} `{EqDecision K} (c : Content.PerformanceCache K V)
    key k v :
  JsMap.get k (Content.cache (Content.get key c).2) = Some v ->
  JsMap.get k (Content.cache c) = Some v.
Proof.
  unfold Content.get.
  destruct (JsMap.get key (Content.cache c)) as [item|] eqn:E; [|done].
  cbn [snd Content.cache]. destruct (decide (k = key)) as [->|Hne].
  - rewrite get_set_eq. congruence.
  - by rewrite get_move_to_end_ne.
Qed.

Lemma content_set_lookup {K V} `{EqDecision K} (c : Content.PerformanceCache K V)
    key value k v :
  JsMap.get k (Content.cache (Content.set key value c)) = Some v ->
  (k = key /\ v = value) \/ JsMap.get k (Content.cache c) = Some v.
Proof.
  unfold Content.set. cbn [Content.cache].
  destruct (decide (k = key)) as [->|Hne].
  - rewrite get_set_eq. intros [= <-]. by left.
  - rewrite get_set_ne by done. intros Hget. right.
    destruct (JsMap.has key (Content.cache c)).
    + by apply get_delete_Some in Hget.
    + destruct (_ >=? _); [by apply get_deleteFirst_Some in Hget | done].
Qed.

Lemma withinLimit_sameLengths h h' ref :
  sameLengths h h' -> withinLimit h ref -> withinLimit h' ref.
Proof.
  intros Hsame [Halloc Hlen]. destruct (Hsame _ _ Halloc) as [Halloc' Hlen'].
  split; [done|]. unfold contents in *. lia.
Qed.

(** A search keeps the cache within the limit, and so does its result. *)
Lemma search_cacheWithinLimit query st :
  cacheWithinLimit st ->
  cacheWithinLimit (search query st)
  /\ withinLimit (heap (search query st))
                 (filteredResults (searchManager (search query st))).
Proof.
  intros [Hvl Hcache]. unfold performAdvancedSearch.
  set (key := cacheKeyOf query (currentCategory (searchManager st))
                         (hasProductDataOf st)).
  pose proof (content_get_lookup (searchCache st) key) as Hlookup.
  destruct (Content.get key (searchCache st)) as [cached cache] eqn:Hget.
  cbn [snd] in Hlookup.
  destruct cached as [results|].
  - cbn [heap searchManager filteredResults vendorList searchCache].
    assert (JsMap.get key (Content.cache (searchCache st)) = Some results) as Hhit.
    { unfold Content.get in Hget.
      destruct (JsMap.get key (Content.cache (searchCache st))); [|done].
      by injection Hget as -> _. }
    split; [|by eapply Hcache]. split; [done|].
    intros k ref Hk. apply (Hcache k). by apply Hlookup.
  - destruct (computeResults_withinLimit query st Hvl) as [Hsame Hnew].
    destruct (computeResults toLowerCase localeCompare query st) as [h r].
    cbn [fst snd] in Hsame, Hnew.
    cbn [heap searchManager filteredResults vendorList searchCache].
    split; [|done]. split.
    + by destruct (Hsame false (vendorList st) Hvl).
    + intros k ref Hk. apply content_set_lookup in Hk as [[_ ->]|Hk]; [done|].
      eapply withinLimit_sameLengths; [exact Hsame|].
      apply (Hcache k). by apply Hlookup.
Qed.

Lemma searchStep_cacheWithinLimit st e :
  cacheWithinLimit st ->
  cacheWithinLimit (searchStep toLowerCase localeCompare st e).
Proof.
  intros Hst. destruct e as [query|sortType|category|m]; cbn [searchStep];
    [|done|done|done].
  by apply search_cacheWithinLimit.
Qed.

(** X30. The result of a search never has more than 200 entries, also when
    it comes from the cache: from a page whose search cache is empty,
    after any sequence of searches and of choices of sort order, category
    and maximum price, the array that [performAdvancedSearch] leaves in
    [searchManager.filteredResults] has at most [MAX_SEARCH_RESULTS]
    elements. *)
Theorem search_results_within_limit (st : PageState) (events : list SearchEvent)
    (query : jsstring) :
  (vendorList st < length (vendorArrays (heap st)))%nat ->
  Content.cache (searchCache st) = [] ->
  let st' := search query (foldl (searchStep toLowerCase localeCompare) st events) in
  (length (contents (heap st') (filteredResults (searchManager st')))
   <= MAX_SEARCH_RESULTS)%nat.
Proof.
  intros Hvl Hempty st'.
  assert (cacheWithinLimit (foldl (searchStep toLowerCase localeCompare) st events))
    as Hinv.
  { assert (cacheWithinLimit st) as Hst.
    { split; [done|]. intros key ref. by rewrite Hempty. }
    clear Hvl Hempty st'. revert st Hst.
    induction events as [|e events IH]; intros st Hst; [done|].
    cbn [foldl]. by apply IH, searchStep_cacheWithinLimit. }
  by destruct (search_cacheWithinLimit query _ Hinv) as [_ [_ Hlen]].
Qed.
End SearchLimitFacts.

Lemma search_results_within_limit_witness :
  let st := Search.vendorPage [Search.flatVendor "b" "b" "2" "2";
                               Search.flatVendor "a" "a" "1" "1"]
                              "all" "name-asc" in
  let st' :=
    Search.performAdvancedSearch Str.lowerAscii compareCodeUnits (js "a")
      (foldl (searchStep Str.lowerAscii compareCodeUnits) st
             [RunSearch []; ChooseSort "name-desc"]) in
  (length (Search.contents (Search.heap st')
             (Search.filteredResults (Search.searchManager st')))
   <= Search.MAX_SEARCH_RESULTS)%nat.
Proof.
  intros st st'.
  apply (search_results_within_limit Str.lowerAscii compareCodeUnits st
           [RunSearch []; ChooseSort "name-desc"] (js "a")).
  - simpl. lia.
  - reflexivity.
Defined.
